(** * deepks-kit: the training-data readers of [deepks/model/reader.py]

    A shallow embedding of the four reader classes ([Reader], [ForceReader],
    [OrbitalReader], [GroupReader]) and the properties of their sampling,
    iteration and statistics routines.

    Conventions of the embedding.
    - Python integers are [Z]; shapes and atom counts read from arrays are [nat].
    - An array whose leading axis is the frame axis is a [tensor]: the list of
      its frames (each stored flat, row-major) and the shape of one frame.
    - A method that mutates [self] and may raise is a computation in the monad
      [py S A := S -> outcome S A]; the state reached when an exception is
      raised is kept, as in Python.
    - Every random draw of numpy is an explicit argument of the method that
      draws it; theorems quantify over all draws numpy can return.
    - The directory of one system is a [system_dir]: the contents of
      [system.raw] and the [.npy] files by name. *)

From stdpp Require Import base option list list_numbers gmap strings.
From Stdlib Require Import ZArith QArith Qabs Lia.

Set Default Proof Using "Type".
Local Open Scope Z_scope.

(** ** Exceptions, results and the state-and-exception monad *)

Inductive exn :=
  | IndexError | ValueError | AssertionError | FileNotFoundError
  | RuntimeError | KeyError | AttributeError | StopIteration.

Inductive result (A : Type) :=
  | Ok (a : A)
  | Err (e : exn).
Arguments Ok {A} a.
Arguments Err {A} e.

Definition rbind {A B} (m : result A) (k : A → result B) : result B :=
  match m with Ok a => k a | Err e => Err e end.

Fixpoint rmapM {A B} (f : A → result B) (l : list A) : result (list B) :=
  match l with
  | [] => Ok []
  | x :: l => rbind (f x) (λ y, rbind (rmapM f l) (λ ys, Ok (y :: ys)))
  end.

Inductive outcome (S A : Type) :=
  | Return (s : S) (a : A)
  | Raised (s : S) (e : exn).
Arguments Return {S A} s a.
Arguments Raised {S A} s e.

Definition py (S A : Type) := S → outcome S A.

Definition ret {S A} (a : A) : py S A := λ s, Return s a.
Definition raise {S A} (e : exn) : py S A := λ s, Raised s e.
Definition bind {S A B} (m : py S A) (k : A → py S B) : py S B :=
  λ s, match m s with Return s' a => k a s' | Raised s' e => Raised s' e end.
Definition get {S} : py S S := λ s, Return s s.
Definition modify {S} (f : S → S) : py S unit := λ s, Return (f s) tt.
Definition lift {S A} (m : result A) : py S A :=
  λ s, match m with Ok a => Return s a | Err e => Raised s e end.

Declare Scope py_scope.
Delimit Scope py_scope with py.
Notation "x <- m ;; k" := (bind m (λ x, k))
  (at level 100, m at next level, right associativity) : py_scope.
Notation "m ;;; k" := (bind m (λ _, k))
  (at level 100, right associativity) : py_scope.
Notation "x <~ m ;; k" := (rbind m (λ x, k))
  (at level 100, m at next level, right associativity) : py_scope.
Local Open Scope py_scope.

(** ** Python and numpy indexing *)

Section Indexing.
Context {A : Type}.

(** [a[i]] for an integer [i]: negative indices count from the end. *)
Definition py_index (a : list A) (i : Z) : result A :=
  let n := Z.of_nat (length a) in
  let j := if i <? 0 then n + i else i in
  if (0 <=? j) && (j <? n)
  then match a !! Z.to_nat j with Some x => Ok x | None => Err IndexError end
  else Err IndexError.

(** [a[ind]] for an integer index array [ind] (a copy is made). *)
Definition np_take (a : list A) (ind : list Z) : result (list A) :=
  rmapM (py_index a) ind.

(** [a[:k]] and [a[k:]]. *)
Definition slice_to (a : list A) (k : Z) : list A :=
  take (Z.to_nat (if k <? 0 then Z.of_nat (length a) + k else k)) a.
Definition slice_from (a : list A) (k : Z) : list A :=
  drop (Z.to_nat (if k <? 0 then Z.of_nat (length a) + k else k)) a.

(** [a[conv]] for a boolean mask [conv]. *)
Fixpoint mask_select (a : list A) (conv : list bool) : list A :=
  match a, conv with
  | x :: a, c :: conv => if c then x :: mask_select a conv else mask_select a conv
  | _, _ => []
  end.
Definition np_mask (a : list A) (conv : list bool) : result (list A) :=
  if decide (length conv = length a) then Ok (mask_select a conv) else Err IndexError.
End Indexing.

(** [np.arange(a, b)]. *)
Definition np_arange (a b : Z) : list Z := seqZ a (b - a).

(** [conv.sum()] of a boolean array. *)
Definition count_true (conv : list bool) : Z :=
  Z.of_nat (length (filter (λ c, c = true) conv)).

(** The values [np.random.choice(n, n, replace=False)] can return: the
    orderings of [0, ..., n-1]. *)
Definition is_permutation_of_range (n : Z) (ind : list Z) : Prop :=
  ind ≡ₚ seqZ 0 n.

(** ** Arrays *)

Section Arrays.
Context {F : Type}.

(** A [.npy] file: its shape and its elements in row-major order. *)
Record npy := Npy { npy_shape : list nat; npy_data : list F }.

(** An array with a leading frame axis. *)
Record tensor := Tensor { t_frames : list (list F); t_fshape : list nat }.

(** [t.shape[0]]. *)
Definition shape0 (t : tensor) : Z := Z.of_nat (length (t_frames t)).

Definition prod_list (l : list nat) : nat := foldr Nat.mul 1%nat l.

(** [np.load(f).reshape([n] + fshape)]: the sizes must agree. *)
Definition reshape_frames (a : npy) (n : nat) (fshape : list nat) : result tensor :=
  if decide (length (npy_data a) = (n * prod_list fshape)%nat)
  then Ok (Tensor (reshape (replicate n (prod_list fshape)) (npy_data a)) fshape)
  else Err ValueError.

(** [np.load(f).reshape(n, -1, d1, ..., dk)]: the second axis is inferred. *)
Definition reshape_frames_infer (a : npy) (n : nat) (rest : list nat) : result tensor :=
  let known := (n * prod_list rest)%nat in
  if decide (known = 0%nat) then Err ValueError
  else if decide ((length (npy_data a) `mod` known)%nat = 0%nat)
  then let k := (length (npy_data a) `div` known)%nat in
       Ok (Tensor (reshape (replicate n (k * prod_list rest)%nat) (npy_data a)) (k :: rest))
  else Err ValueError.

(** [t[ind]], [t[conv]] along the frame axis. *)
Definition tensor_take (t : tensor) (ind : list Z) : result tensor :=
  fr <~ np_take (t_frames t) ind ;; Ok (Tensor fr (t_fshape t)).
Definition tensor_mask (t : tensor) (conv : list bool) : result tensor :=
  fr <~ np_mask (t_frames t) conv ;; Ok (Tensor fr (t_fshape t)).

(** [np.concatenate(ts, axis=-1)] for arrays of shape [n; natm; w_i]. *)
Definition rows_of (w : nat) (frame : list F) (natm : nat) : list (list F) :=
  reshape (replicate natm w) frame.
Fixpoint zip_rows (srcs : list (list (list F))) (natm : nat) : list F :=
  match natm with
  | O => []
  | S natm' =>
      concat (map (λ rows, default [] (head rows)) srcs)
      ++ zip_rows (map (λ rows, tail rows) srcs) natm'
  end.
Fixpoint zip_frames (srcs : list (list (list F))) (natm w : nat) (n : nat) : list (list F) :=
  match n with
  | O => []
  | S n' =>
      zip_rows (map (λ fr, rows_of w (default [] (head fr)) natm) srcs) natm
      :: zip_frames (map (λ fr, tail fr) srcs) natm w n'
  end.
Definition concat_last (ts : list tensor) (n natm w : nat) : result tensor :=
  match ts with
  | [] => Err ValueError
  | _ => Ok (Tensor (zip_frames (map t_frames ts) natm w n) [natm; (w * length ts)%nat])
  end.

(** Joining arrays along the frame axis: there has to be one at least, and
    the frame shapes must agree. *)
Definition cat_frames (e : exn) (ts : list tensor) : result tensor :=
  match ts with
  | [] => Err e
  | t0 :: _ =>
      if decide (Forall (λ t, t_fshape t = t_fshape t0) ts)
      then Ok (Tensor (concat (map t_frames ts)) (t_fshape t0))
      else Err e
  end.
(** [torch.cat(ts, dim=0)] and [np.concatenate(ts)]. *)
Definition torch_cat (ts : list tensor) : result tensor := cat_frames RuntimeError ts.
Definition np_concatenate (ts : list tensor) : result tensor := cat_frames ValueError ts.

(** [np.concatenate(vs, axis=-1)] of vectors. *)
Definition np_concatenate1 (vs : list (list F)) : result (list F) :=
  match vs with [] => Err ValueError | _ => Ok (concat vs) end.

(** [a.reshape(-1, k)]: rows of width [k]; the number of rows is inferred. *)
Definition reshape_rows (a : tensor) (k : nat) : result tensor :=
  let flat := concat (t_frames a) in
  if decide (k = 0%nat) then Err ValueError
  else if decide ((length flat `mod` k)%nat = 0%nat)
  then Ok (Tensor (reshape (replicate (length flat `div` k)%nat k) flat) [k])
  else Err ValueError.

(** Column [j] of a list of rows. *)
Definition column (rows : list (list F)) (j : nat) : list F :=
  omap (λ row, row !! j) rows.

(** [np.split(a, np.cumsum(sections)[:-1], axis=-1)] for sections that sum
    to the width of [a] (the assertion made before each such call): the
    columns of each section. *)
Fixpoint split_cols (rows : list (list F)) (start : nat) (sections : list nat)
    : list (list (list F)) :=
  match sections with
  | [] => []
  | s :: ss => ((λ row, take s (drop start row)) <$> rows) :: split_cols rows (start + s) ss
  end.

(** The directory of one system. *)
Record system_dir := SystemDir {
  system_raw : option (list nat);
  npy_files : gmap string npy;
  mask_files : gmap string (list bool)
}.

Definition np_load (d : system_dir) (name : string) : result npy :=
  match npy_files d !! name with Some a => Ok a | None => Err FileNotFoundError end.
Definition np_load_mask (d : system_dir) (name : string) : result (list bool) :=
  match mask_files d !! name with Some a => Ok a | None => Err FileNotFoundError end.

(** What the readers print on [sys.stderr]. *)
Inductive diagnostic :=
  | InferMeta (path : system_dir)               (* no system.raw, infer meta from data *)
  | ResetBatchSize (path : system_dir) (n : Z)  (* reset batch size to n *)
  | IgnoreEmpty (path : system_dir).            (* ignore empty dataset *)

(** The [try]/[except] of [load_meta]: [system.raw] gives the first and the
    last entry; when it is missing or empty the shape of the descriptor
    array is used, which has to be of order 3. *)
Definition load_meta (d : system_dir) (d_name0 : result string)
    : result (nat * nat * list diagnostic) :=
  match system_raw d with
  | Some (a :: l) => Ok (a, List.last l a, [])
  | _ =>
      dn <~ d_name0 ;;
      arr <~ np_load d dn ;;
      match npy_shape arr with
      | [_; n1; n2] => Ok (n1, n2, [InferMeta d])
      | _ => Err AssertionError
      end
  end.
End Arrays.
Arguments npy : clear implicits.
Arguments tensor : clear implicits.
Arguments system_dir : clear implicits.
Arguments diagnostic : clear implicits.

(** ** [class Reader]: label and descriptor, block-cursor sampling *)

Module Reader.
Section Defs.
Context {F : Type}.

Record t := Mk {
  data_path : system_dir F;
  batch_size : Z;
  e_name : string;
  d_name : list string;
  c_filter : bool;
  c_name : string;
  natm : nat;
  nproj : nat;
  index_count_all : Z;
  data_ec : tensor F;
  data_dm : tensor F;
  nframes : Z;
  ndesc : nat
}.

Definition set_index_count_all (c : Z) (s : t) : t :=
  Mk (data_path s) (batch_size s) (e_name s) (d_name s) (c_filter s) (c_name s)
     (natm s) (nproj s) c (data_ec s) (data_dm s) (nframes s) (ndesc s).
Definition set_data_ec (a : tensor F) (s : t) : t :=
  Mk (data_path s) (batch_size s) (e_name s) (d_name s) (c_filter s) (c_name s)
     (natm s) (nproj s) (index_count_all s) a (data_dm s) (nframes s) (ndesc s).
Definition set_data_dm (a : tensor F) (s : t) : t :=
  Mk (data_path s) (batch_size s) (e_name s) (d_name s) (c_filter s) (c_name s)
     (natm s) (nproj s) (index_count_all s) (data_ec s) a (nframes s) (ndesc s).

(** [__init__]: [load_meta] then [prepare]. *)
Definition __init__ (path : system_dir F) (batch_size : Z)
    (e_name : string) (d_name : list string)
    (conv_filter : bool) (conv_name : string) : result (t * list (diagnostic F)) :=
  (* load_meta *)
  meta <~ load_meta path
            (match d_name with dn :: _ => Ok (dn +:+ ".npy") | [] => Err IndexError end) ;;
  let natm := meta.1.1 in
  let nproj := meta.1.2 in
  (* prepare *)
  e_arr <~ np_load path (e_name +:+ ".npy") ;;
  let data_ec := Tensor ((λ x, [x]) <$> npy_data e_arr) [1%nat] in
  let raw_nframes := length (npy_data e_arr) in
  srcs <~ rmapM (λ dn, a <~ np_load path (dn +:+ ".npy") ;;
                       reshape_frames a raw_nframes [natm; nproj]) d_name ;;
  data_dm <~ concat_last srcs raw_nframes natm nproj ;;
  conv <~ (if conv_filter
           then m <~ np_load_mask path (conv_name +:+ ".npy") ;;
                if decide (length m = raw_nframes) then Ok m else Err ValueError
           else Ok (replicate raw_nframes true)) ;;
  data_ec <~ tensor_mask data_ec conv ;;
  data_dm <~ tensor_mask data_dm conv ;;
  let nframes := count_true conv in
  let ndesc := List.last (t_fshape data_dm) 0%nat in
  let clamp := if decide (nframes < batch_size)
               then (nframes, [ResetBatchSize path nframes]) else (batch_size, []) in
  Ok (Mk path clamp.1 e_name d_name conv_filter conv_name natm nproj
         0 data_ec data_dm nframes ndesc, meta.2 ++ clamp.2).

Definition sample_all : py t (list (tensor F)) :=
  self <- get ;; ret [data_ec self; data_dm self].

(** [perm] is the value of [np.random.choice(nframes, nframes, replace=False)],
    drawn only when the epoch is exhausted. *)
Definition sample_train (perm : list Z) : py t (list (tensor F)) :=
  self <- get ;;
  if decide (nframes self = batch_size self ∧ batch_size self = 1) then sample_all else
  modify (λ s, set_index_count_all (index_count_all s + batch_size s) s) ;;;
  self <- get ;;
  (if decide (index_count_all self > nframes self) then
     modify (λ s, set_index_count_all (batch_size s) s) ;;;
     self <- get ;;
     ec <- lift (tensor_take (data_ec self) perm) ;;
     modify (set_data_ec ec) ;;;
     self <- get ;;
     dm <- lift (tensor_take (data_dm self) perm) ;;
     modify (set_data_dm dm)
   else ret tt) ;;;
  self <- get ;;
  let ind := np_arange (index_count_all self - batch_size self) (index_count_all self) in
  ec <- lift (tensor_take (data_ec self) ind) ;;
  dm <- lift (tensor_take (data_dm self) ind) ;;
  ret [ec; dm].

Definition get_train_size (self : t) : Z := nframes self.
Definition get_batch_size (self : t) : Z := batch_size self.
Definition get_nframes (self : t) : Z := nframes self.

(** The states a reader goes through: the constructed reader, then the
    state left by each call of [sample_train] that returned. *)
Inductive reachable (r0 : t) : t → Prop :=
  | reach_init : reachable r0 r0
  | reach_step self perm self' b :
      reachable r0 self →
      is_permutation_of_range (nframes self) perm →
      sample_train perm self = Return self' b →
      reachable r0 self'.
End Defs.
Arguments t : clear implicits.
End Reader.

(** ** [class ForceReader]: label, descriptor, force and descriptor gradient,
       queue sampling *)

Module ForceReader.
Section Defs.
Context {F : Type}.

Record t := Mk {
  data_path : system_dir F;
  batch_size : Z;
  e_name : string;
  f_name : string;
  d_name : string;
  gv_name : string;
  c_filter : bool;
  c_name : string;
  natm : nat;
  nproj : nat;
  ndesc : nat;
  data_ec : tensor F;
  data_dm : tensor F;
  nframes : Z;
  t_ec : tensor F;
  t_eig : tensor F;
  t_fc : tensor F;
  t_gvx : tensor F;
  idx_queue : list Z
}.

Definition set_idx_queue (q : list Z) (s : t) : t :=
  Mk (data_path s) (batch_size s) (e_name s) (f_name s) (d_name s) (gv_name s)
     (c_filter s) (c_name s) (natm s) (nproj s) (ndesc s) (data_ec s) (data_dm s)
     (nframes s) (t_ec s) (t_eig s) (t_fc s) (t_gvx s) q.

(** [__init__]: [load_meta], [prepare], then the empty index queue.
    Pinning the tensors in memory does not change them and is left out. *)
Definition __init__ (path : system_dir F) (batch_size : Z)
    (e_name d_name f_name gv_name : string)
    (conv_filter : bool) (conv_name : string) : result (t * list (diagnostic F)) :=
  (* load_meta *)
  meta <~ load_meta path (Ok (d_name +:+ ".npy")) ;;
  let natm := meta.1.1 in
  let nproj := meta.1.2 in
  let ndesc := nproj in
  (* prepare *)
  e_arr <~ np_load path (e_name +:+ ".npy") ;;
  let data_ec := Tensor ((λ x, [x]) <$> npy_data e_arr) [1%nat] in
  let raw_nframes := length (npy_data e_arr) in
  d_arr <~ np_load path (d_name +:+ ".npy") ;;
  data_dm <~ reshape_frames d_arr raw_nframes [natm; ndesc] ;;
  conv <~ (if conv_filter
           then m <~ np_load_mask path (conv_name +:+ ".npy") ;;
                if decide (length m = raw_nframes) then Ok m else Err ValueError
           else Ok (replicate raw_nframes true)) ;;
  data_ec <~ tensor_mask data_ec conv ;;
  data_dm <~ tensor_mask data_dm conv ;;
  let nframes := count_true conv in
  let clamp := if decide (nframes < batch_size)
               then (nframes, [ResetBatchSize path nframes]) else (batch_size, []) in
  f_arr <~ np_load path (f_name +:+ ".npy") ;;
  fc <~ reshape_frames f_arr raw_nframes [natm; 3%nat] ;;
  t_fc <~ tensor_mask fc conv ;;
  gv_arr <~ np_load path (gv_name +:+ ".npy") ;;
  gvx <~ reshape_frames gv_arr raw_nframes [natm; 3%nat; natm; ndesc] ;;
  t_gvx <~ tensor_mask gvx conv ;;
  Ok (Mk path clamp.1 e_name f_name d_name gv_name conv_filter conv_name
         natm nproj ndesc data_ec data_dm nframes data_ec data_dm t_fc t_gvx [],
      meta.2 ++ clamp.2).

Definition sample_all : py t (list (tensor F)) :=
  self <- get ;; ret [t_ec self; t_eig self; t_fc self; t_gvx self].

(** [perm] is the value of [np.random.choice(nframes, nframes, replace=False)],
    drawn only when the queue is refilled. *)
Definition sample_train (perm : list Z) : py t (list (tensor F)) :=
  self <- get ;;
  if decide (batch_size self = nframes self ∧ nframes self = 1) then sample_all else
  (if decide (Z.of_nat (length (idx_queue self)) < batch_size self)
   then modify (set_idx_queue perm) else ret tt) ;;;
  self <- get ;;
  let sample_idx := slice_to (idx_queue self) (batch_size self) in
  modify (set_idx_queue (slice_from (idx_queue self) (batch_size self))) ;;;
  self <- get ;;
  ec <- lift (tensor_take (t_ec self) sample_idx) ;;
  eig <- lift (tensor_take (t_eig self) sample_idx) ;;
  fc <- lift (tensor_take (t_fc self) sample_idx) ;;
  gvx <- lift (tensor_take (t_gvx self) sample_idx) ;;
  ret [ec; eig; fc; gvx].

Definition get_train_size (self : t) : Z := nframes self.
Definition get_batch_size (self : t) : Z := batch_size self.
Definition get_nframes (self : t) : Z := nframes self.

Inductive reachable (r0 : t) : t → Prop :=
  | reach_init : reachable r0 r0
  | reach_step self perm self' b :
      reachable r0 self →
      is_permutation_of_range (nframes self) perm →
      sample_train perm self = Return self' b →
      reachable r0 self'.
End Defs.
Arguments t : clear implicits.
End ForceReader.

(** ** [class OrbitalReader]: the fields of [ForceReader] and the orbital
       label and its descriptor gradient, queue sampling *)

Module OrbitalReader.
Section Defs.
Context {F : Type}.

Record t := Mk {
  data_path : system_dir F;
  batch_size : Z;
  e_name : string;
  f_name : string;
  d_name : string;
  gv_name : string;
  o_name : string;
  op_name : string;
  c_filter : bool;
  c_name : string;
  natm : nat;
  nproj : nat;
  ndesc : nat;
  data_ec : tensor F;
  data_dm : tensor F;
  nframes : Z;
  t_ec : tensor F;
  t_eig : tensor F;
  t_fc : tensor F;
  t_gvx : tensor F;
  t_oc : tensor F;
  t_op : tensor F;
  idx_queue : list Z
}.

Definition set_idx_queue (q : list Z) (s : t) : t :=
  Mk (data_path s) (batch_size s) (e_name s) (f_name s) (d_name s) (gv_name s)
     (o_name s) (op_name s) (c_filter s) (c_name s) (natm s) (nproj s) (ndesc s)
     (data_ec s) (data_dm s) (nframes s) (t_ec s) (t_eig s) (t_fc s) (t_gvx s)
     (t_oc s) (t_op s) q.

Definition __init__ (path : system_dir F) (batch_size : Z)
    (e_name d_name f_name gv_name o_name op_name : string)
    (conv_filter : bool) (conv_name : string) : result (t * list (diagnostic F)) :=
  (* load_meta *)
  meta <~ load_meta path (Ok (d_name +:+ ".npy")) ;;
  let natm := meta.1.1 in
  let nproj := meta.1.2 in
  let ndesc := nproj in
  (* prepare *)
  e_arr <~ np_load path (e_name +:+ ".npy") ;;
  let data_ec := Tensor ((λ x, [x]) <$> npy_data e_arr) [1%nat] in
  let raw_nframes := length (npy_data e_arr) in
  d_arr <~ np_load path (d_name +:+ ".npy") ;;
  data_dm <~ reshape_frames d_arr raw_nframes [natm; ndesc] ;;
  conv <~ (if conv_filter
           then m <~ np_load_mask path (conv_name +:+ ".npy") ;;
                if decide (length m = raw_nframes) then Ok m else Err ValueError
           else Ok (replicate raw_nframes true)) ;;
  data_ec <~ tensor_mask data_ec conv ;;
  data_dm <~ tensor_mask data_dm conv ;;
  let nframes := count_true conv in
  let clamp := if decide (nframes < batch_size)
               then (nframes, [ResetBatchSize path nframes]) else (batch_size, []) in
  f_arr <~ np_load path (f_name +:+ ".npy") ;;
  fc <~ reshape_frames f_arr raw_nframes [natm; 3%nat] ;;
  t_fc <~ tensor_mask fc conv ;;
  gv_arr <~ np_load path (gv_name +:+ ".npy") ;;
  gvx <~ reshape_frames gv_arr raw_nframes [natm; 3%nat; natm; ndesc] ;;
  t_gvx <~ tensor_mask gvx conv ;;
  o_arr <~ np_load path (o_name +:+ ".npy") ;;
  oc <~ reshape_frames_infer o_arr raw_nframes [] ;;
  t_oc <~ tensor_mask oc conv ;;
  op_arr <~ np_load path (op_name +:+ ".npy") ;;
  op <~ reshape_frames_infer op_arr raw_nframes [natm; ndesc] ;;
  t_op <~ tensor_mask op conv ;;
  Ok (Mk path clamp.1 e_name f_name d_name gv_name o_name op_name
         conv_filter conv_name natm nproj ndesc data_ec data_dm nframes
         data_ec data_dm t_fc t_gvx t_oc t_op [],
      meta.2 ++ clamp.2).

Definition sample_all : py t (list (tensor F)) :=
  self <- get ;;
  ret [t_ec self; t_eig self; t_fc self; t_gvx self; t_oc self; t_op self].

Definition sample_train (perm : list Z) : py t (list (tensor F)) :=
  self <- get ;;
  if decide (batch_size self = nframes self ∧ nframes self = 1) then sample_all else
  (if decide (Z.of_nat (length (idx_queue self)) < batch_size self)
   then modify (set_idx_queue perm) else ret tt) ;;;
  self <- get ;;
  let sample_idx := slice_to (idx_queue self) (batch_size self) in
  modify (set_idx_queue (slice_from (idx_queue self) (batch_size self))) ;;;
  self <- get ;;
  ec <- lift (tensor_take (t_ec self) sample_idx) ;;
  eig <- lift (tensor_take (t_eig self) sample_idx) ;;
  fc <- lift (tensor_take (t_fc self) sample_idx) ;;
  gvx <- lift (tensor_take (t_gvx self) sample_idx) ;;
  oc <- lift (tensor_take (t_oc self) sample_idx) ;;
  op <- lift (tensor_take (t_op self) sample_idx) ;;
  ret [ec; eig; fc; gvx; oc; op].

Definition get_train_size (self : t) : Z := nframes self.
Definition get_batch_size (self : t) : Z := batch_size self.
Definition get_nframes (self : t) : Z := nframes self.

Inductive reachable (r0 : t) : t → Prop :=
  | reach_init : reachable r0 r0
  | reach_step self perm self' b :
      reachable r0 self →
      is_permutation_of_range (nframes self) perm →
      sample_train perm self = Return self' b →
      reachable r0 self'.
End Defs.
Arguments t : clear implicits.
End OrbitalReader.

(** ** Numbers of the statistics routines

    The arithmetic and the reductions of numpy on [float64], taken as they
    come: no law is assumed of them, so what is proved of the statistics holds
    for floating-point arithmetic as well as for the reals. *)

Class Numpy (F : Type) := {
  f_zero : F;
  f_one : F;
  f_of_nat : nat → F;              (* float(n) *)
  f_add : F → F → F;
  f_sub : F → F → F;
  f_mul : F → F → F;
  f_div : F → F → F;
  np_sum : list F → F;             (* a.sum() of a flattened array *)
  np_mean : list F → F;            (* a.mean() *)
  np_std : list F → F;             (* a.std() *)
  np_linalg_solve : list (list F) → list F → result (list F)
}.

(** Probabilities are kept as exact rationals. *)
Definition Qsum (l : list Q) : Q := foldr Qplus 0%Q l.
Definition Zsum (l : list Z) : Z := foldr Z.add 0 l.
Definition Qfrac (a b : Z) : Q := Qdiv (inject_Z a) (inject_Z b).
Definition normalize (p : list Q) : list Q := (λ x, Qdiv x (Qsum p)) <$> p.

(** What [np.random.choice(a, p=p)] accepts as [p]: one probability per
    element of [a], none negative, summing to one. *)
Definition valid_prob (n : nat) (p : list Q) : Prop :=
  length p = n ∧ Forall (λ x, Qle 0 x) p ∧ Qeq (Qsum p) 1.

(** A [float64] value of the batch probabilities: [nframes / batch_size]
    and its normalisation are floating-point divisions, where a division by
    zero gives an infinity or NaN, and NaN propagates.  Finite values are
    kept as exact rationals; a zero is the positive zero, the only one an
    integer or a sum of these tables gives. *)
Inductive f64 := Fin (q : Q) | PInf | NInf | NaN.

Definition f64_add (x y : f64) : f64 :=
  match x, y with
  | NaN, _ | _, NaN => NaN
  | Fin a, Fin b => Fin (Qplus a b)
  | PInf, NInf | NInf, PInf => NaN
  | PInf, _ | _, PInf => PInf
  | NInf, _ | _, NInf => NInf
  end.
Definition f64_div (x y : f64) : f64 :=
  match x, y with
  | NaN, _ | _, NaN => NaN
  | Fin a, Fin b =>
      if Qeq_bool b 0
      then (if Qeq_bool a 0 then NaN else if Qle_bool 0 a then PInf else NInf)
      else Fin (Qdiv a b)
  | Fin _, _ => Fin 0
  | PInf, Fin b => if Qle_bool 0 b then PInf else NInf
  | NInf, Fin b => if Qle_bool 0 b then NInf else PInf
  | _, _ => NaN
  end.
(** [np.sum(p)], [float(n)] and [p / np.sum(p)]. *)
Definition f64_sum (p : list f64) : f64 := foldr f64_add (Fin 0) p.
Definition f64_of_Z (n : Z) : f64 := Fin (inject_Z n).
Definition f64_normalize (p : list f64) : list f64 :=
  (λ x, f64_div x (f64_sum p)) <$> p.

(** What [np.random.choice(a, size, p=p)] checks before it draws, for [a] of
    length [n]: [a] is not empty, [p] has the length of [a], holds no NaN
    and no negative entry, and sums to one within [sqrt(eps) = 2**-26]; all
    failures are [ValueError]. *)
Definition f64_nonneg (x : f64) : bool :=
  match x with Fin q => Qle_bool 0 q | PInf => true | _ => false end.
Definition choice_atol : Q := 1 # 67108864.
Definition np_random_choice_check (n : nat) (p : list f64) : result unit :=
  if decide (n ≠ 0%nat ∧ length p = n) then
    match f64_sum p with
    | Fin s =>
        if forallb f64_nonneg p && Qle_bool (Qabs (Qminus s 1)) choice_atol
        then Ok tt else Err ValueError
    | _ => Err ValueError
    end
  else Err ValueError.

(** [str] of a descriptor name given as a list, as an f-string formats it
    (names without quotes or escapes). *)
Definition py_repr_list (l : list string) : string :=
  "[" +:+ String.concat ", " ((λ s, "'" +:+ s +:+ "'") <$> l) +:+ "]".

(** [zip] applied to the unpacked list of tuples. *)
Definition zip_star {A} (ls : list (list A)) : list (list A) :=
  match ls with
  | [] => []
  | l0 :: _ =>
      let k := foldr (λ l m, Nat.min (length l) m) (length l0) ls in
      (λ j, omap (λ l, l !! j) ls) <$> seq 0 k
  end.

(** A loop over a list in the monad. *)
Fixpoint pmapM {S A B} (f : A → py S B) (l : list A) : py S (list B) :=
  match l with
  | [] => ret []
  | x :: l => y <- f x ;; ys <- pmapM f l ;; ret (y :: ys)
  end.

(** ** [class GroupReader] *)

Module GroupReader.
Section Defs.
Context {F : Type}.

(** The object behind [Reader_class(...)]: one of the three classes. *)
Inductive reader :=
  | RPlain (r : Reader.t F)
  | RForce (r : ForceReader.t F)
  | ROrbital (r : OrbitalReader.t F).

Definition r_nframes (r : reader) : Z :=
  match r with
  | RPlain r => Reader.nframes r
  | RForce r => ForceReader.nframes r
  | ROrbital r => OrbitalReader.nframes r
  end.
Definition r_batch_size (r : reader) : Z :=
  match r with
  | RPlain r => Reader.batch_size r
  | RForce r => ForceReader.batch_size r
  | ROrbital r => OrbitalReader.batch_size r
  end.
Definition r_natm (r : reader) : nat :=
  match r with
  | RPlain r => Reader.natm r
  | RForce r => ForceReader.natm r
  | ROrbital r => OrbitalReader.natm r
  end.
Definition r_ndesc (r : reader) : nat :=
  match r with
  | RPlain r => Reader.ndesc r
  | RForce r => ForceReader.ndesc r
  | ROrbital r => OrbitalReader.ndesc r
  end.
Definition r_data_ec (r : reader) : tensor F :=
  match r with
  | RPlain r => Reader.data_ec r
  | RForce r => ForceReader.data_ec r
  | ROrbital r => OrbitalReader.data_ec r
  end.
Definition r_data_dm (r : reader) : tensor F :=
  match r with
  | RPlain r => Reader.data_dm r
  | RForce r => ForceReader.data_dm r
  | ROrbital r => OrbitalReader.data_dm r
  end.

Definition in_class {S A} (inj : S → reader) (o : outcome S A) : outcome reader A :=
  match o with
  | Return s a => Return (inj s) a
  | Raised s e => Raised (inj s) e
  end.
Definition r_sample_train (perm : list Z) : py reader (list (tensor F)) :=
  λ r, match r with
       | RPlain r => in_class RPlain (Reader.sample_train perm r)
       | RForce r => in_class RForce (ForceReader.sample_train perm r)
       | ROrbital r => in_class ROrbital (OrbitalReader.sample_train perm r)
       end.
Definition r_sample_all : py reader (list (tensor F)) :=
  λ r, match r with
       | RPlain r => in_class RPlain (Reader.sample_all r)
       | RForce r => in_class RForce (ForceReader.sample_all r)
       | ROrbital r => in_class ROrbital (OrbitalReader.sample_all r)
       end.

(** The keyword arguments handed on to the reader class. *)
Inductive dname := DName (s : string) | DNames (l : list string).
Record kwargs := Kwargs {
  kw_e_name : string;
  kw_d_name : dname;
  kw_f_name : string;
  kw_gv_name : string;
  kw_o_name : string;
  kw_op_name : string;
  kw_conv_filter : bool;
  kw_conv_name : string
}.
Definition default_kwargs : kwargs :=
  Kwargs "l_e_delta" (DName "dm_eig") "l_f_delta" "grad_vx" "l_o_delta"
         "orbital_precalc" true "conv".

Definition dname_list (d : dname) : list string :=
  match d with DName s => [s] | DNames l => l end.
Definition dname_str (d : dname) : string :=
  match d with DName s => s | DNames l => py_repr_list l end.

Definition Reader_class (with_force with_orbital : bool)
    (ipath : system_dir F) (batch_size : Z) (kw : kwargs)
    : result (reader * list (diagnostic F)) :=
  if with_orbital then
    r <~ OrbitalReader.__init__ ipath batch_size (kw_e_name kw) (dname_str (kw_d_name kw))
           (kw_f_name kw) (kw_gv_name kw) (kw_o_name kw) (kw_op_name kw)
           (kw_conv_filter kw) (kw_conv_name kw) ;;
    Ok (ROrbital r.1, r.2)
  else if with_force then
    r <~ ForceReader.__init__ ipath batch_size (kw_e_name kw) (dname_str (kw_d_name kw))
           (kw_f_name kw) (kw_gv_name kw) (kw_conv_filter kw) (kw_conv_name kw) ;;
    Ok (RForce r.1, r.2)
  else
    r <~ Reader.__init__ ipath batch_size (kw_e_name kw) (dname_list (kw_d_name kw))
           (kw_conv_filter kw) (kw_conv_name kw) ;;
    Ok (RPlain r.1, r.2).

(** The tables built when [group_batch > 1].  A group lists its readers by
    their position in [readers]: the objects of [group_dict] are the
    objects of [readers], so a call of [sample_train] through a group is
    seen through [readers] as well. *)
Record group_tables := GroupTables {
  group_dict : gmap nat (list nat);
  group_prob : gmap nat Q;
  batch_prob_raw : gmap nat (list f64);
  batch_prob : gmap nat (list f64)
}.

Record t := Mk {
  path_list : list (system_dir F);
  batch_size : Z;
  readers : list reader;
  nframes : list Z;
  nsystems : nat;
  ndesc : nat;
  sys_prob : list Q;
  group_batch : Z;
  groups : option group_tables;
  _sample_used : Z
}.

Definition set_readers (rs : list reader) (s : t) : t :=
  Mk (path_list s) (batch_size s) rs (nframes s) (nsystems s) (ndesc s)
     (sys_prob s) (group_batch s) (groups s) (_sample_used s).
Definition set_sample_used (n : Z) (s : t) : t :=
  Mk (path_list s) (batch_size s) (readers s) (nframes s) (nsystems s) (ndesc s)
     (sys_prob s) (group_batch s) (groups s) n.

(** The state of the loop over [path_list]: [self.readers],
    [self.nframes] and what was printed so far. *)
Record init_state := InitState {
  st_readers : list reader;
  st_nframes : list Z;
  st_stderr : list (diagnostic F)
}.

(** One step of the loop appends the reader built for [ipath], or skips it
    when it has no frame. *)
Definition init_step (ctor : system_dir F → result (reader * list (diagnostic F)))
    (acc : result init_state) (ipath : system_dir F) : result init_state :=
  st <~ acc ;;
  built <~ ctor ipath ;;
  let ireader := built.1 in
  if decide (r_nframes ireader = 0)
  then Ok (InitState (st_readers st) (st_nframes st)
                     (st_stderr st ++ built.2 ++ [IgnoreEmpty ipath]))
  else Ok (InitState (st_readers st ++ [ireader]) (st_nframes st ++ [r_nframes ireader])
                     (st_stderr st ++ built.2)).

Definition rd_nframes (rs : list reader) (i : nat) : Z :=
  from_option r_nframes 0 (rs !! i).
Definition rd_batch_size (rs : list reader) (i : nat) : Z :=
  from_option r_batch_size 0 (rs !! i).

(** The loop over [enumerate(self.readers)] filling [group_dict]. *)
Definition group_step (gd : gmap nat (list nat)) (ir : nat * reader)
    : gmap nat (list nat) :=
  match gd !! r_natm ir.2 with
  | Some l => <[r_natm ir.2 := l ++ [ir.1]]> gd
  | None => <[r_natm ir.2 := [ir.1]]> gd
  end.
Definition build_group_dict (rs : list reader) : gmap nat (list nat) :=
  foldl group_step ∅ (zip (seq 0 (length rs)) rs).

Definition build_groups (rs : list reader) (nframes : list Z) : group_tables :=
  let gd := build_group_dict rs in
  let gp := (λ r_list, Qfrac (Zsum (rd_nframes rs <$> r_list)) (Zsum nframes)) <$> gd in
  let raw := (λ r_list, (λ i, f64_div (f64_of_Z (rd_nframes rs i))
                                       (f64_of_Z (rd_batch_size rs i))) <$> r_list)
               <$> gd in
  GroupTables gd gp raw (f64_normalize <$> raw).

Definition __init__ (path_list : list (system_dir F)) (batch_size group_batch : Z)
    (with_force with_orbital : bool) (kw : kwargs)
    : result (t * list (diagnostic F)) :=
  let ctor := λ ipath, Reader_class with_force with_orbital ipath batch_size kw in
  st <~ foldl (init_step ctor) (Ok (InitState [] [] [])) path_list ;;
  let readers := st_readers st in
  let nframes := st_nframes st in
  let nsystems := length readers in
  r0 <~ py_index readers 0 ;;
  let ndesc := r_ndesc r0 in
  let sys_prob := (λ ii, Qfrac ii (Zsum nframes)) <$> nframes in
  let group_batch := Z.max group_batch 1 in
  let groups := if decide (group_batch > 1)
                then Some (build_groups readers nframes) else None in
  Ok (Mk path_list batch_size readers nframes nsystems ndesc sys_prob
         group_batch groups 0, st_stderr st).

Definition get_train_size (self : t) : Z := Zsum (nframes self).
Definition get_batch_size (self : t) : Z := batch_size self.

(** [self.readers[idx].m()]: the method runs on the stored object. *)
Definition at_reader {A} (idx : Z) (m : py reader A) : py t A :=
  λ self,
    let n := Z.of_nat (length (readers self)) in
    let j := if idx <? 0 then n + idx else idx in
    match py_index (readers self) idx with
    | Err e => Raised self e
    | Ok r =>
        match m r with
        | Return r' a => Return (set_readers (<[Z.to_nat j := r']> (readers self)) self) a
        | Raised r' e => Raised (set_readers (<[Z.to_nat j := r']> (readers self)) self) e
        end
    end.

(** [sample_idx]: [draw] is the value of
    [np.random.choice(np.arange(nsystems), p=sys_prob)], returned once the
    probabilities have passed the checks. *)
Definition sample_idx (draw : nat) : py t Z :=
  self <- get ;;
  lift (np_random_choice_check (nsystems self) (Fin <$> sys_prob self)) ;;;
  ret (Z.of_nat draw).

Definition sample_train (idx : option Z) (draw : nat) (perm : list Z)
    : py t (list (tensor F)) :=
  idx <- match idx with None => sample_idx draw | Some i => ret i end ;;
  at_reader idx (r_sample_train perm).

Definition sample_all (idx : option Z) (draw : nat) : py t (list (tensor F)) :=
  idx <- match idx with None => sample_idx draw | Some i => ret i end ;;
  at_reader idx r_sample_all.

(** [sample_train_group]: [cnatm] is the group drawn with [group_prob],
    [csys] the positions in the group drawn with [batch_prob], one per
    system of the batch, and [perms] the permutation each of these systems
    would draw.  Each of the two draws is made once its probabilities have
    passed the checks of [np.random.choice]. *)
Definition sample_train_group (cnatm : nat) (csys : list nat)
    (perms : list (list Z)) : py t (list (tensor F)) :=
  self <- get ;;
  g <- lift (match groups self with Some g => Ok g | None => Err AttributeError end) ;;
  lift (np_random_choice_check (length (map_to_list (group_prob g)))
          (Fin <$> (map_to_list (group_prob g)).*2)) ;;;
  cgrp <- lift (match group_dict g !! cnatm with Some l => Ok l | None => Err KeyError end) ;;
  p <- lift (match batch_prob g !! cnatm with Some p => Ok p | None => Err KeyError end) ;;
  lift (np_random_choice_check (length cgrp) p) ;;;
  s_list <- lift (rmapM (λ k, match cgrp !! k with
                               | Some i => Ok i | None => Err IndexError end) csys) ;;
  samples <- pmapM (λ sp : nat * list Z, at_reader (Z.of_nat sp.1) (r_sample_train sp.2))
                   (zip s_list perms) ;;
  lift (rmapM torch_cat (zip_star samples)).

(** The random draws one call of [__next__] may use. *)
Record draws := Draws {
  dr_idx : nat;
  dr_perm : list Z;
  dr_natm : nat;
  dr_csys : list nat;
  dr_perms : list (list Z)
}.

Definition __next__ (d : draws) : py t (list (tensor F)) :=
  self <- get ;;
  if decide (_sample_used self > get_train_size self) then
    modify (set_sample_used 0) ;;;
    raise StopIteration
  else
    sample <- (if decide (group_batch self = 1)
               then sample_train None (dr_idx d) (dr_perm d)
               else sample_train_group (dr_natm d) (dr_csys d) (dr_perms d)) ;;
    s0 <- lift (py_index sample 0) ;;
    modify (λ s, set_sample_used (_sample_used s + shape0 s0) s) ;;;
    ret sample.

(** [__iter__] returns the reader itself. *)
Definition __iter__ (self : t) : t := self.
(** The draws numpy can return in the state [self]: a position of
    [readers]; and, when both probability tables of the group draw pass the
    checks of [np.random.choice] (there is no draw otherwise), a key of
    [group_prob] and [group_batch] positions in the group of this key; and
    for every reader asked for a sample a permutation of its frame
    indices. *)
Definition valid_group_draws (self : t) (cnatm : nat) (csys : list nat)
    (perms : list (list Z)) : Prop :=
  ∀ g, groups self = Some g →
    np_random_choice_check (length (map_to_list (group_prob g)))
      (Fin <$> (map_to_list (group_prob g)).*2) = Ok tt ∧
    is_Some (group_prob g !! cnatm) ∧
    ∃ cgrp p, group_dict g !! cnatm = Some cgrp ∧
      batch_prob g !! cnatm = Some p ∧
      np_random_choice_check (length cgrp) p = Ok tt ∧
      Z.of_nat (length csys) = group_batch self ∧
      Forall2 (λ k perm, ∃ i r, cgrp !! k = Some i ∧ readers self !! i = Some r ∧
                                is_permutation_of_range (r_nframes r) perm)
              csys perms.
Definition valid_draws (self : t) (d : draws) : Prop :=
  (∃ r, readers self !! dr_idx d = Some r ∧
        is_permutation_of_range (r_nframes r) (dr_perm d)) ∧
  valid_group_draws self (dr_natm d) (dr_csys d) (dr_perms d).

(** The states a group reader goes through: the constructed one, then the
    state left by each call of [__next__], whether it returned a batch or
    raised. *)
Inductive reachable (g0 : t) : t → Prop :=
  | reach_init : reachable g0 g0
  | reach_next self d self' b :
      reachable g0 self → valid_draws self d →
      __next__ d self = Return self' b → reachable g0 self'
  | reach_raise self d self' e :
      reachable g0 self → valid_draws self d →
      __next__ d self = Raised self' e → reachable g0 self'.

(** *** Statistics and prefitting *)

Context `{!Numpy F}.

Definition compute_data_stat (symm_sections : option (list nat)) (self : t)
    : result (list F * list F) :=
  parts <~ rmapM (λ r, reshape_rows (r_data_dm r) (r_ndesc r)) (readers self) ;;
  all_dm <~ np_concatenate parts ;;
  let width := List.last (t_fshape all_dm) 0%nat in
  match symm_sections with
  | None =>
      Ok ((λ j, np_mean (column (t_frames all_dm) j)) <$> seq 0 width,
          (λ j, np_std (column (t_frames all_dm) j)) <$> seq 0 width)
  | Some sections =>
      if decide (sum_list sections = width) then
        let dm_shells := split_cols (t_frames all_dm) 0 sections in
        let mean_shells :=
          zip_with (λ d s, replicate s (np_mean (concat d))) dm_shells sections in
        let std_shells :=
          zip_with (λ d s, replicate s (np_std (concat d))) dm_shells sections in
        all_mean <~ np_concatenate1 mean_shells ;;
        all_std <~ np_concatenate1 std_shells ;;
        Ok (all_mean, all_std)
      else Err AssertionError
  end.

(** Broadcasting a vector of length [b] against the last axis of width [a]. *)
Definition bc_width (a b : nat) : result nat :=
  if decide (a = b) then Ok a
  else if decide (b = 1%nat) then Ok a
  else if decide (a = 1%nat) then Ok b
  else Err ValueError.
Definition bc_get (v : list F) (j : nat) : F :=
  default f_zero (if decide (length v = 1%nat) then v !! 0%nat else v !! j).
Definition bc_row (op : F → F → F) (w : nat) (row v : list F) : list F :=
  (λ j, op (bc_get row j) (bc_get v j)) <$> seq 0 w.

(** [((r.data_dm - shift) / scale).sum(1)]: one feature vector per frame. *)
Definition summed_features (shift scale : list F) (r : reader) : result (tensor F) :=
  let dm := r_data_dm r in
  let natm := default 0%nat (t_fshape dm !! 0%nat) in
  let nd := default 0%nat (t_fshape dm !! 1%nat) in
  w1 <~ bc_width nd (length shift) ;;
  w2 <~ bc_width w1 (length scale) ;;
  let feature := λ frame,
    let rows := (λ row, bc_row f_div w2 (bc_row f_sub w1 row shift) scale)
                  <$> rows_of nd frame natm in
    (λ j, np_sum (column rows j)) <$> seq 0 w2 in
  Ok (Tensor (feature <$> t_frames dm) [w2]).

(** [[float(r.data_dm.shape[1])] * r.data_dm.shape[0]]. *)
Definition natm_column (r : reader) : list F :=
  let dm := r_data_dm r in
  replicate (length (t_frames dm)) (f_of_nat (default 0%nat (t_fshape dm !! 0%nat))).

(** [np.identity(p)] with [I[-1,-1] = 0]. *)
Definition ridge_identity (p : nat) : list (list F) :=
  (λ i, (λ j, if decide (i = j ∧ i ≠ (p - 1)%nat) then f_one else f_zero) <$> seq 0 p)
    <$> seq 0 p.

(** [X.T @ X + ridge_alpha * I] and [X.T @ y]. *)
Definition normal_matrix (X : list (list F)) (p : nat) (ridge_alpha : F)
    : list (list F) :=
  (λ i, (λ j, f_add (np_sum (zip_with f_mul (column X i) (column X j)))
                    (f_mul ridge_alpha
                       (default f_zero (ridge_identity p !! i ≫= (.!! j)))))
          <$> seq 0 p) <$> seq 0 p.
Definition normal_rhs (X : list (list F)) (p : nat) (y : list F) : list F :=
  (λ i, np_sum (zip_with f_mul (column X i) y)) <$> seq 0 p.

Definition compute_prefitting (shift scale : option (list F)) (ridge_alpha : F)
    (symm_sections : option (list nat)) (self : t) : result (list F * F) :=
  ss <~ match shift, scale with
        | Some sh, Some sc => Ok (sh, sc)
        | _, _ =>
            st <~ compute_data_stat symm_sections self ;;
            Ok (default st.1 shift, default st.2 scale)
        end ;;
  let shift := ss.1 in
  let scale := ss.2 in
  parts <~ rmapM (summed_features shift scale) (readers self) ;;
  all_sdm <~ np_concatenate parts ;;
  all_natm <~ np_concatenate1 (natm_column <$> readers self) ;;
  all_sdm <~ match symm_sections with
             | None => Ok all_sdm
             | Some sections =>
                 if decide (sum_list sections = List.last (t_fshape all_sdm) 0%nat) then
                   match sections with
                   | [] =>
                       (* no split point: the one part is the whole array *)
                       Ok (Tensor ((λ row, [np_sum row]) <$> t_frames all_sdm) [1%nat])
                   | _ =>
                       Ok (Tensor ((λ row, (λ d, np_sum d)
                                      <$> reshape sections row) <$> t_frames all_sdm)
                                  [length sections])
                   end
                 else Err AssertionError
             end ;;
  (* build feature matrix *)
  let X := zip_with (λ row n, row ++ [n]) (t_frames all_sdm) all_natm in
  ytens <~ np_concatenate (r_data_ec <$> readers self) ;;
  let y := concat (t_frames ytens) in
  let p := S (List.last (t_fshape all_sdm) 0%nat) in
  (* solve ridge reg *)
  coef <~ np_linalg_solve (normal_matrix X p ridge_alpha) (normal_rhs X p y) ;;
  let weight := slice_to coef (-1) in
  bias <~ py_index coef (-1) ;;
  weight <~ match symm_sections with
            | None => Ok weight
            | Some sections =>
                np_concatenate1 (zip_with (λ w s, replicate s w) weight sections)
            end ;;
  Ok (weight, bias).
End Defs.
Arguments t : clear implicits.
Arguments reader : clear implicits.
End GroupReader.

(** * Properties *)

(** ** Indexing *)

Section IndexingFacts.
Context {A : Type}.
Implicit Types (a : list A) (ind : list Z).

(** [fetched a ind l]: [l] holds, in order, the elements of [a] at the
    positions [ind]. *)
Definition fetched a ind (l : list A) : Prop :=
  Forall2 (λ i x, a !! Z.to_nat i = Some x) ind l.

Lemma py_index_in_range a i :
  0 ≤ i < Z.of_nat (length a) →
  ∃ x, py_index a i = Ok x ∧ a !! Z.to_nat i = Some x.
Proof.
  intros Hi. unfold py_index.
  destruct (Z.ltb_spec i 0) as [?|_]; [lia|].
  destruct (Z.leb_spec 0 i) as [_|?]; [|lia].
  destruct (Z.ltb_spec i (Z.of_nat (length a))) as [_|?]; [|lia].
  simpl. destruct (a !! Z.to_nat i) as [x|] eqn:Hx; [eauto|].
  apply lookup_ge_None in Hx. lia.
Qed.

Lemma np_take_fetched a ind :
  Forall (λ i, 0 ≤ i < Z.of_nat (length a)) ind →
  ∃ l, np_take a ind = Ok l ∧ fetched a ind l.
Proof.
  unfold np_take, fetched. induction 1 as [|i ind Hi _ IH]; simpl.
  - exists []. split; [done|constructor].
  - destruct (py_index_in_range a i Hi) as (x & -> & Hx).
    destruct IH as (l & -> & Hl). simpl.
    exists (x :: l). split; [done|by constructor].
Qed.

Lemma fetched_length a ind l : fetched a ind l → length l = length ind.
Proof. intros H. symmetry. by eapply Forall2_length. Qed.

Lemma fetched_lookup a ind l k i :
  fetched a ind l → ind !! k = Some i → l !! k = a !! Z.to_nat i.
Proof.
  intros H Hk. destruct (Forall2_lookup_l _ _ _ _ _ H Hk) as (x & -> & Hx). done.
Qed.

Lemma fetched_seqZ a s n :
  0 ≤ s → s + n ≤ Z.of_nat (length a) →
  fetched a (seqZ s n) (take (Z.to_nat n) (drop (Z.to_nat s) a)).
Proof.
  intros Hs Hn. apply Forall2_same_length_lookup_2.
  - rewrite length_seqZ, length_take, length_drop. lia.
  - intros k i x Hi Hx. apply lookup_seqZ in Hi as [-> Hk].
    rewrite lookup_take_lt in Hx by lia. rewrite lookup_drop in Hx.
    rewrite <- Hx. f_equal. lia.
Qed.

Lemma fetched_inj a ind l1 l2 : fetched a ind l1 → fetched a ind l2 → l1 = l2.
Proof.
  unfold fetched. intros H1. revert l2.
  induction H1 as [|i x ind l Hx _ IH]; intros l2 H2; inversion H2; subst; [done|].
  f_equal; [congruence|by apply IH].
Qed.

Lemma fetched_Permutation a ind1 ind2 l1 :
  ind1 ≡ₚ ind2 → fetched a ind1 l1 → ∃ l2, fetched a ind2 l2 ∧ l1 ≡ₚ l2.
Proof.
  unfold fetched. intros Hp. revert l1.
  induction Hp as [|i ind1 ind2 _ IH|i j ind|ind1 ind2 ind3 _ IH1 _ IH2]; intros l1 H1.
  - inversion H1; subst. exists []. split; constructor.
  - inversion H1 as [|? x ? l ? Hl]; subst.
    destruct (IH _ Hl) as (l2 & ? & ?). exists (x :: l2).
    split; [by constructor|by constructor].
  - inversion H1 as [|? x ? l ? Hl]; subst.
    inversion Hl as [|? y ? l' ? Hl']; subst.
    exists (y :: x :: l'). split; [by repeat constructor|by constructor].
  - destruct (IH1 _ H1) as (l2 & H2 & ?). destruct (IH2 _ H2) as (l3 & ? & ?).
    exists l3. split; [done|by etrans].
Qed.

Lemma np_take_seqZ a s n :
  0 ≤ s → s + n ≤ Z.of_nat (length a) →
  np_take a (seqZ s n) = Ok (take (Z.to_nat n) (drop (Z.to_nat s) a)).
Proof.
  intros Hs Hn.
  destruct (np_take_fetched a (seqZ s n)) as (l & -> & Hl).
  - apply Forall_seqZ. intros; lia.
  - f_equal. eapply fetched_inj; [done|]. by apply fetched_seqZ.
Qed.

Lemma np_take_nil a : np_take a [] = Ok [].
Proof. done. Qed.

(** Reordering by a permutation of the positions keeps the elements. *)
Lemma np_take_permutation a perm :
  is_permutation_of_range (Z.of_nat (length a)) perm →
  ∃ l, np_take a perm = Ok l ∧ fetched a perm l ∧ l ≡ₚ a ∧ length l = length a.
Proof.
  unfold is_permutation_of_range. intros Hp.
  destruct (np_take_fetched a perm) as (l & Hl & Hf).
  - rewrite Hp. apply Forall_seqZ. intros; lia.
  - exists l. split; [done|]. split; [done|].
    destruct (fetched_Permutation _ _ _ _ Hp Hf) as (l2 & H2 & Hl2).
    assert (l2 = a) as ->.
    { eapply fetched_inj; [done|].
      pose proof (fetched_seqZ a 0 (Z.of_nat (length a))) as H.
      rewrite Nat2Z.id in H. simpl in H. rewrite firstn_all in H. apply H; lia. }
    split; [done|]. by apply Permutation_length.
Qed.
End IndexingFacts.

(** ** Construction of the single-system readers *)

Ltac inv_rbind H :=
  repeat match type of H with
    | rbind ?m _ = Ok _ =>
        let E := fresh "E" in
        destruct m eqn:E; simpl in H; [|discriminate H]
    end.

Lemma length_mask_select {A} (a : list A) conv :
  length conv = length a → Z.of_nat (length (mask_select a conv)) = count_true conv.
Proof.
  unfold count_true. revert conv.
  induction a as [|x a IH]; intros [|c conv] Hlen; simpl in *; try done.
  destruct c.
  - rewrite filter_cons_True by done. simpl length. rewrite !Nat2Z.inj_succ.
    f_equal. apply IH. lia.
  - rewrite filter_cons_False by (intros ?; done). apply IH. lia.
Qed.

Lemma count_true_nonneg conv : 0 ≤ count_true conv.
Proof. unfold count_true. lia. Qed.

Lemma count_true_replicate n : count_true (replicate n true) = Z.of_nat n.
Proof.
  unfold count_true. induction n as [|n IH]; [done|].
  change (replicate (S n) true) with (true :: replicate n true).
  rewrite filter_cons_True by done. simpl length. lia.
Qed.

Section ArrayFacts.
Context {F : Type}.
Implicit Types (t : tensor F).

Lemma tensor_mask_Ok t conv t' :
  tensor_mask t conv = Ok t' →
  length conv = length (t_frames t) ∧
  t_frames t' = mask_select (t_frames t) conv ∧ t_fshape t' = t_fshape t ∧
  Z.of_nat (length (t_frames t')) = count_true conv.
Proof.
  unfold tensor_mask, np_mask. destruct (decide _) as [Hl|]; [|done]. simpl.
  intros [= <-]. simpl. split_and!; try done. by apply length_mask_select.
Qed.

Lemma reshape_frames_Ok (a : npy F) n fshape t :
  reshape_frames a n fshape = Ok t →
  length (t_frames t) = n ∧ t_fshape t = fshape.
Proof.
  unfold reshape_frames. destruct (decide _); [|done]. intros [= <-]. simpl.
  by rewrite length_reshape, length_replicate.
Qed.

Lemma reshape_frames_infer_Ok (a : npy F) n rest t :
  reshape_frames_infer a n rest = Ok t → length (t_frames t) = n.
Proof.
  unfold reshape_frames_infer. repeat (destruct (decide _); [|done]);
    try done. destruct (decide _); [done|]. destruct (decide _); [|done].
  intros [= <-]. simpl. by rewrite length_reshape, length_replicate.
Qed.

Lemma length_zip_frames (srcs : list (list (list F))) natm w n :
  length (zip_frames srcs natm w n) = n.
Proof. revert srcs. induction n as [|n IH]; intros srcs; simpl; [done|]. by rewrite IH. Qed.

Lemma concat_last_Ok (ts : list (tensor F)) n natm w t :
  concat_last ts n natm w = Ok t →
  length (t_frames t) = n ∧ t_fshape t = [natm; (w * length ts)%nat].
Proof.
  unfold concat_last. destruct ts; [done|]. intros [= <-]. simpl.
  by rewrite length_zip_frames.
Qed.

Lemma tensor_take_Ok t ind t' :
  tensor_take t ind = Ok t' →
  np_take (t_frames t) ind = Ok (t_frames t') ∧ t_fshape t' = t_fshape t.
Proof.
  unfold tensor_take. destruct (np_take _ _); simpl; [|done]. by intros [= <-].
Qed.

Lemma conv_mask_Ok (path : system_dir F) (cf : bool) cn raw conv :
  (if cf
   then m <~ np_load_mask path cn ;;
        if decide (length m = raw) then Ok m else Err ValueError
   else Ok (replicate raw true)) = Ok conv →
  length conv = raw ∧ (cf = false → count_true conv = Z.of_nat raw) ∧
  (if cf then np_load_mask path cn = Ok conv else conv = replicate raw true).
Proof.
  destruct cf.
  - destruct (np_load_mask _ _); simpl; [|done].
    destruct (decide _); [|done]. by intros [= <-].
  - intros [= <-]. rewrite length_replicate. split; [done|]. split; [|done].
    intros _. apply count_true_replicate.
Qed.
End ArrayFacts.

(** ** [Reader]: construction and block-cursor sampling *)

Section ReaderFacts.
Context {F : Type}.
Implicit Types (self r : Reader.t F).

(** What construction establishes and every call of [sample_train] keeps. *)
Record Reader_inv self : Prop := {
  rinv_ec : Reader.nframes self = Z.of_nat (length (t_frames (Reader.data_ec self)));
  rinv_dm : Reader.nframes self = Z.of_nat (length (t_frames (Reader.data_dm self)));
  rinv_bs : Reader.batch_size self ≤ Reader.nframes self;
  rinv_cursor :
    (0 ≤ Reader.batch_size self ∧
     0 ≤ Reader.index_count_all self ≤ Reader.nframes self) ∨
    (Reader.batch_size self < 0 ∧ Reader.index_count_all self ≤ 0)
}.

Lemma Reader_init_Ok path bs e d cf cn r log :
  Reader.__init__ path bs e d cf cn = Ok (r, log) →
  ∃ conv,
    Reader.nframes r = count_true conv ∧
    (cf = false → ∀ a, np_load path (e +:+ ".npy") = Ok a →
       count_true conv = Z.of_nat (length (npy_data a))) ∧
    (if cf then np_load_mask path (cn +:+ ".npy") = Ok conv
     else ∃ raw_nframes, conv = replicate raw_nframes true) ∧
    Reader.batch_size r = (if decide (count_true conv < bs) then count_true conv else bs) ∧
    (count_true conv < bs → ResetBatchSize path (count_true conv) ∈ log) ∧
    Reader.index_count_all r = 0 ∧
    Reader.nframes r = Z.of_nat (length (t_frames (Reader.data_ec r))) ∧
    Reader.nframes r = Z.of_nat (length (t_frames (Reader.data_dm r))).
Proof.
  unfold Reader.__init__. intros H. inv_rbind H.
  match goal with H : tensor_mask _ ?c = Ok ?t, H' : tensor_mask _ ?c = Ok ?t' |- _ =>
    apply tensor_mask_Ok in H as (_ & _ & _ & Hn1);
    apply tensor_mask_Ok in H' as (_ & _ & _ & Hn2) end.
  match goal with H : _ = Ok ?c |- _ =>
    match type of H with context [np_load_mask] =>
      apply conv_mask_Ok in H as (Hc1 & Hc2 & Hc3); exists c end end.
  injection H as <- <-. simpl. split_and!; try done.
  - intros Hcf a' Ha'. rewrite Hc2 by done. congruence.
  - destruct cf; [done|eauto].
  - by destruct (decide _).
  - intros Hlt. destruct (decide _); [|done]. simpl. set_solver.
Qed.

Lemma Reader_init_inv path bs e d cf cn r log :
  Reader.__init__ path bs e d cf cn = Ok (r, log) → Reader_inv r.
Proof.
  intros H.
  destruct (Reader_init_Ok _ _ _ _ _ _ _ _ H)
    as (conv & Hn & _ & _ & Hb & _ & Hc & H1 & H2).
  pose proof (count_true_nonneg conv).
  split; try done.
  - rewrite Hb, Hn. destruct (decide _); lia.
  - rewrite Hb, Hn, Hc. destruct (decide (0 ≤ bs)).
    + left. destruct (decide _); lia.
    + right. destruct (decide _); lia.
Qed.

(** [l[a:b]] for [0 <= a]. *)
Definition frames_between {A} (l : list A) (a b : Z) : list A :=
  take (Z.to_nat (b - a)) (drop (Z.to_nat a) l).

(** One call of [sample_train] outside the degenerate case, from [self]
    to [self'], returning [(ec, dm)]. *)
Record block_cursor_step self (perm : list Z) self' (ec dm : tensor F) : Prop := {
  bcs_batch_size : Reader.batch_size self' = Reader.batch_size self;
  bcs_nframes : Reader.nframes self' = Reader.nframes self;
  bcs_natm : Reader.natm self' = Reader.natm self;
  bcs_ndesc : Reader.ndesc self' = Reader.ndesc self;
  (* the cursor advances by batch_size; past the end it restarts at
     batch_size and both arrays are reordered by the one permutation *)
  bcs_cursor :
    let advanced := Reader.index_count_all self + Reader.batch_size self in
    if decide (advanced > Reader.nframes self) then
      Reader.index_count_all self' = Reader.batch_size self ∧
      fetched (t_frames (Reader.data_ec self)) perm (t_frames (Reader.data_ec self')) ∧
      fetched (t_frames (Reader.data_dm self)) perm (t_frames (Reader.data_dm self')) ∧
      t_frames (Reader.data_ec self') ≡ₚ t_frames (Reader.data_ec self) ∧
      t_frames (Reader.data_dm self') ≡ₚ t_frames (Reader.data_dm self)
    else
      Reader.index_count_all self' = advanced ∧
      Reader.data_ec self' = Reader.data_ec self ∧
      Reader.data_dm self' = Reader.data_dm self;
  bcs_fshape_ec : t_fshape (Reader.data_ec self') = t_fshape (Reader.data_ec self);
  bcs_fshape_dm : t_fshape (Reader.data_dm self') = t_fshape (Reader.data_dm self);
  (* the batch is the slice [cursor - batch_size, cursor) of the arrays as
     they are stored after the call *)
  bcs_ec :
    t_frames ec =
      frames_between (t_frames (Reader.data_ec self'))
        (Reader.index_count_all self' - Reader.batch_size self')
        (Reader.index_count_all self');
  bcs_dm :
    t_frames dm =
      frames_between (t_frames (Reader.data_dm self'))
        (Reader.index_count_all self' - Reader.batch_size self')
        (Reader.index_count_all self');
  bcs_ec_shape : t_fshape ec = t_fshape (Reader.data_ec self);
  bcs_dm_shape : t_fshape dm = t_fshape (Reader.data_dm self);
  bcs_size : 0 ≤ Reader.batch_size self →
    shape0 ec = Reader.batch_size self ∧ shape0 dm = Reader.batch_size self
}.

Lemma np_take_arange {A} (a : list A) c b :
  (0 ≤ b ∧ 0 ≤ c - b ∧ c ≤ Z.of_nat (length a)) ∨ b < 0 →
  np_take a (np_arange (c - b) c) = Ok (frames_between a (c - b) c).
Proof.
  unfold np_arange, frames_between. replace (c - (c - b)) with b by lia.
  intros [(? & ? & ?)|?].
  - apply np_take_seqZ; lia.
  - rewrite seqZ_nil by lia. replace (Z.to_nat b) with 0%nat by lia. done.
Qed.

Lemma length_frames_between {A} (a : list A) c b :
  0 ≤ b → 0 ≤ c - b → c ≤ Z.of_nat (length a) →
  Z.of_nat (length (frames_between a (c - b) c)) = b.
Proof.
  intros. unfold frames_between. rewrite length_take, length_drop. lia.
Qed.

Lemma Reader_sample_train_step self perm :
  Reader_inv self →
  ¬ (Reader.nframes self = Reader.batch_size self ∧ Reader.batch_size self = 1) →
  is_permutation_of_range (Reader.nframes self) perm →
  ∃ self' ec dm,
    Reader.sample_train perm self = Return self' [ec; dm] ∧
    Reader_inv self' ∧ block_cursor_step self perm self' ec dm.
Proof.
  intros [Hec Hdm Hbs Hcur] Hnd Hperm.
  unfold Reader.sample_train, bind, get. simpl.
  destruct (decide _) as [?|_]; [done|].
  unfold modify, lift, ret. simpl.
  destruct (decide (_ > _)) as [Hgt|Hle]; simpl.
  - (* the epoch is exhausted *)
    assert (0 ≤ Reader.batch_size self) as Hb0 by lia.
    destruct (np_take_permutation (t_frames (Reader.data_ec self)) perm)
      as (lec & Eec & Hfec & Hpec & Hlec); [by rewrite <- Hec|].
    destruct (np_take_permutation (t_frames (Reader.data_dm self)) perm)
      as (ldm & Edm & Hfdm & Hpdm & Hldm); [by rewrite <- Hdm|].
    unfold tensor_take. rewrite Eec. simpl. rewrite Edm. simpl.
    rewrite !np_take_arange by (left; lia). simpl.
    eexists _, _, _. split; [done|]. split.
    + split; simpl; [lia|lia|lia|left; lia].
    + split; simpl; try done.
      * destruct (decide _); [done|lia].
      * intros _. unfold shape0. simpl.
        rewrite !length_frames_between by lia. done.
  - (* inside the epoch *)
    unfold tensor_take.
    set (c := Reader.index_count_all self + Reader.batch_size self) in *.
    rewrite !np_take_arange by lia. simpl.
    eexists _, _, _. split; [done|]. split.
    + split; simpl; [lia|lia|lia|lia].
    + split; simpl; try done.
      * destruct (decide _); [lia|done].
      * intros Hb0. unfold shape0. simpl.
        rewrite !length_frames_between by lia. done.
Qed.

Lemma Reader_sample_train_inv self perm self' b :
  Reader_inv self →
  is_permutation_of_range (Reader.nframes self) perm →
  Reader.sample_train perm self = Return self' b →
  Reader_inv self'.
Proof.
  intros Hinv Hperm Hs.
  destruct (decide (Reader.nframes self = Reader.batch_size self
                    ∧ Reader.batch_size self = 1)) as [Hd|Hnd].
  - unfold Reader.sample_train, bind, get in Hs. simpl in Hs.
    destruct (decide _); [|done]. by injection Hs as <- _.
  - destruct (Reader_sample_train_step self perm Hinv Hnd Hperm)
      as (s & ec & dm & Hs' & Hinv' & _). congruence.
Qed.

Lemma Reader_reachable_inv r0 self :
  Reader_inv r0 → Reader.reachable r0 self → Reader_inv self.
Proof.
  intros H0. induction 1 as [|self perm self' b _ IH Hperm Hs]; [done|].
  by eapply Reader_sample_train_inv.
Qed.
End ReaderFacts.

(** ** [ForceReader] and [OrbitalReader]: construction and queue sampling *)

Ltac inv_tensor_mask :=
  repeat match goal with
    | H : tensor_mask _ _ = Ok _ |- _ =>
        let Hn := fresh "Hn" in
        apply tensor_mask_Ok in H as (_ & _ & _ & Hn)
    end.

Section QueueFacts.
Context {F : Type}.

Lemma slice_to_take {A} (a : list A) k :
  0 ≤ k ∨ a = [] → slice_to a k = take (Z.to_nat k) a.
Proof.
  unfold slice_to. intros [?| ->].
  - destruct (Z.ltb_spec k 0); [lia|done].
  - by rewrite !take_nil.
Qed.

Lemma slice_from_drop {A} (a : list A) k :
  0 ≤ k ∨ a = [] → slice_from a k = drop (Z.to_nat k) a.
Proof.
  unfold slice_from. intros [?| ->].
  - destruct (Z.ltb_spec k 0); [lia|done].
  - by rewrite !drop_nil.
Qed.

Lemma tensor_take_fetched (t : tensor F) ind :
  Forall (λ i, 0 ≤ i < Z.of_nat (length (t_frames t))) ind →
  ∃ b, tensor_take t ind = Ok b ∧
       fetched (t_frames t) ind (t_frames b) ∧ t_fshape b = t_fshape t.
Proof.
  intros H. destruct (np_take_fetched _ _ H) as (l & Hl & Hf).
  unfold tensor_take. rewrite Hl. simpl. by eexists.
Qed.

Lemma permutation_in_range n perm :
  is_permutation_of_range n perm → Forall (λ i, 0 ≤ i < n) perm.
Proof.
  unfold is_permutation_of_range. intros ->. apply Forall_seqZ. intros; lia.
Qed.

Lemma permutation_length n perm :
  is_permutation_of_range n perm → length perm = Z.to_nat n.
Proof.
  unfold is_permutation_of_range. intros ->. apply length_seqZ.
Qed.

(** One call of the queue policy: [q], [q'] the queue before and after,
    [stored] the tensors of the reader, [batch] what is returned. *)
Definition queue_refill (batch_size : Z) (q perm : list Z) : list Z :=
  (* a queue shorter than one batch is thrown away whole *)
  if decide (Z.of_nat (length q) < batch_size) then perm else q.
Definition queue_front (batch_size : Z) (q perm : list Z) : list Z :=
  take (Z.to_nat batch_size) (queue_refill batch_size q perm).

Record queue_step (batch_size : Z) (q perm q' : list Z)
    (stored stored' batch : list (tensor F)) : Prop := {
  qs_exact : 0 ≤ batch_size →
    Z.of_nat (length (queue_front batch_size q perm)) = batch_size;
  qs_queue : q' = drop (Z.to_nat batch_size) (queue_refill batch_size q perm);
  qs_stored : stored' = stored;
  qs_batch :
    Forall2 (λ t b, fetched (t_frames t) (queue_front batch_size q perm) (t_frames b)
                    ∧ t_fshape b = t_fshape t) stored batch
}.

Record Force_inv (self : ForceReader.t F) : Prop := {
  finv_ec : ForceReader.nframes self = Z.of_nat (length (t_frames (ForceReader.t_ec self)));
  finv_eig : ForceReader.nframes self = Z.of_nat (length (t_frames (ForceReader.t_eig self)));
  finv_fc : ForceReader.nframes self = Z.of_nat (length (t_frames (ForceReader.t_fc self)));
  finv_gvx : ForceReader.nframes self = Z.of_nat (length (t_frames (ForceReader.t_gvx self)));
  finv_bs : ForceReader.batch_size self ≤ ForceReader.nframes self;
  finv_queue :
    Forall (λ i, 0 ≤ i < ForceReader.nframes self) (ForceReader.idx_queue self);
  finv_neg : ForceReader.batch_size self < 0 → ForceReader.idx_queue self = []
}.

Definition Force_stored (self : ForceReader.t F) : list (tensor F) :=
  [ForceReader.t_ec self; ForceReader.t_eig self;
   ForceReader.t_fc self; ForceReader.t_gvx self].

Lemma Force_init_Ok path bs e d f gv cf cn r log :
  ForceReader.__init__ path bs e d f gv cf cn = Ok (r, log) →
  ∃ conv,
    ForceReader.nframes r = count_true conv ∧
    (cf = false → ∀ a, np_load path (e +:+ ".npy") = Ok a →
       count_true conv = Z.of_nat (length (npy_data a))) ∧
    (if cf then np_load_mask path (cn +:+ ".npy") = Ok conv
     else ∃ raw_nframes, conv = replicate raw_nframes true) ∧
    ForceReader.batch_size r
      = (if decide (count_true conv < bs) then count_true conv else bs) ∧
    (count_true conv < bs → ResetBatchSize path (count_true conv) ∈ log) ∧
    ForceReader.idx_queue r = [] ∧
    Forall (λ t, ForceReader.nframes r = Z.of_nat (length (t_frames t)))
           (ForceReader.data_dm r :: Force_stored r).
Proof.
  unfold ForceReader.__init__. intros H. inv_rbind H.
  match goal with H : _ = Ok ?c |- _ =>
    match type of H with context [np_load_mask] =>
      apply conv_mask_Ok in H as (Hc1 & Hc2 & Hc3); exists c end end.
  inv_tensor_mask.
  injection H as <- <-. simpl. split_and!; try done.
  - intros Hcf a' Ha'. rewrite Hc2 by done. congruence.
  - destruct cf; [done|eauto].
  - by destruct (decide _).
  - intros Hlt. destruct (decide _); [|done]. simpl. set_solver.
  - repeat constructor; simpl; done.
Qed.

Lemma Force_init_inv path bs e d f gv cf cn r log :
  ForceReader.__init__ path bs e d f gv cf cn = Ok (r, log) → Force_inv r.
Proof.
  intros H.
  destruct (Force_init_Ok _ _ _ _ _ _ _ _ _ _ H)
    as (conv & Hn & _ & _ & Hb & _ & Hq & Hl).
  pose proof (count_true_nonneg conv).
  unfold Force_stored in Hl. rewrite !Forall_cons in Hl.
  destruct Hl as (_ & ? & ? & ? & ? & _).
  split; try done.
  - rewrite Hb, Hn. destruct (decide _); lia.
  - rewrite Hq. constructor.
Qed.

Lemma queue_refilled_facts (bs n : Z) (q perm : list Z) :
  bs ≤ n →
  Forall (λ i, 0 ≤ i < n) q → (bs < 0 → q = []) →
  is_permutation_of_range n perm →
  let q1 := queue_refill bs q perm in
  slice_to q1 bs = take (Z.to_nat bs) q1 ∧
  slice_from q1 bs = drop (Z.to_nat bs) q1 ∧
  Forall (λ i, 0 ≤ i < n) q1 ∧
  (0 ≤ bs → Z.of_nat (length (take (Z.to_nat bs) q1)) = bs) ∧
  (bs < 0 → drop (Z.to_nat bs) q1 = []).
Proof.
  intros Hbs Hq Hneg Hperm q1.
  assert (0 ≤ bs ∨ q1 = []) as Hor.
  { destruct (decide (0 ≤ bs)); [by left|right].
    unfold q1, queue_refill. destruct (decide _); [lia|]. apply Hneg. lia. }
  split_and!.
  - by apply slice_to_take.
  - by apply slice_from_drop.
  - unfold q1, queue_refill. destruct (decide _); [by apply permutation_in_range|done].
  - intros Hb0. rewrite length_take. unfold q1, queue_refill.
    destruct (decide _) as [Hlt|Hge].
    + rewrite (permutation_length _ _ Hperm). lia.
    + lia.
  - intros Hb. destruct Hor as [?| ->]; [lia|]. by rewrite drop_nil.
Qed.

Lemma Force_sample_train_step self perm :
  Force_inv self →
  ¬ (ForceReader.batch_size self = ForceReader.nframes self
     ∧ ForceReader.nframes self = 1) →
  is_permutation_of_range (ForceReader.nframes self) perm →
  ∃ self' batch,
    ForceReader.sample_train perm self = Return self' batch ∧
    Force_inv self' ∧
    ForceReader.batch_size self' = ForceReader.batch_size self ∧
    ForceReader.nframes self' = ForceReader.nframes self ∧
    self' = ForceReader.set_idx_queue (ForceReader.idx_queue self') self ∧
    queue_step (ForceReader.batch_size self) (ForceReader.idx_queue self) perm
      (ForceReader.idx_queue self') (Force_stored self) (Force_stored self') batch.
Proof.
  intros [Hec Heig Hfc Hgvx Hbs Hq Hneg] Hnd Hperm.
  destruct (queue_refilled_facts _ _ _ _ Hbs Hq Hneg Hperm)
    as (Hto & Hfrom & Hrange & Hexact & Hempty).
  set (bs := ForceReader.batch_size self) in *.
  set (q1 := queue_refill bs (ForceReader.idx_queue self) perm) in *.
  assert (Forall (λ i, 0 ≤ i < ForceReader.nframes self) (take (Z.to_nat bs) q1)) as Hidx.
  { by apply Forall_take. }
  destruct (tensor_take_fetched (ForceReader.t_ec self) (take (Z.to_nat bs) q1))
    as (ec & Eec & Hfec & Hsec); [by rewrite <- Hec|].
  destruct (tensor_take_fetched (ForceReader.t_eig self) (take (Z.to_nat bs) q1))
    as (eig & Eeig & Hfeig & Hseig); [by rewrite <- Heig|].
  destruct (tensor_take_fetched (ForceReader.t_fc self) (take (Z.to_nat bs) q1))
    as (fc & Efc & Hffc & Hsfc); [by rewrite <- Hfc|].
  destruct (tensor_take_fetched (ForceReader.t_gvx self) (take (Z.to_nat bs) q1))
    as (gvx & Egvx & Hfgvx & Hsgvx); [by rewrite <- Hgvx|].
  exists (ForceReader.set_idx_queue (drop (Z.to_nat bs) q1) self), [ec; eig; fc; gvx].
  split.
  { unfold ForceReader.sample_train, bind, get. simpl.
    destruct (decide _) as [?|_]; [done|].
    unfold modify, lift, ret.
    unfold q1, queue_refill in *. fold bs.
    destruct (decide (Z.of_nat (length (ForceReader.idx_queue self)) < bs)); simpl;
      fold bs; rewrite Hto, Hfrom, Eec, Eeig, Efc, Egvx; done. }
  split.
  { split; simpl; try done. by apply Forall_drop. }
  split; [done|]. split; [done|]. split; [done|].
  split; simpl; try done.
  repeat constructor; done.
Qed.

Lemma Force_sample_train_inv self perm self' b :
  Force_inv self →
  is_permutation_of_range (ForceReader.nframes self) perm →
  ForceReader.sample_train perm self = Return self' b →
  Force_inv self'.
Proof.
  intros Hinv Hperm Hs.
  destruct (decide (ForceReader.batch_size self = ForceReader.nframes self
                    ∧ ForceReader.nframes self = 1)) as [Hd|Hnd].
  - unfold ForceReader.sample_train, bind, get in Hs. simpl in Hs.
    destruct (decide _); [|done]. by injection Hs as <- _.
  - destruct (Force_sample_train_step self perm Hinv Hnd Hperm)
      as (s & b' & Hs' & Hinv' & _). congruence.
Qed.

Lemma Force_reachable_inv r0 self :
  Force_inv r0 → ForceReader.reachable r0 self → Force_inv self.
Proof.
  intros H0. induction 1 as [|self perm self' b _ IH Hperm Hs]; [done|].
  by eapply Force_sample_train_inv.
Qed.

(** The same for [OrbitalReader]. *)
Record Orbital_inv (self : OrbitalReader.t F) : Prop := {
  oinv_ec : OrbitalReader.nframes self
            = Z.of_nat (length (t_frames (OrbitalReader.t_ec self)));
  oinv_eig : OrbitalReader.nframes self
             = Z.of_nat (length (t_frames (OrbitalReader.t_eig self)));
  oinv_fc : OrbitalReader.nframes self
            = Z.of_nat (length (t_frames (OrbitalReader.t_fc self)));
  oinv_gvx : OrbitalReader.nframes self
             = Z.of_nat (length (t_frames (OrbitalReader.t_gvx self)));
  oinv_oc : OrbitalReader.nframes self
            = Z.of_nat (length (t_frames (OrbitalReader.t_oc self)));
  oinv_op : OrbitalReader.nframes self
            = Z.of_nat (length (t_frames (OrbitalReader.t_op self)));
  oinv_bs : OrbitalReader.batch_size self ≤ OrbitalReader.nframes self;
  oinv_queue :
    Forall (λ i, 0 ≤ i < OrbitalReader.nframes self) (OrbitalReader.idx_queue self);
  oinv_neg : OrbitalReader.batch_size self < 0 → OrbitalReader.idx_queue self = []
}.

Definition Orbital_stored (self : OrbitalReader.t F) : list (tensor F) :=
  [OrbitalReader.t_ec self; OrbitalReader.t_eig self; OrbitalReader.t_fc self;
   OrbitalReader.t_gvx self; OrbitalReader.t_oc self; OrbitalReader.t_op self].

Lemma Orbital_init_Ok path bs e d f gv o op cf cn r log :
  OrbitalReader.__init__ path bs e d f gv o op cf cn = Ok (r, log) →
  ∃ conv,
    OrbitalReader.nframes r = count_true conv ∧
    (cf = false → ∀ a, np_load path (e +:+ ".npy") = Ok a →
       count_true conv = Z.of_nat (length (npy_data a))) ∧
    (if cf then np_load_mask path (cn +:+ ".npy") = Ok conv
     else ∃ raw_nframes, conv = replicate raw_nframes true) ∧
    OrbitalReader.batch_size r
      = (if decide (count_true conv < bs) then count_true conv else bs) ∧
    (count_true conv < bs → ResetBatchSize path (count_true conv) ∈ log) ∧
    OrbitalReader.idx_queue r = [] ∧
    Forall (λ t, OrbitalReader.nframes r = Z.of_nat (length (t_frames t)))
           (OrbitalReader.data_dm r :: Orbital_stored r).
Proof.
  unfold OrbitalReader.__init__. intros H. inv_rbind H.
  match goal with H : _ = Ok ?c |- _ =>
    match type of H with context [np_load_mask] =>
      apply conv_mask_Ok in H as (Hc1 & Hc2 & Hc3); exists c end end.
  inv_tensor_mask.
  injection H as <- <-. simpl. split_and!; try done.
  - intros Hcf a' Ha'. rewrite Hc2 by done. congruence.
  - destruct cf; [done|eauto].
  - by destruct (decide _).
  - intros Hlt. destruct (decide _); [|done]. simpl. set_solver.
  - repeat constructor; simpl; done.
Qed.

Lemma Orbital_init_inv path bs e d f gv o op cf cn r log :
  OrbitalReader.__init__ path bs e d f gv o op cf cn = Ok (r, log) → Orbital_inv r.
Proof.
  intros H.
  destruct (Orbital_init_Ok _ _ _ _ _ _ _ _ _ _ _ _ H)
    as (conv & Hn & _ & _ & Hb & _ & Hq & Hl).
  pose proof (count_true_nonneg conv).
  unfold Orbital_stored in Hl. rewrite !Forall_cons in Hl.
  destruct Hl as (_ & ? & ? & ? & ? & ? & ? & _).
  split; try done.
  - rewrite Hb, Hn. destruct (decide _); lia.
  - rewrite Hq. constructor.
Qed.

Lemma Orbital_sample_train_step self perm :
  Orbital_inv self →
  ¬ (OrbitalReader.batch_size self = OrbitalReader.nframes self
     ∧ OrbitalReader.nframes self = 1) →
  is_permutation_of_range (OrbitalReader.nframes self) perm →
  ∃ self' batch,
    OrbitalReader.sample_train perm self = Return self' batch ∧
    Orbital_inv self' ∧
    OrbitalReader.batch_size self' = OrbitalReader.batch_size self ∧
    OrbitalReader.nframes self' = OrbitalReader.nframes self ∧
    self' = OrbitalReader.set_idx_queue (OrbitalReader.idx_queue self') self ∧
    queue_step (OrbitalReader.batch_size self) (OrbitalReader.idx_queue self) perm
      (OrbitalReader.idx_queue self') (Orbital_stored self) (Orbital_stored self') batch.
Proof.
  intros [Hec Heig Hfc Hgvx Hoc Hop Hbs Hq Hneg] Hnd Hperm.
  destruct (queue_refilled_facts _ _ _ _ Hbs Hq Hneg Hperm)
    as (Hto & Hfrom & Hrange & Hexact & Hempty).
  set (bs := OrbitalReader.batch_size self) in *.
  set (q1 := queue_refill bs (OrbitalReader.idx_queue self) perm) in *.
  assert (Forall (λ i, 0 ≤ i < OrbitalReader.nframes self) (take (Z.to_nat bs) q1))
    as Hidx.
  { by apply Forall_take. }
  destruct (tensor_take_fetched (OrbitalReader.t_ec self) (take (Z.to_nat bs) q1))
    as (ec & Eec & Hfec & Hsec); [by rewrite <- Hec|].
  destruct (tensor_take_fetched (OrbitalReader.t_eig self) (take (Z.to_nat bs) q1))
    as (eig & Eeig & Hfeig & Hseig); [by rewrite <- Heig|].
  destruct (tensor_take_fetched (OrbitalReader.t_fc self) (take (Z.to_nat bs) q1))
    as (fc & Efc & Hffc & Hsfc); [by rewrite <- Hfc|].
  destruct (tensor_take_fetched (OrbitalReader.t_gvx self) (take (Z.to_nat bs) q1))
    as (gvx & Egvx & Hfgvx & Hsgvx); [by rewrite <- Hgvx|].
  destruct (tensor_take_fetched (OrbitalReader.t_oc self) (take (Z.to_nat bs) q1))
    as (oc & Eoc & Hfoc & Hsoc); [by rewrite <- Hoc|].
  destruct (tensor_take_fetched (OrbitalReader.t_op self) (take (Z.to_nat bs) q1))
    as (op & Eop & Hfop & Hsop); [by rewrite <- Hop|].
  exists (OrbitalReader.set_idx_queue (drop (Z.to_nat bs) q1) self),
         [ec; eig; fc; gvx; oc; op].
  split.
  { unfold OrbitalReader.sample_train, bind, get. simpl.
    destruct (decide _) as [?|_]; [done|].
    unfold modify, lift, ret.
    unfold q1, queue_refill in *. fold bs.
    destruct (decide (Z.of_nat (length (OrbitalReader.idx_queue self)) < bs)); simpl;
      fold bs; rewrite Hto, Hfrom, Eec, Eeig, Efc, Egvx, Eoc, Eop; done. }
  split.
  { split; simpl; try done. by apply Forall_drop. }
  split; [done|]. split; [done|]. split; [done|].
  split; simpl; try done.
  repeat constructor; done.
Qed.

Lemma Orbital_sample_train_inv self perm self' b :
  Orbital_inv self →
  is_permutation_of_range (OrbitalReader.nframes self) perm →
  OrbitalReader.sample_train perm self = Return self' b →
  Orbital_inv self'.
Proof.
  intros Hinv Hperm Hs.
  destruct (decide (OrbitalReader.batch_size self = OrbitalReader.nframes self
                    ∧ OrbitalReader.nframes self = 1)) as [Hd|Hnd].
  - unfold OrbitalReader.sample_train, bind, get in Hs. simpl in Hs.
    destruct (decide _); [|done]. by injection Hs as <- _.
  - destruct (Orbital_sample_train_step self perm Hinv Hnd Hperm)
      as (s & b' & Hs' & Hinv' & _). congruence.
Qed.

Lemma Orbital_reachable_inv r0 self :
  Orbital_inv r0 → OrbitalReader.reachable r0 self → Orbital_inv self.
Proof.
  intros H0. induction 1 as [|self perm self' b _ IH Hperm Hs]; [done|].
  by eapply Orbital_sample_train_inv.
Qed.
End QueueFacts.

(** ** [GroupReader]: construction *)

Section GroupInitFacts.
Context {F : Type}.
Local Abbreviation reader := (GroupReader.reader F).
Local Abbreviation built := (reader * list (diagnostic F))%type.
Implicit Types (ctor : system_dir F → result built) (bs : list built).

(** The readers the loop keeps, and what the loop prints. *)
Definition included bs : list reader :=
  filter (λ r, GroupReader.r_nframes r ≠ 0) (fst <$> bs).
Definition loop_stderr (paths : list (system_dir F)) bs : list (diagnostic F) :=
  concat (zip_with (λ p (b : built),
                      b.2 ++ if decide (GroupReader.r_nframes b.1 = 0)
                             then [IgnoreEmpty p] else [])
                   paths bs).

Lemma foldl_init_step_Err ctor e paths :
  foldl (GroupReader.init_step ctor) (Err e) paths = Err e.
Proof. induction paths as [|p paths IH]; simpl; [done|]. apply IH. Qed.

Lemma rmapM_length {A B} (f : A → result B) l l' :
  rmapM f l = Ok l' → length l' = length l.
Proof.
  revert l'. induction l as [|x l IH]; intros l' H; simpl in H.
  - by injection H as <-.
  - inv_rbind H. injection H as <-. simpl. f_equal. by apply IH.
Qed.

Lemma rmapM_Forall2 {A B} (f : A → result B) l l' :
  rmapM f l = Ok l' ↔ Forall2 (λ x y, f x = Ok y) l l'.
Proof.
  revert l'. induction l as [|x l IH]; intros l'; simpl.
  - split; [intros [= <-]; constructor|by inversion 1].
  - split.
    + intros H. inv_rbind H. injection H as <-. constructor; [done|by apply IH].
    + inversion 1 as [|? y ? l'' Hx Hl]; subst. rewrite Hx. simpl.
      apply IH in Hl. rewrite Hl. done.
Qed.

Lemma foldl_init_step ctor paths st0 :
  foldl (GroupReader.init_step ctor) (Ok st0) paths =
    (bs <~ rmapM ctor paths ;;
     Ok (GroupReader.InitState
           (GroupReader.st_readers st0 ++ included bs)
           (GroupReader.st_nframes st0 ++ (GroupReader.r_nframes <$> included bs))
           (GroupReader.st_stderr st0 ++ loop_stderr paths bs))).
Proof.
  revert st0. induction paths as [|p paths IH]; intros st0; simpl.
  - unfold included, loop_stderr. simpl. rewrite !app_nil_r. by destruct st0.
  - unfold GroupReader.init_step at 1. simpl.
    destruct (ctor p) as [b|e]; simpl; [|apply foldl_init_step_Err].
    destruct (decide (GroupReader.r_nframes b.1 = 0)) as [Hz|Hnz]; rewrite IH; simpl;
      destruct (rmapM ctor paths) as [bs|e]; simpl; try done.
    + unfold included, loop_stderr. simpl.
      rewrite filter_cons_False by (intros ?; done).
      rewrite decide_True by done. by rewrite <- !app_assoc.
    + unfold included, loop_stderr. simpl.
      rewrite filter_cons_True by done.
      rewrite decide_False by done. simpl.
      rewrite app_nil_r. by rewrite <- !app_assoc.
Qed.

Lemma included_nil bs :
  Forall (λ b : built, GroupReader.r_nframes b.1 = 0) bs → included bs = [].
Proof.
  unfold included. induction 1 as [|b bs Hb _ IH]; simpl; [done|].
  rewrite filter_cons_False by (intros ?; done). done.
Qed.

Lemma included_nonzero bs :
  Forall (λ r, GroupReader.r_nframes r ≠ 0) (included bs).
Proof. unfold included. apply Forall_forall. intros r Hr. by apply list_elem_of_filter in Hr as [? _]. Qed.

Lemma loop_stderr_ignored paths bs p (b : built) k :
  paths !! k = Some p → bs !! k = Some b →
  GroupReader.r_nframes b.1 = 0 → IgnoreEmpty p ∈ loop_stderr paths bs.
Proof.
  intros Hp Hb Hz. unfold loop_stderr. apply list_elem_of_In, in_concat.
  eexists. split.
  - apply list_elem_of_In, list_elem_of_lookup. exists k. apply lookup_zip_with_Some.
    eexists _, _. split_and!; [reflexivity|done|done].
  - apply list_elem_of_In. simpl. rewrite decide_True by done. set_solver.
Qed.
End GroupInitFacts.

(** ** The shape of the stored label and descriptor *)

Section DataFacts.
Context {F : Type}.

(** The label has one value per frame, the descriptor [natm * ndesc]. *)
Definition data_wf (natm ndesc : nat) (ec dm : tensor F) : Prop :=
  t_fshape ec = [1%nat] ∧ Forall (λ fr, length fr = 1%nat) (t_frames ec) ∧
  t_fshape dm = [natm; ndesc] ∧
  Forall (λ fr, length fr = (natm * ndesc)%nat) (t_frames dm).

Lemma reshape_replicate_lengths {A} n k (l : list A) :
  length l = (n * k)%nat → Forall (λ c, length c = k) (reshape (replicate n k) l).
Proof.
  revert l. induction n as [|n IH]; intros l Hl; simpl; [constructor|].
  constructor.
  - rewrite length_take. lia.
  - apply IH. rewrite length_drop. lia.
Qed.

Lemma Forall_mask_select {A} (P : A → Prop) a conv :
  Forall P a → Forall P (mask_select a conv).
Proof.
  intros H. revert conv. induction H as [|x a Hx _ IH]; intros [|c conv]; simpl;
    try constructor. destruct c; [by constructor|done].
Qed.

Lemma tensor_mask_frames (t t' : tensor F) conv (P : list F → Prop) :
  tensor_mask t conv = Ok t' → Forall P (t_frames t) →
  Forall P (t_frames t') ∧ t_fshape t' = t_fshape t.
Proof.
  intros H HP. apply tensor_mask_Ok in H as (_ & -> & -> & _).
  split; [by apply Forall_mask_select|done].
Qed.

Lemma reshape_frames_frames (a : npy F) n fshape t :
  reshape_frames a n fshape = Ok t →
  Forall (λ fr, length fr = prod_list fshape) (t_frames t) ∧
  length (t_frames t) = n ∧ t_fshape t = fshape.
Proof.
  unfold reshape_frames. destruct (decide _) as [Hl|]; [|done]. intros [= <-]. simpl.
  split; [by apply reshape_replicate_lengths|].
  by rewrite length_reshape, length_replicate.
Qed.

Lemma label_frames (l : list F) : Forall (λ fr, length fr = 1%nat) ((λ x, [x]) <$> l).
Proof. apply Forall_fmap, Forall_forall. done. Qed.

Lemma length_zip_rows (rowss : list (list (list F))) natm w :
  Forall (λ rows, length rows = natm ∧ Forall (λ row, length row = w) rows) rowss →
  length (zip_rows rowss natm) = (natm * (length rowss * w))%nat.
Proof.
  revert rowss. induction natm as [|natm IH]; intros rowss H; simpl; [done|].
  assert (Forall (λ rows, length rows = natm ∧ Forall (λ row, length row = w) rows)
                 (map (λ rows, tail rows) rowss)) as Htl.
  { apply Forall_fmap. eapply Forall_impl; [done|]. simpl.
    intros rows [Hl Hw]. destruct rows as [|row rows]; [done|]. simpl in *.
    split; [lia|by inversion Hw]. }
  rewrite length_app, (IH _ Htl), length_map.
  assert (length (concat (map (λ rows, default [] (head rows)) rowss))
          = (length rowss * w)%nat) as ->; [|lia].
  clear Htl. induction H as [|rows rowss [Hl Hw] _ IHr]; simpl; [done|].
  rewrite length_app, IHr. destruct rows as [|row rows]; [done|].
  simpl. inversion Hw; subst. lia.
Qed.

Lemma zip_frames_lengths (srcs : list (list (list F))) natm w n :
  Forall (λ frs, length frs = n ∧ Forall (λ fr, length fr = (natm * w)%nat) frs) srcs →
  Forall (λ fr, length fr = (natm * (length srcs * w))%nat) (zip_frames srcs natm w n).
Proof.
  revert srcs. induction n as [|n IH]; intros srcs H; simpl; [constructor|].
  constructor.
  - rewrite (length_zip_rows _ natm w); [by rewrite length_map|].
    apply Forall_fmap. eapply Forall_impl; [done|]. simpl.
    intros frs [Hl Hw]. destruct frs as [|fr frs]; [done|]. simpl.
    inversion Hw; subst. unfold rows_of.
    split; [by rewrite length_reshape, length_replicate|].
    apply reshape_replicate_lengths. lia.
  - rewrite <- (length_map (λ fr, tail fr) srcs). apply IH.
    apply Forall_fmap. eapply Forall_impl; [done|]. simpl.
    intros frs [Hl Hw]. destruct frs as [|fr frs]; [done|]. simpl in *.
    split; [lia|by inversion Hw].
Qed.

Lemma Reader_init_data_wf path bs e d cf cn r log :
  Reader.__init__ path bs e d cf cn = Ok (r, log) →
  data_wf (Reader.natm r) (Reader.ndesc r) (Reader.data_ec r) (Reader.data_dm r).
Proof.
  unfold Reader.__init__. intros H. inv_rbind H.
  (* the sources *)
  match goal with E : rmapM _ d = Ok ?srcs |- _ =>
    assert (Forall (λ t : tensor F,
                      length (t_frames t) = length (npy_data a0) ∧
                      Forall (λ fr, length fr = (a.1.1 * a.1.2)%nat) (t_frames t)) srcs)
      as Hsrcs;
    [apply rmapM_Forall2 in E; apply Forall_forall; intros t Ht;
     apply list_elem_of_lookup in Ht as [k Hk];
     destruct (Forall2_lookup_r _ _ _ _ _ E Hk) as (dn & _ & Hdn);
     inv_rbind Hdn; apply reshape_frames_frames in Hdn as (Hf & Hl & _);
     split; [done|]; eapply Forall_impl; [exact Hf|]; simpl; intros; lia|]
  end.
  assert (t_fshape a2 = [a.1.1; (a.1.2 * length a1)%nat] ∧
          Forall (λ fr, length fr = (a.1.1 * (a.1.2 * length a1))%nat) (t_frames a2))
    as [Hsh Hfr].
  { unfold concat_last in E2. destruct a1 as [|s0 srcs'] eqn:Ha1; [done|].
    rewrite <- Ha1 in *. injection E2 as <-. split; [done|]. simpl t_frames.
    eapply Forall_impl.
    - apply (zip_frames_lengths _ a.1.1 a.1.2). apply Forall_fmap. exact Hsrcs.
    - simpl. intros fr ->. rewrite length_map. lia. }
  destruct (tensor_mask_frames _ _ _ _ E5 Hfr) as [Hfr5 Hsh5].
  destruct (tensor_mask_frames _ _ _ _ E4 (label_frames _)) as [Hfr4 Hsh4].
  injection H as <- <-. unfold data_wf. simpl. rewrite Hsh5, Hsh. simpl.
  split_and!; done.
Qed.

Lemma Force_init_data_wf path bs e d f gv cf cn r log :
  ForceReader.__init__ path bs e d f gv cf cn = Ok (r, log) →
  data_wf (ForceReader.natm r) (ForceReader.ndesc r)
          (ForceReader.data_ec r) (ForceReader.data_dm r).
Proof.
  unfold ForceReader.__init__. intros H. inv_rbind H.
  apply reshape_frames_frames in E2 as (Hfr & _ & Hsh).
  destruct (tensor_mask_frames _ _ _ _ E5 Hfr) as [Hfr5 Hsh5].
  destruct (tensor_mask_frames _ _ _ _ E4 (label_frames _)) as [Hfr4 Hsh4].
  injection H as <- <-. unfold data_wf. simpl. rewrite Hsh5, Hsh.
  split_and!; try done.
  eapply Forall_impl; [exact Hfr5|]. simpl. intros; lia.
Qed.

Lemma Orbital_init_data_wf path bs e d f gv o op cf cn r log :
  OrbitalReader.__init__ path bs e d f gv o op cf cn = Ok (r, log) →
  data_wf (OrbitalReader.natm r) (OrbitalReader.ndesc r)
          (OrbitalReader.data_ec r) (OrbitalReader.data_dm r).
Proof.
  unfold OrbitalReader.__init__. intros H. inv_rbind H.
  apply reshape_frames_frames in E2 as (Hfr & _ & Hsh).
  destruct (tensor_mask_frames _ _ _ _ E5 Hfr) as [Hfr5 Hsh5].
  destruct (tensor_mask_frames _ _ _ _ E4 (label_frames _)) as [Hfr4 Hsh4].
  injection H as <- <-. unfold data_wf. simpl. rewrite Hsh5, Hsh.
  split_and!; try done.
  eapply Forall_impl; [exact Hfr5|]. simpl. intros; lia.
Qed.

(** Reordering the frames keeps their shape. *)
Lemma data_wf_Permutation natm ndesc (ec dm ec' dm' : tensor F) :
  data_wf natm ndesc ec dm →
  t_fshape ec' = t_fshape ec → t_fshape dm' = t_fshape dm →
  t_frames ec' ≡ₚ t_frames ec → t_frames dm' ≡ₚ t_frames dm →
  data_wf natm ndesc ec' dm'.
Proof.
  intros (H1 & H2 & H3 & H4) Hs1 Hs2 Hp1 Hp2. unfold data_wf.
  rewrite Hs1, Hs2, Hp1, Hp2. done.
Qed.

Lemma Reader_sample_train_data_wf (self self' : Reader.t F) perm ec dm :
  block_cursor_step self perm self' ec dm →
  data_wf (Reader.natm self) (Reader.ndesc self) (Reader.data_ec self)
          (Reader.data_dm self) →
  data_wf (Reader.natm self') (Reader.ndesc self') (Reader.data_ec self')
          (Reader.data_dm self').
Proof.
  intros [] Hwf. rewrite bcs_natm0, bcs_ndesc0. simpl in bcs_cursor0.
  destruct (decide (_ > _)).
  - destruct bcs_cursor0 as (_ & _ & _ & Hp1 & Hp2).
    by eapply data_wf_Permutation.
  - destruct bcs_cursor0 as (_ & -> & ->). done.
Qed.
End DataFacts.

(** ** The readers of a [GroupReader], whatever their class *)

Section ReaderClassFacts.
Context {F : Type}.
Local Abbreviation reader := (GroupReader.reader F).
Implicit Types (r : reader).

Definition r_class_inv r : Prop :=
  match r with
  | GroupReader.RPlain r => Reader_inv r
  | GroupReader.RForce r => Force_inv r
  | GroupReader.ROrbital r => Orbital_inv r
  end.
Definition r_data_wf r : Prop :=
  data_wf (GroupReader.r_natm r) (GroupReader.r_ndesc r)
          (GroupReader.r_data_ec r) (GroupReader.r_data_dm r).
Definition r_inv r : Prop := r_class_inv r ∧ r_data_wf r.

(** The tensors a batch is taken from, in the order of the batch. *)
Definition r_stored r : list (tensor F) :=
  match r with
  | GroupReader.RPlain r => [Reader.data_ec r; Reader.data_dm r]
  | GroupReader.RForce r => Force_stored r
  | GroupReader.ROrbital r => Orbital_stored r
  end.
Definition r_shapes r : list (list nat) := t_fshape <$> r_stored r.

(** What [sample_train] never changes. *)
Record static := Static {
  s_nframes : Z;
  s_batch_size : Z;
  s_natm : nat;
  s_ndesc : nat;
  s_shapes : list (list nat)
}.
Definition r_static r : static :=
  Static (GroupReader.r_nframes r) (GroupReader.r_batch_size r)
         (GroupReader.r_natm r) (GroupReader.r_ndesc r) (r_shapes r).

(** [r.get_nframes()] and [r.get_batch_size()]. *)
Definition r_get_nframes r : Z :=
  match r with
  | GroupReader.RPlain r => Reader.get_nframes r
  | GroupReader.RForce r => ForceReader.get_nframes r
  | GroupReader.ROrbital r => OrbitalReader.get_nframes r
  end.
Definition r_get_batch_size r : Z :=
  match r with
  | GroupReader.RPlain r => Reader.get_batch_size r
  | GroupReader.RForce r => ForceReader.get_batch_size r
  | GroupReader.ROrbital r => OrbitalReader.get_batch_size r
  end.

Lemma Reader_class_Ok wf wo path bs kw r log :
  GroupReader.Reader_class wf wo path bs kw = Ok (r, log) →
  ∃ conv,
    (if GroupReader.kw_conv_filter kw
     then np_load_mask path (GroupReader.kw_conv_name kw +:+ ".npy") = Ok conv
     else ∃ raw_nframes, conv = replicate raw_nframes true) ∧
    (GroupReader.kw_conv_filter kw = false →
     ∀ a, np_load path (GroupReader.kw_e_name kw +:+ ".npy") = Ok a →
       count_true conv = Z.of_nat (length (npy_data a))) ∧
    GroupReader.r_nframes r = count_true conv ∧
    GroupReader.r_batch_size r
      = (if decide (count_true conv < bs) then count_true conv else bs) ∧
    (count_true conv < bs → ResetBatchSize path (count_true conv) ∈ log) ∧
    r_inv r.
Proof.
  unfold GroupReader.Reader_class. intros H.
  destruct wo; [|destruct wf]; inv_rbind H; injection H as <- <-;
    match goal with p : (_ * _)%type |- _ => destruct p as [x l] end; simpl.
  - destruct (Orbital_init_Ok _ _ _ _ _ _ _ _ _ _ _ _ E)
      as (c & Hn & Hraw & Hc & Hb & Hl & _).
    exists c. split_and!; try done.
    split; [by eapply Orbital_init_inv|by eapply Orbital_init_data_wf].
  - destruct (Force_init_Ok _ _ _ _ _ _ _ _ _ _ E) as (c & Hn & Hraw & Hc & Hb & Hl & _).
    exists c. split_and!; try done.
    split; [by eapply Force_init_inv|by eapply Force_init_data_wf].
  - destruct (Reader_init_Ok _ _ _ _ _ _ _ _ E) as (c & Hn & Hraw & Hc & Hb & Hl & _).
    exists c. split_and!; try done.
    split; [by eapply Reader_init_inv|by eapply Reader_init_data_wf].
Qed.

Lemma Reader_class_inv wf wo path bs kw r log :
  GroupReader.Reader_class wf wo path bs kw = Ok (r, log) →
  r_inv r ∧
  GroupReader.r_batch_size r
    = (if decide (GroupReader.r_nframes r < bs) then GroupReader.r_nframes r else bs) ∧
  (GroupReader.r_nframes r < bs → ResetBatchSize path (GroupReader.r_nframes r) ∈ log) ∧
  0 ≤ GroupReader.r_nframes r.
Proof.
  intros H. destruct (Reader_class_Ok _ _ _ _ _ _ _ H) as (c & _ & _ & -> & Hb & Hl & Hi).
  pose proof (count_true_nonneg c). done.
Qed.

Lemma fetched_shape0 (t b : tensor F) ind :
  fetched (t_frames t) ind (t_frames b) → shape0 b = Z.of_nat (length ind).
Proof. intros H. unfold shape0. by rewrite (fetched_length _ _ _ H). Qed.

(** A call of [sample_train] on a constructed reader returns, leaves what
    is static as it was, and gives [batch_size] frames of each tensor. *)
Lemma r_sample_train_Return r perm :
  r_inv r →
  is_permutation_of_range (GroupReader.r_nframes r) perm →
  ∃ r' batch,
    GroupReader.r_sample_train perm r = Return r' batch ∧
    r_inv r' ∧ r_static r' = r_static r ∧
    Forall2 (λ b sh, t_fshape b = sh ∧
                     (0 ≤ GroupReader.r_batch_size r →
                      shape0 b = GroupReader.r_batch_size r))
            batch (r_shapes r).
Proof.
  intros [Hinv Hwf] Hperm. destruct r as [r|r|r]; unfold r_inv, r_data_wf in *;
    simpl in *.
  - destruct (decide (Reader.nframes r = Reader.batch_size r
                      ∧ Reader.batch_size r = 1)) as [Hd|Hnd].
    + exists (GroupReader.RPlain r), [Reader.data_ec r; Reader.data_dm r].
      unfold Reader.sample_train, bind, get. simpl. rewrite decide_True by done.
      split; [done|]. split; [done|]. split; [done|].
      destruct Hinv as [Hec Hdm _ _]. unfold r_shapes, shape0. simpl.
      repeat constructor; lia.
    + destruct (Reader_sample_train_step r perm Hinv Hnd Hperm)
        as (r' & ec & dm & -> & Hinv' & Hstep).
      exists (GroupReader.RPlain r'), [ec; dm]. simpl.
      pose proof (Reader_sample_train_data_wf _ _ _ _ _ Hstep Hwf) as Hwf'.
      destruct Hstep. split; [done|]. split; [done|]. split.
      * unfold r_static, r_shapes. simpl. congruence.
      * unfold r_shapes. simpl.
        repeat constructor; try done; intros Hb0; by destruct (bcs_size0 Hb0).
  - destruct (decide (ForceReader.batch_size r = ForceReader.nframes r
                      ∧ ForceReader.nframes r = 1)) as [Hd|Hnd].
    + exists (GroupReader.RForce r), (Force_stored r).
      unfold ForceReader.sample_train, bind, get. simpl. rewrite decide_True by done.
      split; [done|]. split; [done|]. split; [done|].
      destruct Hinv. unfold r_shapes, shape0, Force_stored. simpl.
      repeat constructor; lia.
    + destruct (Force_sample_train_step r perm Hinv Hnd Hperm)
        as (r' & batch & -> & Hinv' & Hbs & Hnf & Hr' & Hstep).
      exists (GroupReader.RForce r'), batch. simpl.
      split; [done|]. split; [split; [done|by rewrite Hr']|]. split.
      * rewrite Hr'. done.
      * destruct Hstep as [Hex _ _ Hbatch]. unfold r_shapes. cbn [r_stored].
        rewrite Forall2_fmap_r. apply Forall2_flip.
        eapply Forall2_impl; [done|].
        simpl. intros t b [Hf Hs]. split; [done|]. intros Hb0.
        rewrite (fetched_shape0 _ _ _ Hf). by apply Hex.
  - destruct (decide (OrbitalReader.batch_size r = OrbitalReader.nframes r
                      ∧ OrbitalReader.nframes r = 1)) as [Hd|Hnd].
    + exists (GroupReader.ROrbital r), (Orbital_stored r).
      unfold OrbitalReader.sample_train, bind, get. simpl. rewrite decide_True by done.
      split; [done|]. split; [done|]. split; [done|].
      destruct Hinv. unfold r_shapes, shape0, Orbital_stored. simpl.
      repeat constructor; lia.
    + destruct (Orbital_sample_train_step r perm Hinv Hnd Hperm)
        as (r' & batch & -> & Hinv' & Hbs & Hnf & Hr' & Hstep).
      exists (GroupReader.ROrbital r'), batch. simpl.
      split; [done|]. split; [split; [done|by rewrite Hr']|]. split.
      * rewrite Hr'. done.
      * destruct Hstep as [Hex _ _ Hbatch]. unfold r_shapes. cbn [r_stored].
        rewrite Forall2_fmap_r. apply Forall2_flip.
        eapply Forall2_impl; [done|].
        simpl. intros t b [Hf Hs]. split; [done|]. intros Hb0.
        rewrite (fetched_shape0 _ _ _ Hf). by apply Hex.
Qed.

(** The frame shapes of the label and of the descriptor. *)
Definition r_shape_inv r : Prop :=
  t_fshape (GroupReader.r_data_ec r) = [1%nat] ∧
  t_fshape (GroupReader.r_data_dm r) = [GroupReader.r_natm r; GroupReader.r_ndesc r] ∧
  r_stored r !! 0%nat = Some (GroupReader.r_data_ec r) ∧
  r_stored r !! 1%nat = Some (GroupReader.r_data_dm r) ∧
  GroupReader.r_nframes r = Z.of_nat (length (t_frames (GroupReader.r_data_ec r))) ∧
  GroupReader.r_nframes r = Z.of_nat (length (t_frames (GroupReader.r_data_dm r))).

Ltac inv_shapes :=
  repeat match goal with
    | H : tensor_mask _ _ = Ok _ |- _ =>
        let Hs := fresh "Hs" in let Hn := fresh "Hn" in
        apply tensor_mask_Ok in H as (_ & _ & Hs & Hn)
    | H : reshape_frames _ _ _ = Ok _ |- _ =>
        let Hs := fresh "Hs" in apply reshape_frames_Ok in H as (_ & Hs)
    | H : concat_last _ _ _ _ = Ok _ |- _ =>
        let Hs := fresh "Hs" in apply concat_last_Ok in H as (_ & Hs)
    end.

Lemma Reader_class_shape_inv wf wo path bs kw r log :
  GroupReader.Reader_class wf wo path bs kw = Ok (r, log) → r_shape_inv r.
Proof.
  unfold GroupReader.Reader_class. intros H.
  destruct wo; [|destruct wf]; inv_rbind H; injection H as <- <-;
    match goal with p : (_ * _)%type |- _ => destruct p as [x l] end; simpl.
  - unfold OrbitalReader.__init__ in E. inv_rbind E. inv_shapes.
    injection E as <- <-. unfold r_shape_inv. simpl.
    split_and!; try done; congruence.
  - unfold ForceReader.__init__ in E. inv_rbind E. inv_shapes.
    injection E as <- <-. unfold r_shape_inv. simpl.
    split_and!; try done; congruence.
  - unfold Reader.__init__ in E. inv_rbind E. inv_shapes.
    injection E as <- <-. unfold r_shape_inv. simpl.
    split_and!; try done.
    match goal with H : t_fshape _ = t_fshape _ |- _ => rewrite H end.
    match goal with H : t_fshape _ = [_; _] |- _ => rewrite H end. done.
Qed.
End ReaderClassFacts.

(** ** [GroupReader]: the groups *)

Section GroupDictFacts.
Context {F : Type}.
Local Abbreviation reader := (GroupReader.reader F).
Implicit Types (rs : list reader) (gd : gmap nat (list nat)).

(** Every member of a group is a position of a reader with the atom count
    of the group. *)
Definition groups_by_natm rs gd : Prop :=
  ∀ n idxs, gd !! n = Some idxs →
    idxs ≠ [] ∧
    Forall (λ i, ∃ r, rs !! i = Some r ∧ GroupReader.r_natm r = n) idxs.

Lemma group_step_by_natm rs gd i r :
  rs !! i = Some r → groups_by_natm rs gd →
  groups_by_natm rs (GroupReader.group_step gd (i, r)).
Proof.
  intros Hi Hgd n idxs. unfold GroupReader.group_step. simpl.
  destruct (gd !! GroupReader.r_natm r) as [l|] eqn:Hl.
  - destruct (decide (GroupReader.r_natm r = n)) as [<-|Hne].
    + rewrite lookup_insert_eq. intros [= <-]. split; [by destruct l|].
      apply Forall_app. split; [by apply (Hgd _ _ Hl)|].
      constructor; [eauto|constructor].
    + rewrite lookup_insert_ne by done. apply Hgd.
  - destruct (decide (GroupReader.r_natm r = n)) as [<-|Hne].
    + rewrite lookup_insert_eq. intros [= <-]. split; [done|].
      constructor; [eauto|constructor].
    + rewrite lookup_insert_ne by done. apply Hgd.
Qed.

Lemma foldl_group_step_by_natm rs l k gd :
  (∀ j r, l !! j = Some r → rs !! (k + j)%nat = Some r) →
  groups_by_natm rs gd →
  groups_by_natm rs (foldl GroupReader.group_step gd (zip (seq k (length l)) l)).
Proof.
  revert k gd. induction l as [|r l IH]; intros k gd Hl Hgd; simpl; [done|].
  apply IH.
  - intros j r' Hj. replace (S k + j)%nat with (k + S j)%nat by lia. by apply Hl.
  - apply group_step_by_natm; [|done]. rewrite <- (Nat.add_0_r k). by apply Hl.
Qed.

Lemma build_group_dict_by_natm rs :
  groups_by_natm rs (GroupReader.build_group_dict rs).
Proof.
  unfold GroupReader.build_group_dict. apply foldl_group_step_by_natm; [done|].
  intros n idxs. by rewrite lookup_empty.
Qed.

(** Every reader is in the group of its atom count. *)
Lemma group_step_mono gd (ir : nat * reader) n idxs :
  gd !! n = Some idxs →
  ∃ idxs', GroupReader.group_step gd ir !! n = Some idxs' ∧ idxs ⊆ idxs'.
Proof.
  intros Hn. unfold GroupReader.group_step.
  destruct (gd !! GroupReader.r_natm ir.2) as [l|] eqn:Hl.
  - destruct (decide (GroupReader.r_natm ir.2 = n)) as [<-|Hne].
    + rewrite lookup_insert_eq. eexists. split; [done|]. set_solver.
    + rewrite lookup_insert_ne by done. eauto.
  - destruct (decide (GroupReader.r_natm ir.2 = n)) as [<-|Hne]; [congruence|].
    rewrite lookup_insert_ne by done. eauto.
Qed.

Lemma foldl_group_step_mono (l : list (nat * reader)) gd n idxs :
  gd !! n = Some idxs →
  ∃ idxs', foldl GroupReader.group_step gd l !! n = Some idxs' ∧ idxs ⊆ idxs'.
Proof.
  revert gd idxs. induction l as [|ir l IH]; intros gd idxs Hn; simpl; [eauto|].
  destruct (group_step_mono gd ir n idxs Hn) as (i1 & H1 & Hs1).
  destruct (IH _ _ H1) as (i2 & H2 & Hs2). exists i2. split; [done|]. set_solver.
Qed.

Lemma group_step_self gd i (r : reader) :
  ∃ idxs, GroupReader.group_step gd (i, r) !! GroupReader.r_natm r = Some idxs ∧ i ∈ idxs.
Proof.
  unfold GroupReader.group_step. simpl.
  destruct (gd !! GroupReader.r_natm r) as [l|];
    rewrite lookup_insert_eq; eexists; (split; [done|set_solver]).
Qed.

Lemma foldl_group_step_covers (l : list reader) k gd j r :
  l !! j = Some r →
  ∃ idxs, foldl GroupReader.group_step gd (zip (seq k (length l)) l)
            !! GroupReader.r_natm r = Some idxs ∧ (k + j)%nat ∈ idxs.
Proof.
  revert k gd j. induction l as [|r0 l IH]; intros k gd j Hj; [done|].
  destruct j as [|j]; simpl in *.
  - injection Hj as ->. destruct (group_step_self gd k r) as (i1 & H1 & Hin).
    destruct (foldl_group_step_mono (zip (seq (S k) (length l)) l) _ _ _ H1)
      as (i2 & H2 & Hs). exists i2. split; [done|].
    rewrite Nat.add_0_r. set_solver.
  - destruct (IH (S k) (GroupReader.group_step gd (k, r0)) j Hj) as (idxs & H & Hin).
    exists idxs. split; [done|]. by replace (k + S j)%nat with (S k + j)%nat by lia.
Qed.

Lemma build_group_dict_covers rs i r :
  rs !! i = Some r →
  ∃ idxs, GroupReader.build_group_dict rs !! GroupReader.r_natm r = Some idxs ∧ i ∈ idxs.
Proof. intros Hi. by apply (foldl_group_step_covers rs 0 ∅ i r). Qed.

(** The members of all the groups. *)
Definition members gd : list nat := concat (snd <$> map_to_list gd).

Lemma members_insert_fresh gd n idxs :
  gd !! n = None → members (<[n := idxs]> gd) ≡ₚ idxs ++ members gd.
Proof.
  intros Hn. unfold members. by rewrite (map_to_list_insert gd n idxs Hn).
Qed.

Lemma members_insert_app gd n l i :
  gd !! n = Some l → members (<[n := l ++ [i]]> gd) ≡ₚ i :: members gd.
Proof.
  intros Hn. rewrite <- insert_delete_eq.
  rewrite members_insert_fresh by apply lookup_delete_eq.
  unfold members at 2. rewrite <- (map_to_list_delete gd n l Hn). simpl.
  fold (members (delete n gd)). rewrite <- app_assoc.
  rewrite (Permutation_app_comm [i]). rewrite app_assoc.
  by rewrite <- Permutation_cons_append.
Qed.

Lemma group_step_members gd i (r : reader) :
  members (GroupReader.group_step gd (i, r)) ≡ₚ i :: members gd.
Proof.
  unfold GroupReader.group_step. simpl.
  destruct (gd !! GroupReader.r_natm r) as [l|] eqn:Hl.
  - by apply members_insert_app.
  - by rewrite members_insert_fresh.
Qed.

Lemma foldl_group_step_members (l : list reader) k gd :
  members (foldl GroupReader.group_step gd (zip (seq k (length l)) l))
    ≡ₚ seq k (length l) ++ members gd.
Proof.
  revert k gd. induction l as [|r l IH]; intros k gd; simpl; [done|].
  rewrite IH, group_step_members. by rewrite <- Permutation_middle.
Qed.

Lemma build_group_dict_members rs :
  members (GroupReader.build_group_dict rs) ≡ₚ seq 0 (length rs).
Proof.
  unfold GroupReader.build_group_dict. rewrite foldl_group_step_members.
  unfold members. rewrite map_to_list_empty. simpl. by rewrite app_nil_r.
Qed.

Lemma members_elem_of gd n idxs i : gd !! n = Some idxs → i ∈ idxs → i ∈ members gd.
Proof.
  intros Hn Hi. unfold members. apply list_elem_of_In, in_concat. exists idxs.
  split; [|by apply list_elem_of_In].
  apply list_elem_of_In, list_elem_of_fmap. exists (n, idxs).
  split; [done|]. by apply elem_of_map_to_list.
Qed.

Lemma NoDup_concat_inv {A} (ls : list (list A)) l :
  NoDup (concat ls) → l ∈ ls → NoDup l.
Proof.
  induction ls as [|l0 ls IH]; simpl; [by inversion 2|].
  intros Hnd Hin. apply NoDup_app in Hnd as (H0 & _ & Hls).
  apply elem_of_cons in Hin as [->|Hin]; [done|by apply IH].
Qed.

(** The groups as [__init__] builds them: the group of an atom count holds
    exactly the positions of the readers with this atom count, each once. *)
Lemma build_group_dict_partition rs :
  let gd := GroupReader.build_group_dict rs in
  members gd ≡ₚ seq 0 (length rs) ∧
  (∀ i r, rs !! i = Some r → is_Some (gd !! GroupReader.r_natm r)) ∧
  ∀ n idxs, gd !! n = Some idxs →
    idxs ≠ [] ∧ NoDup idxs ∧
    ∀ i, i ∈ idxs ↔ ∃ r, rs !! i = Some r ∧ GroupReader.r_natm r = n.
Proof.
  intros gd. pose proof (build_group_dict_members rs) as Hm. fold gd in Hm.
  split; [done|]. split.
  { intros i r Hr. destruct (build_group_dict_covers rs i r Hr) as (idxs & H & _).
    by exists idxs. }
  intros n idxs Hn.
  destruct (build_group_dict_by_natm rs n idxs Hn) as [Hne Hall].
  split; [done|]. split.
  - apply (NoDup_concat_inv (snd <$> map_to_list gd)).
    + fold (members gd). rewrite Hm. apply NoDup_seq.
    + apply list_elem_of_fmap. exists (n, idxs). split; [done|].
      by apply elem_of_map_to_list.
  - intros i. split.
    + intros Hi. exact (proj1 (Forall_forall _ _) Hall i Hi).
    + intros (r & Hr & Hnat).
      destruct (build_group_dict_covers rs i r Hr) as (idxs' & H' & Hin).
      rewrite Hnat in H'. fold gd in H'. congruence.
Qed.
End GroupDictFacts.

(** ** [GroupReader]: sampling *)

Section GroupSamplingFacts.
Context {F : Type}.
Local Abbreviation reader := (GroupReader.reader F).
Implicit Types (g : GroupReader.t F) (r : reader).

Definition statics g : list static := r_static <$> GroupReader.readers g.

(** [g'] is [g] after calls of [sample_train] on some of its readers. *)
Record sampled_from g g' : Prop := {
  sf_frame : g' = GroupReader.set_readers (GroupReader.readers g') g;
  sf_statics : statics g' = statics g;
  sf_inv : Forall r_inv (GroupReader.readers g')
}.

Lemma sampled_from_refl g : Forall r_inv (GroupReader.readers g) → sampled_from g g.
Proof. intros H. split; [by destruct g|done|done]. Qed.

Lemma sampled_from_trans g1 g2 g3 :
  sampled_from g1 g2 → sampled_from g2 g3 → sampled_from g1 g3.
Proof.
  intros [H1 H2 H3] [H4 H5 H6]. split; [|congruence|done].
  rewrite H4 at 1. rewrite H1. done.
Qed.

Lemma statics_lookup g i r :
  GroupReader.readers g !! i = Some r → statics g !! i = Some (r_static r).
Proof. intros H. unfold statics. by rewrite list_lookup_fmap, H. Qed.

Lemma statics_lookup_inv g i st :
  statics g !! i = Some st →
  ∃ r, GroupReader.readers g !! i = Some r ∧ r_static r = st.
Proof.
  unfold statics. rewrite list_lookup_fmap.
  destruct (GroupReader.readers g !! i) as [r|]; [|done]. intros [= <-]. eauto.
Qed.

(** What one call returns, for a reader with the static part [st]. *)
Definition batch_of (st : static) (batch : list (tensor F)) : Prop :=
  Forall2 (λ b sh, t_fshape b = sh ∧
                   (0 ≤ s_batch_size st → shape0 b = s_batch_size st))
          batch (s_shapes st).

Lemma at_reader_sample_train g i st perm :
  Forall r_inv (GroupReader.readers g) →
  statics g !! i = Some st →
  is_permutation_of_range (s_nframes st) perm →
  ∃ g' batch,
    GroupReader.at_reader (Z.of_nat i) (GroupReader.r_sample_train perm) g
      = Return g' batch ∧
    sampled_from g g' ∧ batch_of st batch.
Proof.
  intros Hinv Hst Hperm.
  destruct (statics_lookup_inv _ _ _ Hst) as (r & Hr & <-).
  assert (r_inv r) as Hri by (by eapply Forall_lookup_1).
  destruct (r_sample_train_Return r perm Hri Hperm) as (r' & batch & Hs & Hri' & Hst' & Hb).
  pose proof (lookup_lt_Some _ _ _ Hr) as Hlt.
  destruct (py_index_in_range (GroupReader.readers g) (Z.of_nat i)) as (x & Hx & Hx');
    [lia|]. rewrite Nat2Z.id in Hx'. assert (x = r) as -> by congruence.
  unfold GroupReader.at_reader. rewrite Hx, Hs.
  destruct (Z.ltb_spec (Z.of_nat i) 0) as [?|_]; [lia|]. rewrite Nat2Z.id.
  eexists _, _. split; [done|]. split; [|done].
  split; simpl.
  - by destruct g.
  - unfold statics. simpl. rewrite list_fmap_insert, Hst'.
    apply list_insert_id. by rewrite list_lookup_fmap, Hr.
  - by apply Forall_insert.
Qed.

Lemma pmapM_sample_train g (l : list (nat * list Z)) :
  Forall r_inv (GroupReader.readers g) →
  Forall (λ sp, ∃ st, statics g !! sp.1 = Some st
                      ∧ is_permutation_of_range (s_nframes st) sp.2) l →
  ∃ g' samples,
    pmapM (λ sp : nat * list Z,
             GroupReader.at_reader (Z.of_nat sp.1) (GroupReader.r_sample_train sp.2)) l g
      = Return g' samples ∧
    sampled_from g g' ∧
    Forall2 (λ sp batch, ∃ st, statics g !! sp.1 = Some st ∧ batch_of st batch)
            l samples.
Proof.
  revert g. induction l as [|[i perm] l IH]; intros g Hinv Hl; simpl.
  - exists g, []. split; [done|]. split; [by apply sampled_from_refl|constructor].
  - apply Forall_cons in Hl as [(st & Hst & Hperm) Hl]. simpl in *.
    destruct (at_reader_sample_train g i st perm Hinv Hst Hperm)
      as (g1 & batch & Hs & Hsf & Hb).
    destruct (IH g1) as (g2 & samples & Hs2 & Hsf2 & Hbs).
    { by destruct Hsf. }
    { destruct Hsf as [_ Heq _]. by rewrite Heq. }
    unfold bind at 1. rewrite Hs. unfold bind at 1. rewrite Hs2.
    exists g2, (batch :: samples). split; [done|].
    split; [by eapply sampled_from_trans|].
    constructor; [eauto|]. destruct Hsf as [_ Heq _]. by rewrite <- Heq.
Qed.

(** *** Joining the samples of a group batch *)

(** Field [j] of every sample. *)
Definition field (samples : list (list (tensor F))) (j : nat) : list (tensor F) :=
  omap (λ l, l !! j) samples.

Lemma zip_star_same_length (samples : list (list (tensor F))) m :
  samples ≠ [] → Forall (λ s, length s = m) samples →
  zip_star samples = field samples <$> seq 0 m.
Proof.
  intros Hne Hlen. unfold zip_star. destruct samples as [|s0 rest]; [done|].
  assert (length s0 = m) as Hs0 by (by inversion Hlen).
  assert (foldr (λ l k, Nat.min (length l) k) (length s0) (s0 :: rest) = m) as ->; [|done].
  rewrite Hs0. clear Hs0 Hne. induction Hlen as [|s l Hs _ IH]; simpl; [done|].
  rewrite IH. lia.
Qed.

Lemma field_Forall2 (samples : list (list (tensor F))) j :
  Forall (λ s, j < length s)%nat samples →
  Forall2 (λ s b, s !! j = Some b) samples (field samples j).
Proof.
  unfold field. induction 1 as [|s l Hs _ IH]; simpl; [constructor|].
  destruct (lookup_lt_is_Some_2 s j Hs) as [b Hb]. rewrite Hb. simpl.
  by constructor.
Qed.

Lemma rmapM_fmap_Ok {A B C} (f : A → result B) (k : C → A) (h : C → B) l :
  Forall (λ x, f (k x) = Ok (h x)) l → rmapM f (k <$> l) = Ok (h <$> l).
Proof.
  induction 1 as [|x l Hx _ IH]; [done|].
  rewrite !fmap_cons. cbn [rmapM]. rewrite Hx, IH. done.
Qed.

Lemma rmapM_Err_only {A B} (f : A → result B) e0 l x :
  (∀ y e, f y = Err e → e = e0) → x ∈ l → (∃ e, f x = Err e) →
  rmapM f l = Err e0.
Proof.
  intros Hall Hin [e He]. induction l as [|y l IH]; [by apply elem_of_nil in Hin|].
  simpl. destruct (f y) as [b|e'] eqn:Hy; simpl.
  - apply elem_of_cons in Hin as [->|Hin]; [congruence|].
    rewrite (IH Hin). done.
  - f_equal. by eapply Hall.
Qed.

Lemma cat_frames_Ok e (ts : list (tensor F)) sh :
  ts ≠ [] → Forall (λ t, t_fshape t = sh) ts →
  cat_frames e ts = Ok (Tensor (concat (t_frames <$> ts)) sh).
Proof.
  intros Hne Hsh. unfold cat_frames. destruct ts as [|t0 ts']; [done|].
  assert (t_fshape t0 = sh) as Ht0 by (by inversion Hsh).
  rewrite decide_True; [by rewrite Ht0|].
  eapply Forall_impl; [done|]. simpl. congruence.
Qed.

Lemma cat_frames_Err e (ts : list (tensor F)) t1 t2 :
  t1 ∈ ts → t2 ∈ ts → t_fshape t1 ≠ t_fshape t2 → cat_frames e ts = Err e.
Proof.
  intros H1 H2 Hne. unfold cat_frames. destruct ts as [|t0 ts']; [done|].
  rewrite decide_False; [done|]. intros Hall.
  rewrite Forall_forall in Hall. rewrite (Hall _ H1), (Hall _ H2) in Hne. done.
Qed.

Lemma cat_frames_Err_only e (ts : list (tensor F)) e' :
  cat_frames e ts = Err e' → e' = e.
Proof.
  unfold cat_frames. destruct ts; [congruence|]. destruct (decide _); congruence.
Qed.

Lemma length_concat_Zsum {A} (ls : list (list A)) :
  Z.of_nat (length (concat ls)) = Zsum ((λ l, Z.of_nat (length l)) <$> ls).
Proof.
  unfold Zsum. induction ls as [|l ls IH]; simpl; [done|].
  rewrite length_app, Nat2Z.inj_add, IH. done.
Qed.

(** Samples of one shape are joined field by field; the frames add up. *)
Lemma join_samples (samples : list (list (tensor F))) shs :
  samples ≠ [] →
  Forall (λ batch, Forall2 (λ b sh, t_fshape b = sh) batch shs) samples →
  ∃ out,
    rmapM torch_cat (zip_star samples) = Ok out ∧
    Forall2 (λ b sh, t_fshape b = sh) out shs ∧
    ∀ j b, out !! j = Some b →
      t_frames b = concat (t_frames <$> field samples j) ∧
      Forall2 (λ s x, s !! j = Some x) samples (field samples j) ∧
      shape0 b = Zsum (shape0 <$> field samples j).
Proof.
  intros Hne Hsh.
  assert (Forall (λ s, length s = length shs) samples) as Hlen.
  { eapply Forall_impl; [done|]. simpl. intros s Hs. by eapply Forall2_length. }
  rewrite (zip_star_same_length _ _ Hne Hlen).
  set (h := λ j, Tensor (concat (t_frames <$> field samples j)) (default [] (shs !! j))).
  assert (∀ j, (j < length shs)%nat →
            Forall2 (λ s b, s !! j = Some b) samples (field samples j)) as Hfield.
  { intros j Hj. apply field_Forall2. eapply Forall_impl; [done|]. simpl. lia. }
  exists (h <$> seq 0 (length shs)). split_and!.
  - apply rmapM_fmap_Ok.
    apply Forall_forall. intros j Hj. apply elem_of_seq in Hj as [_ Hj]. simpl in Hj.
    simpl. unfold torch_cat, h.
    destruct (lookup_lt_is_Some_2 shs j Hj) as [sh Hsh']. rewrite Hsh'. simpl.
    apply cat_frames_Ok.
    + pose proof (Forall2_length _ _ _ (Hfield j Hj)) as Hl.
      destruct samples; [done|]. by destruct (field _ j).
    + apply Forall_forall. intros b Hb.
      apply list_elem_of_lookup in Hb as [k Hk].
      destruct (Forall2_lookup_r _ _ _ _ _ (Hfield j Hj) Hk) as (s & Hs & Hsj).
      pose proof (Forall_lookup_1 _ _ _ _ Hsh Hs) as Hss. simpl in Hss.
      destruct (Forall2_lookup_l _ _ _ _ _ Hss Hsj) as (sh' & Hsh'' & <-).
      congruence.
  - apply Forall2_same_length_lookup_2.
    + by rewrite length_fmap, length_seq.
    + intros j b sh Hb Hsh'. rewrite list_lookup_fmap in Hb.
      destruct (seq 0 (length shs) !! j) as [j'|] eqn:Hj; [|done].
      apply lookup_seq in Hj as [-> _]. injection Hb as <-. simpl.
      by rewrite Hsh'.
  - intros j b Hb. rewrite list_lookup_fmap in Hb.
    destruct (seq 0 (length shs) !! j) as [j'|] eqn:Hj; [|done].
    apply lookup_seq in Hj as [-> Hj]. injection Hb as <-. simpl.
    split_and!; [done|by apply Hfield|].
    unfold shape0. simpl. rewrite length_concat_Zsum, <- list_fmap_compose. done.
Qed.

(** Samples whose shapes differ in one field cannot be joined. *)
Lemma join_samples_mismatch (samples : list (list (tensor F))) m j s1 s2 b1 b2 :
  Forall (λ s, length s = m) samples →
  s1 ∈ samples → s2 ∈ samples →
  s1 !! j = Some b1 → s2 !! j = Some b2 → t_fshape b1 ≠ t_fshape b2 →
  rmapM torch_cat (zip_star samples) = Err RuntimeError.
Proof.
  intros Hlen H1 H2 Hb1 Hb2 Hne.
  assert (samples ≠ []) as Hnil by (intros ->; by apply elem_of_nil in H1).
  rewrite (zip_star_same_length _ _ Hnil Hlen).
  assert (j < m)%nat as Hj.
  { rewrite Forall_forall in Hlen. rewrite <- (Hlen _ H1). by eapply lookup_lt_Some. }
  assert (Forall2 (λ s b, s !! j = Some b) samples (field samples j)) as Hfield.
  { apply field_Forall2. eapply Forall_impl; [done|]. simpl. lia. }
  apply (rmapM_Err_only _ _ _ (field samples j)).
  - intros y e. apply cat_frames_Err_only.
  - apply list_elem_of_fmap. exists j. split; [done|]. apply elem_of_seq. lia.
  - exists RuntimeError. apply (cat_frames_Err _ _ b1 b2); [| |done].
    + apply list_elem_of_lookup in H1 as [k Hk].
      destruct (Forall2_lookup_l _ _ _ _ _ Hfield Hk) as (b & Hb & Hsb).
      apply list_elem_of_lookup. exists k. congruence.
    + apply list_elem_of_lookup in H2 as [k Hk].
      destruct (Forall2_lookup_l _ _ _ _ _ Hfield Hk) as (b & Hb & Hsb).
      apply list_elem_of_lookup. exists k. congruence.
Qed.
End GroupSamplingFacts.

(** ** Probabilities *)

Lemma Qfrac_plus a b t : Qeq (Qfrac (a + b) t) (Qplus (Qfrac a t) (Qfrac b t)).
Proof. unfold Qfrac, Qdiv. rewrite inject_Z_plus. ring. Qed.

Lemma Qsum_Qfrac (l : list Z) t :
  Qeq (Qsum ((λ ii, Qfrac ii t) <$> l)) (Qfrac (Zsum l) t).
Proof.
  induction l as [|a l IH]; simpl.
  - unfold Qfrac, Qdiv. ring.
  - rewrite IH. symmetry. apply Qfrac_plus.
Qed.

Lemma Qfrac_self t : t ≠ 0 → Qeq (Qfrac t t) 1.
Proof.
  intros Ht. unfold Qfrac, Qdiv. apply Qmult_inv_r.
  intros H. apply Ht. unfold Qeq in H. simpl in H. lia.
Qed.

Lemma Qfrac_nonneg a t : 0 ≤ a → 0 ≤ t → Qle 0 (Qfrac a t).
Proof.
  intros Ha Ht. unfold Qfrac, Qdiv. apply Qmult_le_0_compat.
  - unfold Qle. simpl. lia.
  - apply Qinv_le_0_compat. unfold Qle. simpl. lia.
Qed.

Lemma Qfrac_pos a t : 0 < a → 0 < t → Qlt 0 (Qfrac a t).
Proof.
  intros Ha Ht. unfold Qfrac, Qdiv. apply Qmult_lt_0_compat.
  - unfold Qlt. simpl. lia.
  - apply Qinv_lt_0_compat. unfold Qlt. simpl. lia.
Qed.

Lemma Zsum_pos (l : list Z) : Forall (λ x, 0 < x) l → l ≠ [] → 0 < Zsum l.
Proof.
  intros H Hne. destruct H as [|x l Hx Hl]; [done|]. simpl.
  assert (0 ≤ Zsum l); [|lia].
  clear Hne Hx. induction Hl as [|y l Hy _ IH]; simpl; lia.
Qed.

Lemma f64_sum_Fin (qs : list Q) : f64_sum (Fin <$> qs) = Fin (Qsum qs).
Proof.
  induction qs as [|q qs IH]; [done|].
  rewrite fmap_cons. unfold f64_sum in *. simpl. by rewrite IH.
Qed.

Lemma forallb_nonneg_Fin (qs : list Q) :
  Forall (λ x, Qle 0 x) qs → forallb f64_nonneg (Fin <$> qs) = true.
Proof.
  induction 1 as [|q qs Hq _ IH]; [done|].
  rewrite fmap_cons. simpl. rewrite IH, andb_true_r. by apply Qle_bool_iff.
Qed.

(** A probability vector passes the checks of [np.random.choice]. *)
Lemma choice_check_valid_prob (n : nat) (qs : list Q) :
  n ≠ 0%nat → valid_prob n qs → np_random_choice_check n (Fin <$> qs) = Ok tt.
Proof.
  intros Hn (Hlen & Hpos & Hsum). unfold np_random_choice_check.
  rewrite decide_True by (by rewrite length_fmap).
  rewrite f64_sum_Fin, (forallb_nonneg_Fin _ Hpos). cbn [andb].
  assert (Qle_bool (Qabs (Qminus (Qsum qs) 1)) choice_atol = true) as ->; [|done].
  apply Qle_bool_iff. rewrite Hsum. done.
Qed.

Lemma Qsum_div (qs : list Q) (s : Q) :
  Qeq (Qsum ((λ x, Qdiv x s) <$> qs)) (Qdiv (Qsum qs) s).
Proof.
  induction qs as [|q qs IH]; simpl.
  - unfold Qdiv. ring.
  - rewrite IH. unfold Qdiv. ring.
Qed.

Lemma Qsum_pos (qs : list Q) : Forall (λ x, Qlt 0 x) qs → qs ≠ [] → Qlt 0 (Qsum qs).
Proof.
  intros H Hne. destruct H as [|q qs Hq Hqs]; [done|]. simpl.
  assert (Qle 0 (Qsum qs)) as Hs.
  { clear Hne Hq. induction Hqs as [|y l Hy _ IH]; simpl; [done|].
    apply Qlt_le_weak in Hy. rewrite <- (Qplus_0_r 0). by apply Qplus_le_compat. }
  rewrite <- (Qplus_0_r 0). by apply Qplus_lt_le_compat.
Qed.

(** Positive finite weights: the normalised weights are a probability
    vector with positive entries. *)
Lemma normalize_valid_prob (qs : list Q) :
  Forall (λ x, Qlt 0 x) qs → qs ≠ [] →
  f64_normalize (Fin <$> qs) = Fin <$> normalize qs ∧
  valid_prob (length qs) (normalize qs) ∧
  Forall (λ x, Qlt 0 x) (normalize qs).
Proof.
  intros Hpos Hne. pose proof (Qsum_pos qs Hpos Hne) as Hs.
  assert (Qeq_bool (Qsum qs) 0 = false) as Hnz.
  { destruct (Qeq_bool (Qsum qs) 0) eqn:E; [|done].
    apply Qeq_bool_iff in E. rewrite E in Hs. by apply Qlt_irrefl in Hs. }
  assert (Forall (λ x, Qlt 0 x) (normalize qs)) as Hnpos.
  { unfold normalize. apply Forall_fmap. eapply Forall_impl; [exact Hpos|]. simpl.
    intros x Hx. unfold Qdiv. apply Qmult_lt_0_compat; [done|].
    by apply Qinv_lt_0_compat. }
  split_and!; [| |done].
  - unfold f64_normalize, normalize. rewrite f64_sum_Fin, <- !list_fmap_compose.
    apply list_fmap_ext. intros _ x _. simpl. by rewrite Hnz.
  - unfold valid_prob. split_and!.
    + unfold normalize. by rewrite length_fmap.
    + eapply Forall_impl; [exact Hnpos|]. simpl. intros x. apply Qlt_le_weak.
    + unfold normalize. rewrite Qsum_div. apply Qmult_inv_r.
      intros E. rewrite E in Hs. by apply Qlt_irrefl in Hs.
Qed.

(** Infinite weights, as a batch size of zero gives them: the normalised
    weights are NaN and fail the checks. *)
Lemma f64_sum_PInf (p : list f64) :
  p ≠ [] → Forall (λ x, x = PInf) p → f64_sum p = PInf.
Proof.
  intros Hne H. induction H as [|x l -> Hl IH]; [done|].
  unfold f64_sum in *. simpl. destruct l as [|y l]; [done|].
  by rewrite IH.
Qed.

Lemma choice_check_PInf (p : list f64) :
  p ≠ [] → Forall (λ x, x = PInf) p →
  np_random_choice_check (length p) (f64_normalize p) = Err ValueError.
Proof.
  intros Hne H.
  assert (f64_normalize p = replicate (length p) NaN) as ->.
  { unfold f64_normalize. rewrite (f64_sum_PInf p Hne H).
    clear Hne. induction H as [|x l -> _ IH]; [done|].
    rewrite fmap_cons, IH. done. }
  unfold np_random_choice_check. destruct (decide _); [|done].
  destruct p as [|x l]; [done|]. done.
Qed.

(** ** [GroupReader]: what construction establishes *)

Section GroupInvFacts.
Context {F : Type}.
Local Abbreviation reader := (GroupReader.reader F).
Implicit Types (g : GroupReader.t F) (r : reader).

Lemma GroupReader_init_spec (paths : list (system_dir F)) bs gb wf wo kw :
  GroupReader.__init__ paths bs gb wf wo kw =
    (bl <~ rmapM (λ ipath, GroupReader.Reader_class wf wo ipath bs kw) paths ;;
     match included bl with
     | [] => Err IndexError
     | r0 :: _ =>
         let nframes := GroupReader.r_nframes <$> included bl in
         Ok (GroupReader.Mk paths bs (included bl) nframes (length (included bl))
               (GroupReader.r_ndesc r0)
               ((λ ii, Qfrac ii (Zsum nframes)) <$> nframes)
               (Z.max gb 1)
               (if decide (Z.max gb 1 > 1)
                then Some (GroupReader.build_groups (included bl) nframes) else None)
               0,
             loop_stderr paths bl)
     end).
Proof.
  unfold GroupReader.__init__. rewrite foldl_init_step.
  destruct (rmapM _ paths) as [bl|e]; simpl; [|done].
  destruct (included bl) as [|r0 l] eqn:Hincl; [done|].
  destruct (py_index_in_range (r0 :: l) 0) as (x & -> & Hx); [simpl; lia|].
  simpl in Hx. injection Hx as <-. done.
Qed.

(** What holds of a group reader in every state; all of it but the
    invariants of the readers is about what sampling leaves unchanged. *)
Definition static_shapes (st : static) : Prop :=
  s_shapes st !! 0%nat = Some [1%nat] ∧
  s_shapes st !! 1%nat = Some [s_natm st; s_ndesc st].
Definition static_groups (sts : list static) (gd : gmap nat (list nat)) : Prop :=
  ∀ n idxs, gd !! n = Some idxs →
    idxs ≠ [] ∧ Forall (λ i, ∃ st, sts !! i = Some st ∧ s_natm st = n) idxs.

(** The frame count and the batch size of the reader at a position, and the
    probability tables in terms of them. *)
Definition st_nframes (sts : list static) (i : nat) : Z :=
  from_option s_nframes 0 (sts !! i).
Definition st_batch_size (sts : list static) (i : nat) : Z :=
  from_option s_batch_size 0 (sts !! i).
Definition static_tables (sts : list static) (total : Z) (gt : GroupReader.group_tables)
    : Prop :=
  GroupReader.group_prob gt
    = (λ r_list, Qfrac (Zsum (st_nframes sts <$> r_list)) total)
        <$> GroupReader.group_dict gt ∧
  GroupReader.batch_prob gt
    = (λ r_list, f64_normalize ((λ i, f64_div (f64_of_Z (st_nframes sts i))
                                              (f64_of_Z (st_batch_size sts i)))
                                  <$> r_list))
        <$> GroupReader.group_dict gt.

Record Group_inv g : Prop := {
  ginv_readers : Forall r_inv (GroupReader.readers g);
  ginv_shapes : Forall static_shapes (statics g);
  ginv_nonzero : Forall (λ st, 0 < s_nframes st) (statics g);
  ginv_nonempty : statics g ≠ [];
  ginv_nframes : GroupReader.nframes g = s_nframes <$> statics g;
  ginv_nsystems : GroupReader.nsystems g = length (statics g);
  ginv_sys_prob :
    GroupReader.sys_prob g
      = (λ ii, Qfrac ii (Zsum (GroupReader.nframes g))) <$> GroupReader.nframes g;
  ginv_batch_size :
    Forall (λ st, s_batch_size st
                  = if decide (s_nframes st < GroupReader.batch_size g)
                    then s_nframes st else GroupReader.batch_size g) (statics g);
  ginv_group_batch : 1 ≤ GroupReader.group_batch g;
  ginv_fields : ∃ m, Forall (λ st, length (s_shapes st) = m) (statics g);
  ginv_groups :
    if decide (GroupReader.group_batch g > 1)
    then ∃ gt, GroupReader.groups g = Some gt ∧
               static_groups (statics g) (GroupReader.group_dict gt) ∧
               static_tables (statics g) (GroupReader.get_train_size g) gt ∧
               members (GroupReader.group_dict gt) ≡ₚ seq 0 (length (statics g))
    else GroupReader.groups g = None
}.

Lemma rd_nframes_static (rs : list reader) i :
  GroupReader.rd_nframes rs i = st_nframes (r_static <$> rs) i.
Proof.
  unfold GroupReader.rd_nframes, st_nframes. rewrite list_lookup_fmap.
  by destruct (rs !! i).
Qed.

Lemma rd_batch_size_static (rs : list reader) i :
  GroupReader.rd_batch_size rs i = st_batch_size (r_static <$> rs) i.
Proof.
  unfold GroupReader.rd_batch_size, st_batch_size. rewrite list_lookup_fmap.
  by destruct (rs !! i).
Qed.

Lemma build_groups_tables (rs : list reader) nframes :
  static_tables (r_static <$> rs) (Zsum nframes) (GroupReader.build_groups rs nframes).
Proof.
  unfold static_tables, GroupReader.build_groups. simpl. split.
  - apply map_fmap_ext. intros n l _. f_equal. f_equal.
    apply list_fmap_ext. intros ? i _. apply rd_nframes_static.
  - rewrite <- map_fmap_compose. apply map_fmap_ext. intros n l _. simpl. f_equal.
    apply list_fmap_ext. intros ? i _.
    by rewrite rd_nframes_static, rd_batch_size_static.
Qed.

Lemma r_shape_inv_static r : r_shape_inv r → static_shapes (r_static r).
Proof.
  intros (Hec & Hdm & H0 & H1 & _). unfold static_shapes, r_static, r_shapes. simpl.
  rewrite !list_lookup_fmap, H0, H1. simpl. by rewrite Hec, Hdm.
Qed.

Lemma groups_by_natm_static (rs : list reader) gd :
  groups_by_natm rs gd → static_groups (r_static <$> rs) gd.
Proof.
  intros H n idxs Hn. destruct (H n idxs Hn) as [Hne Hall]. split; [done|].
  eapply Forall_impl; [done|]. simpl. intros i (r & Hr & Hnat).
  exists (r_static r). rewrite list_lookup_fmap, Hr. done.
Qed.

(** The number of tensors of a batch is that of the class. *)
Lemma Reader_class_fields wf wo (path : system_dir F) bs kw r log :
  GroupReader.Reader_class wf wo path bs kw = Ok (r, log) →
  length (r_shapes r) = (if wo then 6 else if wf then 4 else 2)%nat.
Proof.
  unfold GroupReader.Reader_class. intros H.
  destruct wo; [|destruct wf]; inv_rbind H; by injection H as <- _.
Qed.

Lemma built_readers_inv wf wo bs kw (paths : list (system_dir F)) bl :
  rmapM (λ ipath, GroupReader.Reader_class wf wo ipath bs kw) paths = Ok bl →
  Forall (λ r, r_inv r ∧ r_shape_inv r ∧ 0 < GroupReader.r_nframes r ∧
               GroupReader.r_batch_size r
                 = (if decide (GroupReader.r_nframes r < bs)
                    then GroupReader.r_nframes r else bs) ∧
               length (r_shapes r) = (if wo then 6 else if wf then 4 else 2)%nat)
         (included bl).
Proof.
  intros H. apply rmapM_Forall2 in H.
  apply Forall_forall. intros r Hr. unfold included in Hr.
  apply list_elem_of_filter in Hr as [Hnz Hr].
  apply list_elem_of_fmap in Hr as ([r' log] & -> & Hin). simpl in *.
  apply list_elem_of_lookup in Hin as [k Hk].
  destruct (Forall2_lookup_r _ _ _ _ _ H Hk) as (p & _ & Hp).
  destruct (Reader_class_inv _ _ _ _ _ _ _ Hp) as (Hi & Hb & _ & H0).
  split_and!; [done|by eapply Reader_class_shape_inv|lia|done|
               by eapply Reader_class_fields].
Qed.

Lemma GroupReader_init_inv (paths : list (system_dir F)) bs gb wf wo kw g log :
  GroupReader.__init__ paths bs gb wf wo kw = Ok (g, log) → Group_inv g.
Proof.
  rewrite GroupReader_init_spec. intros H. inv_rbind H.
  pose proof (built_readers_inv _ _ _ _ _ _ E) as Hb.
  assert (Forall r_inv (included a)) as Hb1.
  { eapply Forall_impl; [exact Hb|]. by intros r (? & ? & ? & ? & ?). }
  assert (Forall static_shapes (r_static <$> included a)) as Hb2.
  { apply Forall_fmap. eapply Forall_impl; [exact Hb|]. simpl.
    intros r (? & ? & ? & ? & ?). by apply r_shape_inv_static. }
  assert (Forall (λ st, 0 < s_nframes st) (r_static <$> included a)) as Hb3.
  { apply Forall_fmap. eapply Forall_impl; [exact Hb|]. simpl.
    by intros r (? & ? & ? & ? & ?). }
  assert (Forall (λ st, length (s_shapes st) = (if wo then 6 else if wf then 4 else 2)%nat)
                 (r_static <$> included a)) as Hb9.
  { apply Forall_fmap. eapply Forall_impl; [exact Hb|]. simpl.
    by intros r (? & ? & ? & ? & ?). }
  pose proof (groups_by_natm_static _ _ (build_group_dict_by_natm (included a))) as Hb4.
  assert (GroupReader.r_nframes <$> included a
          = s_nframes <$> (r_static <$> included a)) as Hb5.
  { by rewrite <- list_fmap_compose. }
  assert (length (included a) = length (r_static <$> included a)) as Hb6.
  { by rewrite length_fmap. }
  assert (Forall (λ st, s_batch_size st
                        = if decide (s_nframes st < bs) then s_nframes st else bs)
                 (r_static <$> included a)) as Hb7.
  { apply Forall_fmap. eapply Forall_impl; [exact Hb|]. simpl.
    by intros r (? & ? & ? & ? & ?). }
  pose proof (build_groups_tables (included a) (GroupReader.r_nframes <$> included a))
    as Hb8.
  pose proof (build_group_dict_members (included a)) as Hb10. rewrite Hb6 in Hb10.
  destruct (included a) as [|r0 l] eqn:Hincl; [done|]. injection H as <- <-.
  split; unfold statics; simpl; try done.
  - lia.
  - by eexists.
  - destruct (decide _); [|done]. eexists. split; [done|]. done.
Qed.

Lemma Group_inv_sampled g g' used :
  Group_inv g → sampled_from g g' →
  Group_inv (GroupReader.set_sample_used used g').
Proof.
  intros [H1 H2 H3 H4 H5 H6 H7 H8 H9 H10 H11] [Hfr Hst Hinv].
  assert (statics (GroupReader.set_sample_used used g') = statics g) as Hst'.
  { by rewrite <- Hst. }
  split; rewrite ?Hst'; try done; rewrite Hfr; simpl; done.
Qed.

Lemma set_sample_used_id g : GroupReader.set_sample_used (GroupReader._sample_used g) g = g.
Proof. by destruct g. Qed.

Lemma Group_inv_sampled' g g' : Group_inv g → sampled_from g g' → Group_inv g'.
Proof.
  intros H1 H2. rewrite <- (set_sample_used_id g'). by eapply Group_inv_sampled.
Qed.

(** *** The two ways of drawing a batch *)

Lemma Group_inv_total_pos g : Group_inv g → 0 < GroupReader.get_train_size g.
Proof.
  intros Hinv. unfold GroupReader.get_train_size. rewrite (ginv_nframes g Hinv).
  apply Zsum_pos.
  - apply Forall_fmap. exact (ginv_nonzero g Hinv).
  - pose proof (ginv_nonempty g Hinv). by destruct (statics g).
Qed.

(** The system probabilities are a probability vector: the draw of
    [sample_idx] is made. *)
Lemma Group_inv_sys_prob g :
  Group_inv g →
  GroupReader.nsystems g ≠ 0%nat ∧
  valid_prob (GroupReader.nsystems g) (GroupReader.sys_prob g).
Proof.
  intros Hinv.
  pose proof (Group_inv_total_pos g Hinv) as Htot.
  pose proof (ginv_nframes g Hinv) as Hnf.
  pose proof (ginv_nsystems g Hinv) as Hns.
  pose proof (ginv_nonempty g Hinv) as Hne.
  pose proof (ginv_nonzero g Hinv) as Hnz.
  unfold GroupReader.get_train_size in Htot.
  split; [rewrite Hns; by destruct (statics g)|].
  unfold valid_prob. rewrite (ginv_sys_prob g Hinv). split_and!.
  - rewrite length_fmap, Hnf, length_fmap. lia.
  - apply Forall_fmap. rewrite Hnf at 1. apply Forall_fmap.
    eapply Forall_impl; [exact Hnz|]. simpl. intros st Hpos.
    apply Qfrac_nonneg; lia.
  - rewrite Qsum_Qfrac. apply Qfrac_self. lia.
Qed.

Lemma sample_idx_Return g draw :
  Group_inv g → GroupReader.sample_idx draw g = Return g (Z.of_nat draw).
Proof.
  intros Hinv. destruct (Group_inv_sys_prob g Hinv) as [Hn Hp].
  unfold GroupReader.sample_idx, bind, get, lift, ret.
  by rewrite (choice_check_valid_prob _ _ Hn Hp).
Qed.

(** [self.readers[i].m()] for a position [i]. *)
Lemma at_reader_Return {A} g i r r' (m : py reader A) a :
  GroupReader.readers g !! i = Some r → m r = Return r' a →
  GroupReader.at_reader (Z.of_nat i) m g
    = Return (GroupReader.set_readers (<[i := r']> (GroupReader.readers g)) g) a.
Proof.
  intros Hr Hm. pose proof (lookup_lt_Some _ _ _ Hr) as Hlt.
  destruct (py_index_in_range (GroupReader.readers g) (Z.of_nat i)) as (x & Hx & Hx');
    [lia|]. rewrite Nat2Z.id in Hx'. assert (x = r) as -> by congruence.
  unfold GroupReader.at_reader. rewrite Hx, Hm.
  destruct (Z.ltb_spec (Z.of_nat i) 0) as [?|_]; [lia|]. by rewrite Nat2Z.id.
Qed.

Lemma sample_train_single g d :
  Group_inv g → GroupReader.valid_draws g d →
  ∃ g' batch st,
    GroupReader.sample_train None (GroupReader.dr_idx d) (GroupReader.dr_perm d) g
      = Return g' batch ∧
    sampled_from g g' ∧
    statics g !! GroupReader.dr_idx d = Some st ∧ batch_of st batch.
Proof.
  intros Hinv [(r & Hr & Hperm) _].
  destruct (at_reader_sample_train g (GroupReader.dr_idx d) (r_static r)
              (GroupReader.dr_perm d)) as (g' & batch & Hs & Hsf & Hb).
  { by destruct Hinv. }
  { by apply statics_lookup. }
  { done. }
  exists g', batch, (r_static r).
  split; [|split; [done|split; [by apply statics_lookup|done]]].
  unfold GroupReader.sample_train, bind. by rewrite (sample_idx_Return g _ Hinv).
Qed.

Lemma drawn_positions g (cgrp csys : list nat) (perms : list (list Z)) :
  Forall2 (λ k perm, ∃ i r, cgrp !! k = Some i ∧ GroupReader.readers g !! i = Some r ∧
                            is_permutation_of_range (GroupReader.r_nframes r) perm)
          csys perms →
  ∃ drawn,
    Forall2 (λ k i, cgrp !! k = Some i) csys drawn ∧
    Forall2 (λ i perm, ∃ st, statics g !! i = Some st
                             ∧ is_permutation_of_range (s_nframes st) perm)
            drawn perms.
Proof.
  induction 1 as [|k perm csys perms (i & r & Hk & Hr & Hp) _ (drawn & H1 & H2)].
  - exists []. split; constructor.
  - exists (i :: drawn). split; constructor; try done.
    exists (r_static r). split; [by apply statics_lookup|done].
Qed.

(** A group batch: the samples of the drawn readers, then their join. *)
Lemma sample_train_group_samples g cnatm csys perms :
  Group_inv g → GroupReader.group_batch g > 1 →
  GroupReader.valid_group_draws g cnatm csys perms →
  ∃ gt cgrp drawn g' samples,
    GroupReader.groups g = Some gt ∧
    GroupReader.group_dict gt !! cnatm = Some cgrp ∧
    Forall2 (λ k i, cgrp !! k = Some i) csys drawn ∧
    Z.of_nat (length drawn) = GroupReader.group_batch g ∧
    length perms = length drawn ∧
    sampled_from g g' ∧
    Forall2 (λ i batch, ∃ st, statics g !! i = Some st ∧ batch_of st batch)
            drawn samples ∧
    pmapM (λ sp : nat * list Z,
             GroupReader.at_reader (Z.of_nat sp.1) (GroupReader.r_sample_train sp.2))
          (zip drawn perms) g = Return g' samples ∧
    GroupReader.sample_train_group cnatm csys perms g =
      match rmapM torch_cat (zip_star samples) with
      | Ok out => Return g' out
      | Err e => Raised g' e
      end.
Proof.
  intros Hinv Hgb Hvalid.
  pose proof (ginv_groups g Hinv) as Hg. rewrite decide_True in Hg by done.
  destruct Hg as (gt & Hgt & Hgd).
  destruct (Hvalid gt Hgt)
    as (Hchk1 & _ & cgrp & p & Hcgrp & Hbp & Hchk2 & Hlen & Hdraw).
  destruct (drawn_positions _ _ _ _ Hdraw) as (drawn & Hdrawn & Hperms).
  destruct (pmapM_sample_train g (zip drawn perms)) as (g' & samples & Hs & Hsf & Hb).
  { by destruct Hinv. }
  { apply Forall_forall. intros [i perm] Hin.
    apply list_elem_of_lookup in Hin as [k Hk].
    apply lookup_zip_with_Some in Hk as (i' & p' & [= <- <-] & Hi & Hp).
    simpl. exact (Forall2_lookup_lr _ _ _ _ _ _ Hperms Hi Hp). }
  exists gt, cgrp, drawn, g', samples.
  pose proof (Forall2_length _ _ _ Hdrawn) as Hl1.
  pose proof (Forall2_length _ _ _ Hperms) as Hl2.
  split_and!; try done.
  - lia.
  - rewrite <- (fst_zip drawn perms) by lia.
    rewrite Forall2_fmap_l. eapply Forall2_impl; [done|]. done.
  - unfold GroupReader.sample_train_group, bind, get, lift.
    rewrite Hgt, Hchk1, Hcgrp, Hbp, Hchk2.
    assert (rmapM (λ k, match cgrp !! k with
                        | Some i => Ok i | None => Err IndexError end) csys
            = Ok drawn) as ->.
    { apply rmapM_Forall2. eapply Forall2_impl; [done|].
      simpl. by intros k i ->. }
    rewrite Hs. by destruct (rmapM torch_cat _).
Qed.

(** *** One step of the iteration *)

(** The batch [__next__] draws in the state [g]. *)
Definition next_sample (d : GroupReader.draws) : py (GroupReader.t F) (list (tensor F)) :=
  λ g, if decide (GroupReader.group_batch g = 1)
       then GroupReader.sample_train None (GroupReader.dr_idx d) (GroupReader.dr_perm d) g
       else GroupReader.sample_train_group (GroupReader.dr_natm d) (GroupReader.dr_csys d)
              (GroupReader.dr_perms d) g.

Lemma py_index_head {A} (x : A) l : py_index (x :: l) 0 = Ok x.
Proof.
  destruct (py_index_in_range (x :: l) 0) as (y & -> & Hy); [simpl; lia|].
  simpl in Hy. congruence.
Qed.

Lemma next_unfold d g :
  GroupReader.__next__ d g =
    if decide (GroupReader._sample_used g > GroupReader.get_train_size g)
    then Raised (GroupReader.set_sample_used 0 g) StopIteration
    else match next_sample d g with
         | Return g' sample =>
             match sample with
             | b0 :: _ =>
                 Return (GroupReader.set_sample_used
                           (GroupReader._sample_used g' + shape0 b0) g') sample
             | [] => Raised g' IndexError
             end
         | Raised g' e => Raised g' e
         end.
Proof.
  unfold GroupReader.__next__, next_sample, bind, get. simpl.
  destruct (decide (_ > _)); [done|].
  destruct (decide (GroupReader.group_batch g = 1)).
  - destruct (GroupReader.sample_train _ _ _ g) as [g' sample|g' e']; [|done].
    destruct sample as [|b0 l]; [done|]. unfold lift. by rewrite py_index_head.
  - destruct (GroupReader.sample_train_group _ _ _ g) as [g' sample|g' e']; [|done].
    destruct sample as [|b0 l]; [done|]. unfold lift. by rewrite py_index_head.
Qed.

Lemma next_sample_sampled d g :
  Group_inv g → GroupReader.valid_draws g d →
  match next_sample d g with
  | Return g' _ | Raised g' _ => sampled_from g g'
  end.
Proof.
  intros Hinv Hvalid. unfold next_sample. destruct (decide _) as [H1|Hn1].
  - destruct (sample_train_single g d Hinv Hvalid) as (g' & batch & st & -> & Hsf & _).
    done.
  - pose proof (ginv_group_batch g Hinv).
    destruct (sample_train_group_samples g _ _ _ Hinv ltac:(lia) (proj2 Hvalid))
      as (gt & cgrp & drawn & g' & samples & _ & _ & _ & _ & _ & Hsf & _ & _ & ->).
    by destruct (rmapM torch_cat _).
Qed.

Lemma next_inv d g :
  Group_inv g → GroupReader.valid_draws g d →
  match GroupReader.__next__ d g with
  | Return g' _ | Raised g' _ => Group_inv g'
  end.
Proof.
  intros Hinv Hvalid. rewrite next_unfold.
  destruct (decide _).
  - apply (Group_inv_sampled g); [done|]. apply sampled_from_refl. by destruct Hinv.
  - pose proof (next_sample_sampled d g Hinv Hvalid) as Hsf.
    destruct (next_sample d g) as [g' sample|g' e].
    + destruct sample; [by eapply Group_inv_sampled'|by eapply Group_inv_sampled].
    + by eapply Group_inv_sampled'.
Qed.

Lemma GroupReader_reachable_inv g0 g :
  Group_inv g0 → GroupReader.reachable g0 g → Group_inv g.
Proof.
  intros H0. induction 1 as [|g d g' b _ IH Hv Hn|g d g' e _ IH Hv Hn]; [done| |].
  - pose proof (next_inv d g IH Hv) as H. by rewrite Hn in H.
  - pose proof (next_inv d g IH Hv) as H. by rewrite Hn in H.
Qed.
End GroupInvFacts.

(** ** [GroupReader]: the probability tables and the group draw *)

Lemma Zsum_app (l1 l2 : list Z) : Zsum (l1 ++ l2) = Zsum l1 + Zsum l2.
Proof. unfold Zsum. induction l1 as [|x l1 IH]; simpl; [done|]. rewrite IH. lia. Qed.

Lemma Zsum_Permutation (l1 l2 : list Z) : l1 ≡ₚ l2 → Zsum l1 = Zsum l2.
Proof.
  unfold Zsum. induction 1 as [|x l1 l2 _ IH|x y l|l1 l2 l3 _ IH1 _ IH2]; simpl; lia.
Qed.

Lemma Zsum_concat {A} (f : A → Z) (ls : list (list A)) :
  Zsum ((λ l, Zsum (f <$> l)) <$> ls) = Zsum (f <$> concat ls).
Proof.
  induction ls as [|l ls IH]; [done|].
  rewrite fmap_cons. simpl concat. rewrite fmap_app, Zsum_app, <- IH. done.
Qed.

Lemma Zsum_Forall2 {A B} (f : A → Z) (h : B → Z) l k :
  Forall2 (λ x y, f x = h y) l k → Zsum (f <$> l) = Zsum (h <$> k).
Proof.
  induction 1 as [|x y l k Hxy _ IH]; [done|].
  rewrite !fmap_cons. unfold Zsum in *. simpl. by rewrite Hxy, IH.
Qed.

Lemma Zsum_const {A} (f : A → Z) c l :
  Forall (λ x, f x = c) l → Zsum (f <$> l) = c * Z.of_nat (length l).
Proof.
  induction 1 as [|x l Hx _ IH]; [simpl; lia|].
  rewrite fmap_cons. unfold Zsum in *. simpl foldr. rewrite Hx, IH. simpl length. lia.
Qed.

(** A sum of terms bounded by [c] reaches [c] times their number only when
    every term is [c]. *)
Lemma Zsum_bounded {A} (f : A → Z) c l :
  Forall (λ x, f x ≤ c) l →
  Zsum (f <$> l) ≤ c * Z.of_nat (length l) ∧
  (Zsum (f <$> l) = c * Z.of_nat (length l) ↔ Forall (λ x, f x = c) l).
Proof.
  induction 1 as [|x l Hx _ [IH1 IH2]].
  - simpl. split; [lia|]. split; [constructor|lia].
  - rewrite fmap_cons. unfold Zsum in *. simpl foldr. simpl length.
    split; [lia|]. split.
    + intros Heq. assert (f x = c) by lia. constructor; [done|]. apply IH2. lia.
    + intros Hall. apply Forall_cons in Hall as [Hx' Hall]. apply IH2 in Hall. lia.
Qed.

(** Two different lists of one length differ at a position. *)
Lemma list_neq_lookup {A} `{EqDecision A} (l1 l2 : list A) :
  length l1 = length l2 → l1 ≠ l2 →
  ∃ j x y, l1 !! j = Some x ∧ l2 !! j = Some y ∧ x ≠ y.
Proof.
  revert l2. induction l1 as [|x l1 IH]; intros [|y l2] Hlen Hne; simpl in *;
    try done.
  destruct (decide (x = y)) as [->|Hxy].
  - destruct (IH l2) as (j & a & b & Ha & Hb & Hab); [lia|congruence|].
    by exists (S j), a, b.
  - by exists 0%nat, x, y.
Qed.

Section GroupDrawFacts.
Context {F : Type}.
Local Abbreviation reader := (GroupReader.reader F).
Implicit Types (g : GroupReader.t F) (r : reader).

Lemma zip_star_length_ge (samples : list (list (tensor F))) m :
  samples ≠ [] → Forall (λ s, m ≤ length s)%nat samples →
  (m ≤ length (zip_star samples))%nat.
Proof.
  intros Hne Hlen. unfold zip_star. destruct samples as [|s0 rest]; [done|].
  rewrite length_fmap, length_seq.
  assert (m ≤ length s0)%nat as Hs0 by (by inversion Hlen).
  revert Hs0. generalize (length s0). clear Hne.
  induction Hlen as [|s l Hs _ IH]; intros n Hn; simpl; [done|].
  specialize (IH n Hn). lia.
Qed.

Lemma zip_star_lookup (samples : list (list (tensor F))) j :
  (j < length (zip_star samples))%nat →
  zip_star samples !! j = Some (field samples j).
Proof.
  unfold zip_star. destruct samples as [|s0 rest]; [simpl; lia|].
  rewrite length_fmap, length_seq. intros Hj.
  rewrite list_lookup_fmap, lookup_seq_lt by done. done.
Qed.

Lemma batch_of_length (st : static) (batch : list (tensor F)) :
  batch_of st batch → length batch = length (s_shapes st).
Proof. intros Hb. by rewrite (Forall2_length _ _ _ Hb). Qed.

Lemma batch_of_head (st : static) (batch : list (tensor F)) :
  static_shapes st → batch_of st batch →
  ∃ b0 rest, batch = b0 :: rest ∧ t_fshape b0 = [1%nat] ∧
             (0 ≤ s_batch_size st → shape0 b0 = s_batch_size st).
Proof.
  intros [H0 _] Hb.
  destruct (Forall2_lookup_r _ _ _ _ _ Hb H0) as (b0 & Hb0 & Hs & Hn).
  destruct batch as [|b rest]; [done|]. injection Hb0 as ->. eauto.
Qed.

Lemma batch_of_descriptor (st : static) (batch : list (tensor F)) :
  static_shapes st → batch_of st batch →
  ∃ b1, batch !! 1%nat = Some b1 ∧ t_fshape b1 = [s_natm st; s_ndesc st].
Proof.
  intros [_ H1] Hb.
  destruct (Forall2_lookup_r _ _ _ _ _ Hb H1) as (b1 & Hb1 & Hs & _). eauto.
Qed.

Lemma sampled_from_used g g' :
  sampled_from g g' → GroupReader._sample_used g' = GroupReader._sample_used g.
Proof. intros [-> _ _]. done. Qed.

Lemma static_groups_members g gd n idxs :
  static_groups (statics g) gd → gd !! n = Some idxs →
  Forall (λ i, ∃ r, GroupReader.readers g !! i = Some r ∧ GroupReader.r_natm r = n) idxs.
Proof.
  intros Hgd Hn. destruct (Hgd n idxs Hn) as [_ Hall].
  eapply Forall_impl; [done|]. simpl. intros i (st & Hst & Hnat).
  destruct (statics_lookup_inv _ _ _ Hst) as (r & Hr & <-). eauto.
Qed.

Lemma st_nframes_lookup g i st :
  statics g !! i = Some st → st_nframes (statics g) i = s_nframes st.
Proof. intros H. unfold st_nframes. by rewrite H. Qed.

Lemma st_batch_size_lookup g i st :
  statics g !! i = Some st → st_batch_size (statics g) i = s_batch_size st.
Proof. intros H. unfold st_batch_size. by rewrite H. Qed.

Lemma Group_inv_batch_size g i st :
  Group_inv g → statics g !! i = Some st →
  0 < s_nframes st ∧
  s_batch_size st = Z.min (s_nframes st) (GroupReader.batch_size g).
Proof.
  intros Hinv Hst.
  pose proof (Forall_lookup_1 _ _ _ _ (ginv_batch_size g Hinv) Hst) as Hb.
  pose proof (Forall_lookup_1 _ _ _ _ (ginv_nonzero g Hinv) Hst) as Hn.
  simpl in *. destruct (decide _); lia.
Qed.

Lemma Zsum_st_nframes (sts : list static) :
  Zsum (st_nframes sts <$> seq 0 (length sts)) = Zsum (s_nframes <$> sts).
Proof.
  f_equal. apply list_eq. intros i. rewrite !list_lookup_fmap.
  destruct (decide (i < length sts)%nat) as [Hlt|Hge].
  - rewrite lookup_seq_lt by done. simpl. unfold st_nframes.
    destruct (sts !! i) eqn:E; [done|]. apply lookup_ge_None in E. lia.
  - rewrite lookup_seq_ge by lia. rewrite (lookup_ge_None_2 sts i) by lia. done.
Qed.

(** With group tables, [group_batch > 1]. *)
Lemma Group_inv_tables g gt :
  Group_inv g → GroupReader.groups g = Some gt →
  GroupReader.group_batch g > 1 ∧
  static_groups (statics g) (GroupReader.group_dict gt) ∧
  static_tables (statics g) (GroupReader.get_train_size g) gt ∧
  members (GroupReader.group_dict gt) ≡ₚ seq 0 (length (statics g)).
Proof.
  intros Hinv Hgt. pose proof (ginv_groups g Hinv) as Hg.
  destruct (decide (GroupReader.group_batch g > 1)); [|congruence].
  destruct Hg as (gt' & Hgt' & Hg). assert (gt' = gt) as -> by congruence. done.
Qed.

Lemma group_members_positive g gd n idxs :
  Group_inv g → static_groups (statics g) gd → gd !! n = Some idxs →
  idxs ≠ [] ∧
  Forall (λ i, ∃ st, statics g !! i = Some st ∧ s_natm st = n ∧ 0 < s_nframes st ∧
                     s_batch_size st = Z.min (s_nframes st) (GroupReader.batch_size g))
         idxs.
Proof.
  intros Hinv Hgd Hn. destruct (Hgd n idxs Hn) as [Hne Hall]. split; [done|].
  eapply Forall_impl; [exact Hall|]. simpl. intros i (st & Hst & Hnat).
  destruct (Group_inv_batch_size g i st Hinv Hst). eauto.
Qed.

(** The group probabilities: the entry of a group is its share of the
    frames; the entries are positive and sum to one. *)
Lemma group_prob_valid g gt :
  Group_inv g → GroupReader.groups g = Some gt →
  let gp := (map_to_list (GroupReader.group_prob gt)).*2 in
  length (map_to_list (GroupReader.group_prob gt)) ≠ 0%nat ∧
  valid_prob (length (map_to_list (GroupReader.group_prob gt))) gp ∧
  Forall (λ x, Qlt 0 x) gp ∧
  ∀ n idxs, GroupReader.group_dict gt !! n = Some idxs →
    GroupReader.group_prob gt !! n
      = Some (Qfrac (Zsum (st_nframes (statics g) <$> idxs))
                    (GroupReader.get_train_size g)) ∧
    Qlt 0 (Qfrac (Zsum (st_nframes (statics g) <$> idxs))
                 (GroupReader.get_train_size g)).
Proof.
  intros Hinv Hgt gp.
  destruct (Group_inv_tables g gt Hinv Hgt) as (_ & Hgd & [Htab _] & Hm).
  pose proof (Group_inv_total_pos g Hinv) as Htot.
  set (nf := st_nframes (statics g)) in *.
  set (total := GroupReader.get_train_size g) in *.
  set (gd := GroupReader.group_dict gt) in *.
  assert (∀ n idxs, gd !! n = Some idxs → 0 < Zsum (nf <$> idxs)) as Hpos.
  { intros n idxs Hn. destruct (group_members_positive g gd n idxs Hinv Hgd Hn)
      as [Hne Hall].
    apply Zsum_pos; [|by destruct idxs].
    apply Forall_fmap. eapply Forall_impl; [exact Hall|]. simpl.
    intros i (st & Hst & _ & Hp & _). unfold nf. by rewrite (st_nframes_lookup _ _ _ Hst). }
  assert (gp = (λ idxs, Qfrac (Zsum (nf <$> idxs)) total) <$> (map_to_list gd).*2) as Hgp.
  { unfold gp. rewrite Htab, map_to_list_fmap, <- !list_fmap_compose.
    apply list_fmap_ext. by intros _ [n idxs] _. }
  assert (length (map_to_list (GroupReader.group_prob gt)) = length (map_to_list gd)) as Hlen.
  { by rewrite Htab, map_to_list_fmap, length_fmap. }
  assert (map_to_list gd ≠ []) as Hne.
  { intros Hnil. unfold members in Hm. fold gd in Hm. rewrite Hnil in Hm. simpl in Hm.
    symmetry in Hm. apply Permutation_nil_r in Hm.
    pose proof (ginv_nonempty g Hinv). by destruct (statics g). }
  assert (Forall (λ x, Qlt 0 x) gp) as Hgpos.
  { rewrite Hgp. apply Forall_fmap, Forall_fmap. apply Forall_forall.
    intros [n idxs] Hin. simpl. apply elem_of_map_to_list in Hin.
    apply Qfrac_pos; [by eapply Hpos|done]. }
  split_and!.
  - rewrite Hlen. by destruct (map_to_list gd).
  - unfold valid_prob. split_and!.
    + unfold gp. by rewrite length_fmap.
    + eapply Forall_impl; [exact Hgpos|]. simpl. intros x. apply Qlt_le_weak.
    + rewrite Hgp.
      assert ((λ idxs, Qfrac (Zsum (nf <$> idxs)) total) <$> (map_to_list gd).*2
              = (λ ii, Qfrac ii total)
                  <$> ((λ idxs, Zsum (nf <$> idxs)) <$> (map_to_list gd).*2)) as ->
        by exact (list_fmap_compose (λ idxs, Zsum (nf <$> idxs))
                    (λ ii, Qfrac ii total) _).
      rewrite Qsum_Qfrac, Zsum_concat. fold (members gd).
      rewrite (Zsum_Permutation _ (nf <$> seq 0 (length (statics g))))
        by (by apply fmap_Permutation).
      unfold nf. rewrite Zsum_st_nframes, <- (ginv_nframes g Hinv).
      apply Qfrac_self. unfold total, GroupReader.get_train_size in *. lia.
  - done.
  - intros n idxs Hn. split; [|apply Qfrac_pos; [by eapply Hpos|done]].
    by rewrite Htab, lookup_fmap, Hn.
Qed.

(** The weight of a reader in its group. *)
Definition batch_weight (sts : list static) (i : nat) : Q :=
  Qfrac (st_nframes sts i) (st_batch_size sts i).

Lemma batch_prob_raw_positive g gd n idxs :
  Group_inv g → 0 < GroupReader.batch_size g →
  static_groups (statics g) gd → gd !! n = Some idxs →
  (λ i, f64_div (f64_of_Z (st_nframes (statics g) i))
                (f64_of_Z (st_batch_size (statics g) i))) <$> idxs
    = Fin <$> (batch_weight (statics g) <$> idxs) ∧
  Forall (λ x, Qlt 0 x) (batch_weight (statics g) <$> idxs) ∧
  batch_weight (statics g) <$> idxs ≠ [].
Proof.
  intros Hinv Hbs Hgd Hn.
  destruct (group_members_positive g gd n idxs Hinv Hgd Hn) as [Hne Hall].
  rewrite Forall_forall in Hall.
  split_and!.
  - rewrite <- list_fmap_compose. apply list_fmap_ext. intros k i Hk.
    destruct (Hall i) as (st & Hst & _ & Hnf & Hb); [by eapply list_elem_of_lookup_2|].
    simpl. unfold batch_weight, f64_div, f64_of_Z, Qfrac.
    rewrite (st_batch_size_lookup _ _ _ Hst).
    assert (Qeq_bool (inject_Z (s_batch_size st)) 0 = false) as ->; [|done].
    destruct (Qeq_bool _ _) eqn:E; [|done].
    apply Qeq_bool_iff in E. unfold Qeq in E. simpl in E. lia.
  - apply Forall_fmap, Forall_forall. intros i Hi.
    destruct (Hall i Hi) as (st & Hst & _ & Hnf & Hb). simpl. unfold batch_weight.
    rewrite (st_nframes_lookup _ _ _ Hst), (st_batch_size_lookup _ _ _ Hst).
    apply Qfrac_pos; lia.
  - by destruct idxs.
Qed.

(** The batch probabilities of a group, for a positive batch size: the
    weights [nframes / batch_size] of its readers, normalised; they are
    positive and sum to one. *)
Lemma batch_prob_valid g gt n idxs :
  Group_inv g → GroupReader.groups g = Some gt → 0 < GroupReader.batch_size g →
  GroupReader.group_dict gt !! n = Some idxs →
  let ws := batch_weight (statics g) <$> idxs in
  GroupReader.batch_prob gt !! n = Some (Fin <$> normalize ws) ∧
  valid_prob (length idxs) (normalize ws) ∧
  Forall (λ x, Qlt 0 x) (normalize ws) ∧ idxs ≠ [].
Proof.
  intros Hinv Hgt Hbs Hn ws.
  destruct (Group_inv_tables g gt Hinv Hgt) as (_ & Hgd & [_ Htab] & _).
  destruct (batch_prob_raw_positive g _ n idxs Hinv Hbs Hgd Hn) as (Hraw & Hpos & Hne).
  fold ws in Hraw, Hpos, Hne.
  destruct (normalize_valid_prob ws Hpos Hne) as (Hnorm & Hvalid & Hnpos).
  split_and!; [| |done|by destruct idxs].
  - rewrite Htab, lookup_fmap, Hn. apply (f_equal Some). cbv beta.
    by rewrite Hraw, Hnorm.
  - unfold ws in Hvalid. by rewrite length_fmap in Hvalid.
Qed.

(** With a batch size of zero the weights are infinite, the batch
    probabilities NaN, and the draw of the systems is refused. *)
Lemma batch_prob_zero g gt n idxs :
  Group_inv g → GroupReader.groups g = Some gt → GroupReader.batch_size g = 0 →
  GroupReader.group_dict gt !! n = Some idxs →
  ∃ p, GroupReader.batch_prob gt !! n = Some p ∧
       np_random_choice_check (length idxs) p = Err ValueError.
Proof.
  intros Hinv Hgt Hbs Hn.
  destruct (Group_inv_tables g gt Hinv Hgt) as (_ & Hgd & [_ Htab] & _).
  destruct (group_members_positive g _ n idxs Hinv Hgd Hn) as [Hne Hall].
  eexists. split; [by rewrite Htab, lookup_fmap, Hn|].
  match goal with |- context [f64_normalize ?raw] => set (p := raw) end.
  assert (length idxs = length p) as -> by (unfold p; by rewrite length_fmap).
  apply choice_check_PInf.
  - unfold p. by destruct idxs.
  - unfold p. apply Forall_fmap. eapply Forall_impl; [exact Hall|]. simpl.
    intros i (st & Hst & _ & Hnf & Hb).
    rewrite (st_nframes_lookup _ _ _ Hst), (st_batch_size_lookup _ _ _ Hst).
    assert (s_batch_size st = 0) as -> by lia.
    unfold f64_div, f64_of_Z.
    assert (Qeq_bool (inject_Z 0) 0 = true) as -> by done.
    assert (Qeq_bool (inject_Z (s_nframes st)) 0 = false) as ->.
    { destruct (Qeq_bool _ _) eqn:E; [|done].
      apply Qeq_bool_iff in E. unfold Qeq in E. simpl in E. lia. }
    assert (Qle_bool 0 (inject_Z (s_nframes st)) = true) as ->; [|done].
    apply Qle_bool_iff. unfold Qle. simpl. lia.
Qed.

(** For a positive batch size the two tables pass the checks: the draws
    numpy can return are a key and [group_batch] positions of its group. *)
Lemma valid_group_draws_intro g gt cnatm cgrp csys perms :
  Group_inv g → GroupReader.groups g = Some gt → 0 < GroupReader.batch_size g →
  GroupReader.group_dict gt !! cnatm = Some cgrp →
  Z.of_nat (length csys) = GroupReader.group_batch g →
  Forall2 (λ k perm, ∃ i r, cgrp !! k = Some i ∧ GroupReader.readers g !! i = Some r ∧
                            is_permutation_of_range (GroupReader.r_nframes r) perm)
          csys perms →
  GroupReader.valid_group_draws g cnatm csys perms.
Proof.
  intros Hinv Hgt Hbs Hcgrp Hlen Hdraw gt' Hgt'.
  assert (gt' = gt) as -> by congruence.
  destruct (group_prob_valid g gt Hinv Hgt) as (Hnz & Hvalid & _ & Hgp).
  destruct (batch_prob_valid g gt cnatm cgrp Hinv Hgt Hbs Hcgrp) as (Hbp & Hbvalid & _ & Hne).
  split; [by apply choice_check_valid_prob|].
  split; [destruct (Hgp cnatm cgrp Hcgrp) as [-> _]; by eexists|].
  eexists cgrp, _. split; [done|]. split; [exact Hbp|].
  split; [apply choice_check_valid_prob; [by destruct cgrp|done]|]. done.
Qed.

(** A call of [sample_train_group] with draws numpy can return: the readers
    drawn are readers of the group; [sample_train] is called on each in
    turn; samples of one shape are joined field by field along the frame
    axis; two readers drawn whose shapes differ make the join raise. *)
Lemma sample_train_group_outcome g cnatm csys perms :
  Group_inv g → GroupReader.group_batch g > 1 →
  GroupReader.valid_group_draws g cnatm csys perms →
  ∃ gt cgrp drawn g' samples,
    let rs := GroupReader.readers g in
    GroupReader.groups g = Some gt ∧
    GroupReader.group_dict gt !! cnatm = Some cgrp ∧
    Forall2 (λ k i, cgrp !! k = Some i) csys drawn ∧
    Z.of_nat (length drawn) = GroupReader.group_batch g ∧
    Forall (λ i, ∃ r, rs !! i = Some r ∧ GroupReader.r_natm r = cnatm) drawn ∧
    sampled_from g g' ∧
    Forall2 (λ i batch, ∃ r, rs !! i = Some r ∧ batch_of (r_static r) batch)
            drawn samples ∧
    pmapM (λ sp : nat * list Z,
             GroupReader.at_reader (Z.of_nat sp.1) (GroupReader.r_sample_train sp.2))
          (zip drawn perms) g = Return g' samples ∧
    ((∀ i j ri rj, i ∈ drawn → j ∈ drawn → rs !! i = Some ri → rs !! j = Some rj →
        r_shapes ri = r_shapes rj) →
     ∃ b0 rest,
       GroupReader.sample_train_group cnatm csys perms g = Return g' (b0 :: rest) ∧
       rest ≠ [] ∧
       ∀ j b, (b0 :: rest) !! j = Some b →
         t_frames b = concat (t_frames <$> field samples j) ∧
         Forall2 (λ s x, s !! j = Some x) samples (field samples j) ∧
         Forall (λ i, ∃ r, rs !! i = Some r ∧ r_shapes r !! j = Some (t_fshape b)) drawn ∧
         shape0 b = Zsum (shape0 <$> field samples j)) ∧
    (∀ i j ri rj, i ∈ drawn → j ∈ drawn → rs !! i = Some ri → rs !! j = Some rj →
       r_shapes ri ≠ r_shapes rj →
       GroupReader.sample_train_group cnatm csys perms g = Raised g' RuntimeError).
Proof.
  intros Hinv Hgb Hvalid.
  destruct (sample_train_group_samples g _ _ _ Hinv Hgb Hvalid)
    as (gt & cgrp & drawn & g' & samples & Hgt & Hcgrp & Hdrawn & Hlen & Hlp & Hsf
        & Hsamples & Hpmap & Hgroup).
  destruct (Group_inv_tables g gt Hinv Hgt) as (_ & Hgd & _).
  pose proof (static_groups_members g _ _ _ Hgd Hcgrp) as Hmembers.
  assert (Forall (λ i, ∃ r, GroupReader.readers g !! i = Some r
                            ∧ GroupReader.r_natm r = cnatm) drawn) as Hdr.
  { apply Forall_forall. intros i Hi. apply list_elem_of_lookup in Hi as [p Hp].
    destruct (Forall2_lookup_r _ _ _ _ _ Hdrawn Hp) as (k & _ & Hk).
    rewrite Forall_forall in Hmembers. apply Hmembers.
    apply list_elem_of_lookup. eauto. }
  assert (Forall2 (λ i batch, ∃ r, GroupReader.readers g !! i = Some r
                                   ∧ batch_of (r_static r) batch) drawn samples) as Hsam.
  { eapply Forall2_impl; [exact Hsamples|]. simpl. intros i batch (st & Hst & Hb).
    destruct (statics_lookup_inv _ _ _ Hst) as (r & Hr & <-). eauto. }
  destruct (ginv_fields g Hinv) as [m Hm].
  assert (Forall (λ s, length s = m) samples) as Hlens.
  { apply Forall_forall. intros s Hs. apply list_elem_of_lookup in Hs as [p Hp].
    destruct (Forall2_lookup_r _ _ _ _ _ Hsamples Hp) as (i & _ & st & Hst & Hb).
    rewrite (batch_of_length _ _ Hb).
    exact (Forall_lookup_1 _ _ _ _ Hm Hst). }
  assert (samples ≠ []) as Hsne.
  { pose proof (Forall2_length _ _ _ Hsamples) as Hl. destruct samples; [|done].
    simpl in Hl. lia. }
  exists gt, cgrp, drawn, g', samples. simpl.
  split_and!; try done.
  - (* one shape *)
    intros Hsame.
    destruct drawn as [|i0 drawn'] eqn:Hd; [simpl in Hlen; lia|].
    assert (∃ r0, GroupReader.readers g !! i0 = Some r0) as (r0 & Hr0).
    { apply Forall_cons in Hdr as [(r0 & Hr0 & _) _]. eauto. }
    rewrite <- Hd in *.
    assert (i0 ∈ drawn) as Hi0 by (rewrite Hd; left).
    assert (Forall (λ s, Forall2 (λ b sh, t_fshape b = sh) s (r_shapes r0)) samples)
      as Hshs.
    { apply Forall_forall. intros s Hs. apply list_elem_of_lookup in Hs as [p Hp].
      destruct (Forall2_lookup_r _ _ _ _ _ Hsam Hp) as (i & Hi & r & Hr & Hb).
      rewrite (Hsame i0 i r0 r Hi0 (list_elem_of_lookup_2 _ _ _ Hi) Hr0 Hr).
      eapply Forall2_impl; [exact Hb|]. simpl. by intros b sh [? _]. }
    destruct (join_samples samples (r_shapes r0) Hsne Hshs)
      as (batch & Hjoin & Hbshape & Hfields).
    rewrite Hjoin in Hgroup.
    assert (2 ≤ length batch)%nat as Hl2.
    { rewrite (Forall2_length _ _ _ Hbshape).
      pose proof (Forall_lookup_1 _ _ _ _ (ginv_shapes g Hinv)
                    (statics_lookup _ _ _ Hr0)) as [_ H1].
      apply lookup_lt_Some in H1. simpl in H1. lia. }
    destruct batch as [|b0 rest]; [simpl in Hl2; lia|].
    exists b0, rest. split; [done|].
    split; [destruct rest; [simpl in Hl2; lia|done]|].
    intros j b Hb. destruct (Hfields j b Hb) as (Hfr & Hfield & Hsz).
    destruct (Forall2_lookup_l _ _ _ _ _ Hbshape Hb) as (sh & Hsh & Hbsh).
    split_and!; try done.
    apply Forall_forall. intros i Hi.
    rewrite Forall_forall in Hdr. destruct (Hdr i Hi) as (r & Hr & _).
    exists r. split; [done|].
    rewrite <- (Hsame i0 i r0 r Hi0 Hi Hr0 Hr). congruence.
  - (* two shapes *)
    intros i j ri rj Hi Hj Hri Hrj Hne. rewrite Hgroup.
    assert (∀ i r, i ∈ drawn → GroupReader.readers g !! i = Some r →
              ∃ s, s ∈ samples ∧ Forall2 (λ b sh, t_fshape b = sh) s (r_shapes r))
      as Hsample.
    { intros i' r Hi' Hr. apply list_elem_of_lookup in Hi' as [p Hp].
      destruct (Forall2_lookup_l _ _ _ _ _ Hsam Hp) as (s & Hs & r' & Hr' & Hb).
      assert (r' = r) as -> by congruence.
      exists s. split; [by eapply list_elem_of_lookup_2|].
      eapply Forall2_impl; [exact Hb|]. simpl. by intros b sh [? _]. }
    destruct (Hsample i ri Hi Hri) as (s1 & Hs1 & Hsh1).
    destruct (Hsample j rj Hj Hrj) as (s2 & Hs2 & Hsh2).
    assert (length (r_shapes ri) = length (r_shapes rj)) as Hll.
    { rewrite <- (Forall2_length _ _ _ Hsh1), <- (Forall2_length _ _ _ Hsh2).
      rewrite Forall_forall in Hlens. by rewrite (Hlens _ Hs1), (Hlens _ Hs2). }
    destruct (list_neq_lookup _ _ Hll Hne) as (k & x & y & Hx & Hy & Hxy).
    destruct (Forall2_lookup_r _ _ _ _ _ Hsh1 Hx) as (b1 & Hb1 & Hbx).
    destruct (Forall2_lookup_r _ _ _ _ _ Hsh2 Hy) as (b2 & Hb2 & Hby).
    rewrite (join_samples_mismatch samples m k s1 s2 b1 b2); try done. congruence.
Qed.
End GroupDrawFacts.

(** * The claims *)

(** ** Concrete systems *)

(** A directory with [system.raw], one label per frame, a descriptor that
    repeats the label of its frame, zero forces and gradients, and the
    convergence mask [conv]. *)
Definition example_dir (natm nproj : nat) (labels : list Z) (conv : list bool)
    : system_dir Z :=
  let n := length labels in
  SystemDir (Some [natm; nproj])
    (list_to_map
       [("l_e_delta.npy", Npy [n] labels);
        ("dm_eig.npy", Npy [n; natm; nproj]
                         (concat ((λ x, replicate (natm * nproj) x) <$> labels)));
        ("l_f_delta.npy", Npy [n; natm; 3%nat] (replicate (n * natm * 3) 0));
        ("grad_vx.npy", Npy [n; natm; 3%nat; natm; nproj]
                          (replicate (n * natm * 3 * natm * nproj) 0))])
    (list_to_map [("conv.npy", conv)]).

Section Claims.
Context {F : Type}.

Lemma Reader_class_any_batch_size wf wo (path : system_dir F) bs bs' kw r log :
  GroupReader.Reader_class wf wo path bs kw = Ok (r, log) →
  ∃ r' log', GroupReader.Reader_class wf wo path bs' kw = Ok (r', log').
Proof.
  unfold GroupReader.Reader_class. intros H.
  destruct wo; [|destruct wf]; inv_rbind H; clear H.
  - unfold OrbitalReader.__init__ in *. inv_rbind E.
    repeat (cbn [rbind];
            try match goal with
              | E : ?m = Ok _ |- context [rbind ?m _] => rewrite E
              end).
    eauto.
  - unfold ForceReader.__init__ in *. inv_rbind E.
    repeat (cbn [rbind];
            try match goal with
              | E : ?m = Ok _ |- context [rbind ?m _] => rewrite E
              end).
    eauto.
  - unfold Reader.__init__ in *. inv_rbind E.
    repeat (cbn [rbind];
            try match goal with
              | E : ?m = Ok _ |- context [rbind ?m _] => rewrite E
              end).
    eauto.
Qed.

(** C8. For each of the three dataset classes: when the number of frames
    kept by the convergence mask is smaller than the requested batch size,
    construction sets the batch size to that number and prints the
    diagnostic, and still succeeds (as it does for any requested batch
    size); otherwise the batch size is the requested one.  A constructed
    dataset never reports a batch size larger than its frame count. *)
Theorem batch_size_clamped_to_nframes
    wf wo (path : system_dir F) (batch_size : Z) kw r log :
  GroupReader.Reader_class wf wo path batch_size kw = Ok (r, log) →
  ∃ conv,
    (if GroupReader.kw_conv_filter kw
     then np_load_mask path (GroupReader.kw_conv_name kw +:+ ".npy") = Ok conv
     else ∃ raw_nframes, conv = replicate raw_nframes true) ∧
    r_get_nframes r = count_true conv ∧
    (r_get_nframes r < batch_size →
       r_get_batch_size r = r_get_nframes r ∧
       ResetBatchSize path (r_get_nframes r) ∈ log) ∧
    (batch_size ≤ r_get_nframes r → r_get_batch_size r = batch_size) ∧
    r_get_batch_size r ≤ r_get_nframes r ∧
    (∀ requested, ∃ r' log',
       GroupReader.Reader_class wf wo path requested kw = Ok (r', log')).
Proof.
  intros H.
  destruct (Reader_class_Ok _ _ _ _ _ _ _ H) as (conv & Hc & _ & Hn & Hb & Hl & _).
  assert (r_get_nframes r = GroupReader.r_nframes r) as Hgn by (by destruct r).
  assert (r_get_batch_size r = GroupReader.r_batch_size r) as Hgb by (by destruct r).
  exists conv. rewrite Hgn, Hgb, Hn, Hb. split_and!; try done.
  - intros Hlt. rewrite decide_True by done. auto.
  - intros Hge. rewrite decide_False by lia. done.
  - destruct (decide _); lia.
  - intros bs'. by eapply Reader_class_any_batch_size.
Qed.
End Claims.

(** Three raw frames, requested batch size 10, all-true mask: three frames
    and batch size three, for the plain class. *)
Lemma batch_size_clamped_example :
  ∃ r log,
    GroupReader.Reader_class false false
      (example_dir 1 2 [10; 20; 30] [true; true; true]) 10
      GroupReader.default_kwargs = Ok (r, log) ∧
    r_get_nframes r = 3 ∧ r_get_batch_size r = 3.
Proof.
  eexists _, _. split; [vm_compute; reflexivity|].
  edestruct (batch_size_clamped_to_nframes false false
               (example_dir 1 2 [10; 20; 30] [true; true; true]) 10
               GroupReader.default_kwargs) as (conv & Hc & Hn & Hlt & _);
    [vm_compute; reflexivity|].
  simpl in Hc. vm_compute in Hc. injection Hc as <-.
  split; [exact Hn|]. apply Hlt. rewrite Hn. vm_compute. reflexivity.
Defined.

Section ClaimsSingleSystem.
Context {F : Type}.

(** C1. Policy A, block cursor.  For a constructed [Reader] (so that
    [batch_size <= nframes]), in any state it reaches and outside the case
    [nframes == batch_size == 1], a call of [sample_train] returns; it
    advances the cursor by [batch_size]; when the advanced cursor exceeds
    [nframes] the cursor becomes [batch_size] and the label and descriptor
    arrays are both reordered by the permutation drawn, which keeps their
    frames; otherwise the arrays are untouched; and the batch is the slice
    [cursor - batch_size, cursor) of the arrays as stored after the call. *)
Theorem Reader_sample_train_block_cursor
    (path : system_dir F) requested e_name d_name conv_filter conv_name
    (r0 self : Reader.t F) log (perm : list Z) :
  Reader.__init__ path requested e_name d_name conv_filter conv_name = Ok (r0, log) →
  Reader.reachable r0 self →
  ¬ (Reader.nframes self = Reader.batch_size self ∧ Reader.batch_size self = 1) →
  is_permutation_of_range (Reader.nframes self) perm →
  Reader.batch_size self ≤ Reader.nframes self ∧
  ∃ self' ec dm,
    Reader.sample_train perm self = Return self' [ec; dm] ∧
    block_cursor_step self perm self' ec dm.
Proof.
  intros Hinit Hreach Hnd Hperm.
  pose proof (Reader_reachable_inv _ _ (Reader_init_inv _ _ _ _ _ _ _ _ Hinit) Hreach)
    as Hinv.
  split; [by destruct Hinv|].
  destruct (Reader_sample_train_step self perm Hinv Hnd Hperm)
    as (self' & ec & dm & Hs & _ & Hstep).
  by exists self', ec, dm.
Qed.
End ClaimsSingleSystem.

(** Checking that a list is a permutation of a range. *)
Fixpoint remove_first (x : Z) (l : list Z) : option (list Z) :=
  match l with
  | [] => None
  | y :: l => if x =? y then Some l else (y ::.) <$> remove_first x l
  end.
Fixpoint permutation_check (l1 l2 : list Z) : bool :=
  match l1 with
  | [] => match l2 with [] => true | _ => false end
  | x :: l1 =>
      match remove_first x l2 with
      | Some l2' => permutation_check l1 l2'
      | None => false
      end
  end.

Lemma remove_first_Some x l l' : remove_first x l = Some l' → l ≡ₚ x :: l'.
Proof.
  revert l'. induction l as [|y l IH]; intros l'; simpl; [done|].
  destruct (Z.eqb_spec x y) as [->|Hne].
  - by intros [= ->].
  - destruct (remove_first x l) as [l2|]; simpl; [|done].
    intros [= <-]. rewrite (IH l2 eq_refl). apply perm_swap.
Qed.

Lemma permutation_check_sound l1 l2 : permutation_check l1 l2 = true → l1 ≡ₚ l2.
Proof.
  revert l2. induction l1 as [|x l1 IH]; intros l2; simpl.
  - by destruct l2.
  - destruct (remove_first x l2) as [l2'|] eqn:Hr; [|done].
    intros H. rewrite (remove_first_Some _ _ _ Hr). constructor. by apply IH.
Qed.

Ltac solve_permutation :=
  unfold is_permutation_of_range; apply permutation_check_sound;
  vm_compute; reflexivity.

(** Three frames, batch size two: the first call returns frames 0 and 1; the
    second one exhausts the epoch and reorders the arrays by the permutation
    drawn, here [2; 0; 1]. *)
Lemma Reader_sample_train_example :
  ∃ r0 log r1 b1,
    Reader.__init__ (example_dir 1 2 [10; 20; 30] [true; true; true]) 2
      "l_e_delta" ["dm_eig"] true "conv" = Ok (r0, log) ∧
    Reader.sample_train [0; 1; 2] r0 = Return r1 b1 ∧
    Reader.batch_size r1 ≤ Reader.nframes r1 ∧
    ∃ r2 ec dm,
      Reader.sample_train [2; 0; 1] r1 = Return r2 [ec; dm] ∧
      block_cursor_step r1 [2; 0; 1] r2 ec dm.
Proof.
  eexists _, _, _, _.
  split; [vm_compute; reflexivity|]. split; [vm_compute; reflexivity|].
  eapply (Reader_sample_train_block_cursor
            (example_dir 1 2 [10; 20; 30] [true; true; true]) 2
            "l_e_delta" ["dm_eig"] true "conv").
  - vm_compute; reflexivity.
  - eapply (Reader.reach_step _ _ [0; 1; 2]);
      [apply Reader.reach_init|solve_permutation|vm_compute; reflexivity].
  - vm_compute. intros [? ?]. discriminate.
  - solve_permutation.
Defined.

(** The values of this run. *)
Example Reader_sample_train_run :
  let d := example_dir 1 2 [10; 20; 30] [true; true; true] in
  ∃ r0 log r1 b1 r2 ec dm,
    Reader.__init__ d 2 "l_e_delta" ["dm_eig"] true "conv" = Ok (r0, log) ∧
    Reader.sample_train [0; 1; 2] r0 = Return r1 b1 ∧
    (t_frames <$> b1) = [[[10]; [20]]; [[10; 10]; [20; 20]]] ∧
    Reader.index_count_all r1 = 2 ∧
    Reader.sample_train [2; 0; 1] r1 = Return r2 [ec; dm] ∧
    Reader.index_count_all r2 = 2 ∧
    t_frames (Reader.data_ec r2) = [[30]; [10]; [20]] ∧
    t_frames ec = [[30]; [10]] ∧
    t_frames dm = [[30; 30]; [10; 10]].
Proof.
  eexists _, _, _, _, _, _, _.
  split; [vm_compute; reflexivity|]. split; [vm_compute; reflexivity|].
  split; [vm_compute; reflexivity|]. split; [vm_compute; reflexivity|].
  split; [vm_compute; reflexivity|]. by vm_compute.
Qed.

Section ClaimsQueue.
Context {F : Type}.
Local Abbreviation reader := (GroupReader.reader F).
Implicit Types (r self : reader).

(** The states a reader of any class goes through. *)
Inductive r_reachable (r0 : reader) : reader → Prop :=
  | r_reach_init : r_reachable r0 r0
  | r_reach_step self perm self' b :
      r_reachable r0 self →
      is_permutation_of_range (GroupReader.r_nframes self) perm →
      GroupReader.r_sample_train perm self = Return self' b →
      r_reachable r0 self'.

(** The index queue of a [ForceReader] or an [OrbitalReader]. *)
Definition r_idx_queue r : list Z :=
  match r with
  | GroupReader.RPlain _ => []
  | GroupReader.RForce r => ForceReader.idx_queue r
  | GroupReader.ROrbital r => OrbitalReader.idx_queue r
  end.
Definition has_queue r : Prop :=
  match r with GroupReader.RPlain _ => False | _ => True end.

Lemma r_reachable_inv r0 self :
  r_inv r0 → r_reachable r0 self → r_inv self.
Proof.
  intros H0. induction 1 as [|self perm self' b _ IH Hperm Hs]; [done|].
  destruct (r_sample_train_Return self perm IH Hperm) as (r' & b' & Hs' & Hinv & _).
  congruence.
Qed.

Lemma r_reachable_has_queue r0 self :
  has_queue r0 → r_reachable r0 self → has_queue self.
Proof.
  intros H0. induction 1 as [|self perm self' b _ IH Hperm Hs]; [done|].
  destruct self as [x|x|x]; [done| |]; simpl in Hs.
  - destruct (ForceReader.sample_train perm x); simpl in Hs; [|done].
    by injection Hs as <- _.
  - destruct (OrbitalReader.sample_train perm x); simpl in Hs; [|done].
    by injection Hs as <- _.
Qed.

Lemma Reader_class_has_queue wf wo (path : system_dir F) bs kw r log :
  wf || wo = true →
  GroupReader.Reader_class wf wo path bs kw = Ok (r, log) → has_queue r.
Proof.
  unfold GroupReader.Reader_class. intros Hq H.
  destruct wo; [|destruct wf; [|done]]; inv_rbind H; by injection H as <- _.
Qed.

(** C2. Policy B, queue.  For a constructed [ForceReader] or
    [OrbitalReader], in any state it reaches and outside the case
    [nframes == batch_size == 1], a call of [sample_train] returns; when
    fewer than [batch_size] indices are left in the queue, the whole queue
    is replaced by the permutation drawn and what was left is dropped; the
    sample indices are the first [batch_size] entries of the queue, exactly
    [batch_size] of them; they are removed from the front of the queue; and
    the batch holds the frames of the stored tensors at these indices, the
    stored tensors being left as they were. *)
Theorem queue_sample_train
    wf wo (path : system_dir F) requested kw r0 log self (perm : list Z) :
  wf || wo = true →
  GroupReader.Reader_class wf wo path requested kw = Ok (r0, log) →
  r_reachable r0 self →
  ¬ (GroupReader.r_batch_size self = GroupReader.r_nframes self
     ∧ GroupReader.r_nframes self = 1) →
  is_permutation_of_range (GroupReader.r_nframes self) perm →
  ∃ self' batch,
    GroupReader.r_sample_train perm self = Return self' batch ∧
    queue_step (GroupReader.r_batch_size self) (r_idx_queue self) perm
      (r_idx_queue self') (r_stored self) (r_stored self') batch.
Proof.
  intros Hq Hinit Hreach Hnd Hperm.
  destruct (Reader_class_Ok _ _ _ _ _ _ _ Hinit) as (_ & _ & _ & _ & _ & _ & Hinv0).
  pose proof (r_reachable_inv _ _ Hinv0 Hreach) as Hinv.
  pose proof (r_reachable_has_queue _ _ (Reader_class_has_queue _ _ _ _ _ _ _ Hq Hinit)
                Hreach) as Hhq.
  destruct Hinv as [Hinv _].
  destruct self as [x|x|x]; [done| |]; simpl in *.
  - destruct (Force_sample_train_step x perm Hinv Hnd Hperm)
      as (x' & batch & -> & _ & _ & _ & _ & Hstep).
    by exists (GroupReader.RForce x'), batch.
  - destruct (Orbital_sample_train_step x perm Hinv Hnd Hperm)
      as (x' & batch & -> & _ & _ & _ & _ & Hstep).
    by exists (GroupReader.ROrbital x'), batch.
Qed.
End ClaimsQueue.

(** Seven frames, batch size three, a [ForceReader]: the third call finds one
    index left, drops it and refills the queue. *)
Lemma queue_sample_train_example :
  let d := example_dir 1 2 [10; 20; 30; 40; 50; 60; 70]
             [true; true; true; true; true; true; true] in
  let perm1 := [6; 0; 3; 1; 5; 2; 4] in
  let perm2 := [2; 1; 0; 6; 5; 4; 3] in
  ∃ r0 log r1 b1 r2 b2,
    GroupReader.Reader_class true false d 3 GroupReader.default_kwargs = Ok (r0, log) ∧
    GroupReader.r_sample_train perm1 r0 = Return r1 b1 ∧
    GroupReader.r_sample_train perm1 r1 = Return r2 b2 ∧
    r_idx_queue r2 = [4] ∧
    ∃ r3 b3,
      GroupReader.r_sample_train perm2 r2 = Return r3 b3 ∧
      queue_step (GroupReader.r_batch_size r2) (r_idx_queue r2) perm2
        (r_idx_queue r3) (r_stored r2) (r_stored r3) b3.
Proof.
  intros d perm1 perm2. eexists _, _, _, _, _, _.
  split; [vm_compute; reflexivity|]. split; [vm_compute; reflexivity|].
  split; [vm_compute; reflexivity|]. split; [vm_compute; reflexivity|].
  eapply (queue_sample_train true false d 3 GroupReader.default_kwargs).
  - reflexivity.
  - vm_compute; reflexivity.
  - eapply (r_reach_step _ _ perm1).
    + eapply (r_reach_step _ _ perm1);
        [apply r_reach_init|solve_permutation|vm_compute; reflexivity].
    + solve_permutation.
    + vm_compute; reflexivity.
  - vm_compute. intros [? ?]. discriminate.
  - solve_permutation.
Defined.

(** The values of this run: the batches are the frames at [6; 0; 3], at
    [1; 5; 2] and, after the refill, at [2; 1; 0]; index [4], left over from
    the first permutation, is in no batch. *)
Example queue_sample_train_run :
  let d := example_dir 1 2 [10; 20; 30; 40; 50; 60; 70]
             [true; true; true; true; true; true; true] in
  let perm1 := [6; 0; 3; 1; 5; 2; 4] in
  let perm2 := [2; 1; 0; 6; 5; 4; 3] in
  ∃ r0 log r1 b1 r2 b2 r3 b3,
    GroupReader.Reader_class true false d 3 GroupReader.default_kwargs = Ok (r0, log) ∧
    GroupReader.r_sample_train perm1 r0 = Return r1 b1 ∧
    GroupReader.r_sample_train perm1 r1 = Return r2 b2 ∧
    GroupReader.r_sample_train perm2 r2 = Return r3 b3 ∧
    (t_frames <$> b1) !! 0%nat = Some [[70]; [10]; [40]] ∧
    (t_frames <$> b2) !! 0%nat = Some [[20]; [60]; [30]] ∧
    (t_frames <$> b3) !! 0%nat = Some [[30]; [20]; [10]] ∧
    r_idx_queue r1 = [1; 5; 2; 4] ∧ r_idx_queue r2 = [4] ∧
    r_idx_queue r3 = [6; 5; 4; 3].
Proof.
  intros d perm1 perm2. eexists _, _, _, _, _, _, _, _.
  split; [vm_compute; reflexivity|]. split; [vm_compute; reflexivity|].
  split; [vm_compute; reflexivity|]. split; [vm_compute; reflexivity|].
  by vm_compute.
Qed.

Section ClaimsGroupInit.
Context {F : Type}.
Local Abbreviation reader := (GroupReader.reader F).
Local Abbreviation built := (reader * list (diagnostic F))%type.














End ClaimsGroupInit.








Section ClaimsGroupIter.
Context {F : Type}.
Local Abbreviation reader := (GroupReader.reader F).
Implicit Types (g : GroupReader.t F).

(** What a group draw with the draws [d] does in the state [g]: the group
    of the key drawn, the readers drawn in it, and the samples that
    [sample_train] returns on these readers, called one after the other,
    which leave the state [g']. *)
Definition group_samples g (d : GroupReader.draws) (drawn : list nat) g'
    (samples : list (list (tensor F))) : Prop :=
  ∃ gt cgrp,
    GroupReader.groups g = Some gt ∧
    GroupReader.group_dict gt !! GroupReader.dr_natm d = Some cgrp ∧
    Forall2 (λ k i, cgrp !! k = Some i) (GroupReader.dr_csys d) drawn ∧
    Z.of_nat (length drawn) = GroupReader.group_batch g ∧
    pmapM (λ sp : nat * list Z,
             GroupReader.at_reader (Z.of_nat sp.1) (GroupReader.r_sample_train sp.2))
          (zip drawn (GroupReader.dr_perms d)) g = Return g' samples.

(** C7, as the code has it.  A [GroupReader] is its own iterator.  In a
    state reached from construction, a call of [__next__]:
    - when the running total of sampled frames exceeds the total frame
      count (the sum of the frame counts of the readers), sets the total to
      zero and raises [StopIteration];
    - otherwise, with [group_batch] 1, calls [sample_train] on the reader
      drawn, which returns a batch of [batch_size] frames of this reader,
      adds the frame count of the batch to the running total and returns
      the batch;
    - otherwise, with [group_batch > 1], calls [sample_train] on each of
      the readers drawn; when the drawn readers have the same tensor shapes,
      joins the samples field by field along the frame axis, adds the
      frame count of the joined batch to the running total and returns it;
      when two of them differ in shape, raises [RuntimeError], the running
      total being left as it was;
    - with [group_batch > 1] and a batch size of zero, raises [ValueError]
      when the systems are drawn, the state being left as it was. *)
Theorem next_epoch_protocol
    (paths : list (system_dir F)) batch_size group_batch wf wo kw g0 log g d :
  GroupReader.__init__ paths batch_size group_batch wf wo kw = Ok (g0, log) →
  GroupReader.reachable g0 g →
  let used := GroupReader._sample_used g in
  let total := GroupReader.get_train_size g in
  let rs := GroupReader.readers g in
  GroupReader.__iter__ g = g ∧
  total = Zsum (r_get_nframes <$> rs) ∧
  (used > total →
   GroupReader.__next__ d g = Raised (GroupReader.set_sample_used 0 g) StopIteration) ∧
  (used ≤ total → GroupReader.group_batch g = 1 → GroupReader.valid_draws g d →
   ∃ r r' b0 rest,
     rs !! GroupReader.dr_idx d = Some r ∧
     GroupReader.r_sample_train (GroupReader.dr_perm d) r = Return r' (b0 :: rest) ∧
     (0 ≤ GroupReader.r_batch_size r → shape0 b0 = GroupReader.r_batch_size r) ∧
     GroupReader.__next__ d g
       = Return (GroupReader.set_sample_used (used + shape0 b0)
                   (GroupReader.set_readers (<[GroupReader.dr_idx d := r']> rs) g))
                (b0 :: rest)) ∧
  (used ≤ total → GroupReader.group_batch g > 1 → GroupReader.valid_draws g d →
   ∃ drawn g' samples,
     group_samples g d drawn g' samples ∧
     GroupReader._sample_used g' = used ∧
     ((∀ i j ri rj, i ∈ drawn → j ∈ drawn → rs !! i = Some ri → rs !! j = Some rj →
         r_shapes ri = r_shapes rj) →
      ∃ b0 rest,
        (∀ j b, (b0 :: rest) !! j = Some b →
           t_frames b = concat (t_frames <$> field samples j)) ∧
        shape0 b0 = Zsum (shape0 <$> field samples 0) ∧
        (0 < GroupReader.batch_size g →
         shape0 b0 = Zsum (GroupReader.rd_batch_size rs <$> drawn)) ∧
        GroupReader.__next__ d g
          = Return (GroupReader.set_sample_used (used + shape0 b0) g') (b0 :: rest)) ∧
     (∀ i j ri rj, i ∈ drawn → j ∈ drawn → rs !! i = Some ri → rs !! j = Some rj →
        r_shapes ri ≠ r_shapes rj →
        GroupReader.__next__ d g = Raised g' RuntimeError)) ∧
  (used ≤ total → GroupReader.group_batch g > 1 → GroupReader.batch_size g = 0 →
   (∀ gt, GroupReader.groups g = Some gt →
          is_Some (GroupReader.group_dict gt !! GroupReader.dr_natm d)) →
   GroupReader.__next__ d g = Raised g ValueError).
Proof.
  intros Hinit Hreach used total rs.
  pose proof (GroupReader_reachable_inv _ _ (GroupReader_init_inv _ _ _ _ _ _ _ _ Hinit)
                Hreach) as Hinv.
  split; [done|]. split.
  { unfold total, GroupReader.get_train_size. rewrite (ginv_nframes g Hinv).
    unfold statics. by rewrite <- list_fmap_compose. }
  rewrite next_unfold. unfold next_sample. split_and!.
  - intros Hgt. by rewrite decide_True.
  - intros Hle H1 Hvalid. rewrite decide_False by (unfold used, total in Hle; lia).
    rewrite decide_True by done.
    destruct Hvalid as [(r & Hr & Hperm) _].
    assert (r_inv r) as Hri by (by eapply Forall_lookup_1; [apply (ginv_readers g Hinv)|]).
    destruct (r_sample_train_Return r _ Hri Hperm) as (r' & batch & Hs & _ & _ & Hb).
    pose proof (Forall_lookup_1 _ _ _ _ (ginv_shapes g Hinv) (statics_lookup _ _ _ Hr))
      as Hsh.
    destruct (batch_of_head (r_static r) batch Hsh Hb) as (b0 & rest & -> & _ & Hn).
    exists r, r', b0, rest. split; [done|]. split; [done|]. split; [done|].
    unfold GroupReader.sample_train, bind. rewrite (sample_idx_Return g _ Hinv).
    by rewrite (at_reader_Return g _ r r' _ _ Hr Hs).
  - intros Hle Hgb Hvalid. rewrite decide_False by (unfold used, total in Hle; lia).
    rewrite decide_False by lia.
    destruct (sample_train_group_outcome g _ _ _ Hinv Hgb (proj2 Hvalid))
      as (gt & cgrp & drawn & g' & samples & Hgt & Hcgrp & Hdrawn & Hlen & Hdr & Hsf
          & Hsam & Hpmap & Hsame & Hdiff).
    exists drawn, g', samples.
    split; [by exists gt, cgrp|]. split; [by apply sampled_from_used|].
    split.
    + intros Hshapes. destruct (Hsame Hshapes) as (b0 & rest & Hret & _ & Hfields).
      exists b0, rest. rewrite Hret.
      destruct (Hfields 0%nat b0 eq_refl) as (_ & Hfield & _ & Hsz).
      split_and!.
      * intros j b Hb. by destruct (Hfields j b Hb).
      * done.
      * intros Hbs. rewrite Hsz. symmetry. apply Zsum_Forall2.
        apply Forall2_same_length_lookup_2.
        { rewrite (Forall2_length _ _ _ Hsam). by eapply Forall2_length. }
        intros p i x Hi Hx.
        destruct (Forall2_lookup_l _ _ _ _ _ Hsam Hi) as (s & Hs & r & Hr & Hbo).
        destruct (Forall2_lookup_l _ _ _ _ _ Hfield Hs) as (x' & Hx' & Hsx).
        assert (x' = x) as -> by congruence.
        pose proof (statics_lookup _ _ _ Hr) as Hst.
        pose proof (Forall_lookup_1 _ _ _ _ (ginv_shapes g Hinv) Hst) as Hsh.
        destruct (batch_of_head _ _ Hsh Hbo) as (b & rest' & -> & _ & Hn).
        injection Hsx as ->.
        unfold rs. rewrite rd_batch_size_static. fold (statics g).
        rewrite (st_batch_size_lookup _ _ _ Hst). symmetry. apply Hn.
        destruct (Group_inv_batch_size g i _ Hinv Hst). lia.
      * by rewrite (sampled_from_used _ _ Hsf).
    + intros i j ri rj Hi Hj Hri Hrj Hne.
      by rewrite (Hdiff i j ri rj Hi Hj Hri Hrj Hne).
  - intros Hle Hgb Hbs Hkey. rewrite decide_False by (unfold used, total in Hle; lia).
    rewrite decide_False by lia.
    pose proof (ginv_groups g Hinv) as Hg. rewrite decide_True in Hg by done.
    destruct Hg as (gt & Hgt & _).
    destruct (Hkey gt Hgt) as [cgrp Hcgrp].
    destruct (group_prob_valid g gt Hinv Hgt) as (Hnz & Hvalid & _).
    destruct (batch_prob_zero g gt _ cgrp Hinv Hgt Hbs Hcgrp) as (p & Hp & Hchk).
    unfold GroupReader.sample_train_group, bind, get, lift.
    by rewrite Hgt, (choice_check_valid_prob _ _ Hnz Hvalid), Hcgrp, Hp, Hchk.
Qed.
End ClaimsGroupIter.

Definition dummy_group : GroupReader.t Z * list (diagnostic Z) :=
  (GroupReader.Mk [] 0 [] [] 0 0 [] 0 None 0, []).

(** Readers of one shape draw compatible samples. *)
Lemma same_shapes_intro {F} (rs : list (GroupReader.reader F)) sh :
  Forall (λ r, r_shapes r = sh) rs →
  ∀ (drawn : list nat) i j ri rj, i ∈ drawn → j ∈ drawn →
    rs !! i = Some ri → rs !! j = Some rj → r_shapes ri = r_shapes rj.
Proof.
  intros H drawn i j ri rj _ _ Hi Hj.
  rewrite (Forall_lookup_1 _ _ _ _ H Hi), (Forall_lookup_1 _ _ _ _ H Hj). done.
Qed.

(** One system of three frames, batch size two, no grouping. *)
Definition example_group_paths : list (system_dir Z) :=
  [example_dir 1 2 [10; 20; 30] [true; true; true]].
Definition example_group : GroupReader.t Z * list (diagnostic Z) :=
  Eval vm_compute in
    match GroupReader.__init__ example_group_paths 2 1 false false
            GroupReader.default_kwargs with
    | Ok gl => gl
    | Err _ => dummy_group
    end.
Definition example_draws (perm : list Z) : GroupReader.draws :=
  GroupReader.Draws 0 perm 0 [] [].

(** Two systems of one atom and two descriptor channels, three frames
    each, batch size two, [group_batch] two; and the state after one group
    batch drawn from the first system twice. *)
Definition example_iter_paths : list (system_dir Z) :=
  [example_dir 1 2 [10; 20; 30] [true; true; true];
   example_dir 1 2 [1; 2; 3] [true; true; true]].
Definition example_iter : GroupReader.t Z * list (diagnostic Z) :=
  Eval vm_compute in
    match GroupReader.__init__ example_iter_paths 2 2 false false
            GroupReader.default_kwargs with
    | Ok gl => gl
    | Err _ => dummy_group
    end.
Definition example_iter_draws (csys : list nat) (perms : list (list Z))
    : GroupReader.draws :=
  GroupReader.Draws 0 [0; 1; 2] 1 csys perms.
Definition example_iter_step : GroupReader.t Z :=
  Eval vm_compute in
    match GroupReader.__next__
            (example_iter_draws [0; 0]%nat [[0; 1; 2]; [2; 0; 1]]) example_iter.1 with
    | Return g _ | Raised g _ => g
    end.

Lemma example_iter_init :
  GroupReader.__init__ example_iter_paths 2 2 false false GroupReader.default_kwargs
    = Ok (example_iter.1, example_iter.2).
Proof. vm_compute; reflexivity. Qed.

Ltac solve_valid_group_draws :=
  let gt := fresh "gt" in let Hgt := fresh "Hgt" in
  intros gt Hgt; vm_compute in Hgt;
  first [discriminate Hgt
        |injection Hgt as <-;
         split; [vm_compute; reflexivity|];
         split; [eexists; vm_compute; reflexivity|];
         eexists _, _; split; [vm_compute; reflexivity|];
         split; [vm_compute; reflexivity|];
         split; [vm_compute; reflexivity|];
         split; [reflexivity|];
         simpl (GroupReader.dr_csys _); simpl (GroupReader.dr_perms _);
         repeat first
           [solve [constructor]
           |constructor;
            [eexists _, _; split; [vm_compute; reflexivity|];
             split; [vm_compute; reflexivity|solve_permutation]|]]].
Ltac solve_valid_draws :=
  split;
  [eexists; split; [vm_compute; reflexivity|solve_permutation]
  |solve_valid_group_draws].

Lemma example_iter_reachable : GroupReader.reachable example_iter.1 example_iter_step.
Proof.
  eapply (GroupReader.reach_next _ example_iter.1
            (example_iter_draws [0; 0]%nat [[0; 1; 2]; [2; 0; 1]])).
  - apply GroupReader.reach_init.
  - solve_valid_draws.
  - vm_compute; reflexivity.
Qed.

(** In the state after the first group batch, whose four frames are the
    running total, a second group batch over both systems. *)
Lemma next_epoch_protocol_example :
  let g := example_iter_step in
  let d := example_iter_draws [0; 1]%nat [[1; 2; 0]; [2; 1; 0]] in
  GroupReader._sample_used g = 4 ∧ GroupReader.get_train_size g = 6 ∧
  GroupReader.valid_draws g d ∧
  ∃ drawn g' samples b0 rest,
    group_samples g d drawn g' samples ∧
    shape0 b0 = Zsum (shape0 <$> field samples 0) ∧
    GroupReader.__next__ d g
      = Return (GroupReader.set_sample_used (4 + shape0 b0) g') (b0 :: rest).
Proof.
  intros g d.
  assert (GroupReader.valid_draws g d) as Hvalid by solve_valid_draws.
  destruct (next_epoch_protocol example_iter_paths 2 2 false false
              GroupReader.default_kwargs example_iter.1 example_iter.2 g d
              example_iter_init example_iter_reachable)
    as (_ & _ & _ & _ & Hgroup & _).
  destruct Hgroup as (drawn & g' & samples & Hgs & _ & Hsame & _);
    [vm_compute; discriminate|vm_compute; reflexivity|exact Hvalid|].
  destruct Hsame as (b0 & rest & _ & Hsz & _ & Hnext).
  { apply (same_shapes_intro _ [[1]; [1; 2]]%nat). repeat constructor. }
  split; [reflexivity|]. split; [reflexivity|]. split; [exact Hvalid|].
  exists drawn, g', samples, b0, rest. split; [exact Hgs|]. split; [exact Hsz|].
  exact Hnext.
Defined.

(** The values of this run: the second batch brings the running total to
    eight, above the six frames; the third call raises [StopIteration]. *)
Example next_group_epoch_run :
  let d := example_iter_draws [0; 1]%nat [[1; 2; 0]; [2; 1; 0]] in
  ∃ g2 b2 g3,
    GroupReader.__next__ d example_iter_step = Return g2 b2 ∧
    (shape0 <$> b2) = [4; 4] ∧
    (t_frames <$> b2) !! 0%nat = Some [[10]; [20]; [1]; [2]] ∧
    GroupReader._sample_used g2 = 8 ∧
    GroupReader.__next__ d g2 = Raised g3 StopIteration ∧
    GroupReader._sample_used g3 = 0.
Proof.
  intros d. eexists _, _, _.
  split; [vm_compute; reflexivity|]. split; [vm_compute; reflexivity|].
  split; [vm_compute; reflexivity|]. split; [vm_compute; reflexivity|].
  split; [vm_compute; reflexivity|]. vm_compute; reflexivity.
Qed.

(** An epoch of the reader without grouping: two batches of two frames
    bring the running total to four, above the three frames of the reader;
    the next call resets the total and raises [StopIteration]; the call
    after starts the next epoch. *)
Example next_epoch_run :
  let g := example_group.1 in
  ∃ g1 b1 g2 b2 g3 g4 b4,
    GroupReader.__next__ (example_draws [0; 1; 2]) g = Return g1 b1 ∧
    GroupReader._sample_used g1 = 2 ∧
    GroupReader.__next__ (example_draws [2; 0; 1]) g1 = Return g2 b2 ∧
    GroupReader._sample_used g2 = 4 ∧
    GroupReader.__next__ (example_draws [1; 2; 0]) g2 = Raised g3 StopIteration ∧
    GroupReader._sample_used g3 = 0 ∧
    GroupReader.__next__ (example_draws [1; 2; 0]) g3 = Return g4 b4 ∧
    GroupReader._sample_used g4 = 2.
Proof.
  intros g. eexists _, _, _, _, _, _, _.
  split; [vm_compute; reflexivity|]. split; [vm_compute; reflexivity|].
  split; [vm_compute; reflexivity|]. split; [vm_compute; reflexivity|].
  split; [vm_compute; reflexivity|]. split; [vm_compute; reflexivity|].
  split; [vm_compute; reflexivity|]. vm_compute; reflexivity.
Qed.

(** The same two systems with a batch size of zero: the weights
    [nframes / batch_size] are infinite, the batch probabilities NaN;
    [__next__] produces no batch and does not end the epoch, it raises
    [ValueError] at the draw of the systems and leaves the state as it
    was. *)
Definition example_zero : GroupReader.t Z * list (diagnostic Z) :=
  Eval vm_compute in
    match GroupReader.__init__ example_iter_paths 0 2 false false
            GroupReader.default_kwargs with
    | Ok gl => gl
    | Err _ => dummy_group
    end.

Lemma next_batch_size_zero_raises :
  let g := example_zero.1 in
  let d := example_iter_draws [0; 1]%nat [[1; 2; 0]; [2; 1; 0]] in
  GroupReader.__init__ example_iter_paths 0 2 false false GroupReader.default_kwargs
    = Ok (g, example_zero.2) ∧
  GroupReader._sample_used g = 0 ∧ GroupReader.get_train_size g = 6 ∧
  (∃ gt, GroupReader.groups g = Some gt ∧
         GroupReader.batch_prob gt !! 1%nat = Some [NaN; NaN]) ∧
  GroupReader.__next__ d g = Raised g ValueError.
Proof.
  intros g d. split; [vm_compute; reflexivity|]. split; [reflexivity|].
  split; [reflexivity|]. split.
  - eexists. split; [reflexivity|]. vm_compute; reflexivity.
  - vm_compute; reflexivity.
Qed.

Section ClaimsGroupBatch.
Context {F : Type}.
Local Abbreviation reader := (GroupReader.reader F).
Implicit Types (g : GroupReader.t F).

(** The probabilities the two draws of [sample_train_group] are made
    with.  The group: one entry per key, the share of the group in the
    frames, positive, the entries summing to one.  The systems of a group:
    one entry per reader of the group, its [nframes / batch_size] over the
    sum of these weights in the group, positive, the entries summing to
    one. *)
Definition group_draw_tables g (gt : GroupReader.group_tables) : Prop :=
  let rs := GroupReader.readers g in
  let gp := (map_to_list (GroupReader.group_prob gt)).*2 in
  valid_prob (length (map_to_list (GroupReader.group_prob gt))) gp ∧
  Forall (λ x, Qlt 0 x) gp ∧
  ∀ n idxs, GroupReader.group_dict gt !! n = Some idxs →
    GroupReader.group_prob gt !! n
      = Some (Qfrac (Zsum (GroupReader.rd_nframes rs <$> idxs))
                    (GroupReader.get_train_size g)) ∧
    let ws := (λ i, Qfrac (GroupReader.rd_nframes rs i) (GroupReader.rd_batch_size rs i))
                <$> idxs in
    GroupReader.batch_prob gt !! n = Some (Fin <$> normalize ws) ∧
    valid_prob (length idxs) (normalize ws) ∧
    Forall (λ x, Qlt 0 x) (normalize ws).

(** What a call of [sample_train_group] does with the draws [cnatm],
    [csys] and [perms] in the state [g]: the readers drawn are readers of
    the group of [cnatm]; [sample_train] is called on each, one after the
    other; when the readers drawn have the same tensor shapes, the batch
    joins the samples field by field along the frame axis, the frame shapes
    being those of the readers, and its frame count is the sum of the batch
    sizes of the readers drawn, which is [batch_size * group_batch] exactly
    when none of them has fewer frames than [batch_size]; when two readers
    drawn differ in shape the join raises [RuntimeError]. *)
Definition group_batch_drawn g (gt : GroupReader.group_tables) (cnatm : nat)
    (csys : list nat) (perms : list (list Z)) : Prop :=
  ∃ cgrp drawn g' samples,
    let rs := GroupReader.readers g in
    GroupReader.group_dict gt !! cnatm = Some cgrp ∧
    Forall2 (λ k i, cgrp !! k = Some i) csys drawn ∧
    Z.of_nat (length drawn) = GroupReader.group_batch g ∧
    Forall (λ i, ∃ r, rs !! i = Some r ∧ GroupReader.r_natm r = cnatm) drawn ∧
    pmapM (λ sp : nat * list Z,
             GroupReader.at_reader (Z.of_nat sp.1) (GroupReader.r_sample_train sp.2))
          (zip drawn perms) g = Return g' samples ∧
    ((∀ i j ri rj, i ∈ drawn → j ∈ drawn → rs !! i = Some ri → rs !! j = Some rj →
        r_shapes ri = r_shapes rj) →
     ∃ batch,
       GroupReader.sample_train_group cnatm csys perms g = Return g' batch ∧
       (2 ≤ length batch)%nat ∧
       ∀ j b, batch !! j = Some b →
         t_frames b = concat (t_frames <$> field samples j) ∧
         Forall (λ i, ∃ r, rs !! i = Some r ∧ r_shapes r !! j = Some (t_fshape b)) drawn ∧
         shape0 b = Zsum (GroupReader.rd_batch_size rs <$> drawn) ∧
         (shape0 b = GroupReader.batch_size g * GroupReader.group_batch g
          ↔ Forall (λ i, GroupReader.batch_size g ≤ GroupReader.rd_nframes rs i) drawn)) ∧
    (∀ i j ri rj, i ∈ drawn → j ∈ drawn → rs !! i = Some ri → rs !! j = Some rj →
       r_shapes ri ≠ r_shapes rj →
       GroupReader.sample_train_group cnatm csys perms g = Raised g' RuntimeError).

(** C5, as the code has it.  With [group_batch > 1] and a positive batch
    size, in a state reached from construction: the two probability tables
    are probability vectors with the stated entries, so that every key and
    every [group_batch] positions of its group are draws numpy can return;
    and a call of [sample_train_group] with such draws does what
    [group_batch_drawn] says. *)
Theorem sample_train_group_batch
    (paths : list (system_dir F)) batch_size group_batch wf wo kw g0 log g :
  GroupReader.__init__ paths batch_size group_batch wf wo kw = Ok (g0, log) →
  GroupReader.reachable g0 g →
  0 < GroupReader.batch_size g →
  GroupReader.group_batch g > 1 →
  ∃ gt,
    GroupReader.groups g = Some gt ∧
    group_draw_tables g gt ∧
    ∀ cnatm csys perms,
      (∀ cgrp,
         GroupReader.group_dict gt !! cnatm = Some cgrp →
         Z.of_nat (length csys) = GroupReader.group_batch g →
         Forall2 (λ k perm, ∃ i r, cgrp !! k = Some i ∧
                                   GroupReader.readers g !! i = Some r ∧
                                   is_permutation_of_range (GroupReader.r_nframes r) perm)
                 csys perms →
         GroupReader.valid_group_draws g cnatm csys perms) ∧
      (GroupReader.valid_group_draws g cnatm csys perms →
       group_batch_drawn g gt cnatm csys perms).
Proof.
  intros Hinit Hreach Hbs Hgb.
  pose proof (GroupReader_reachable_inv _ _ (GroupReader_init_inv _ _ _ _ _ _ _ _ Hinit)
                Hreach) as Hinv.
  pose proof (ginv_groups g Hinv) as Hg. rewrite decide_True in Hg by done.
  destruct Hg as (gt & Hgt & _).
  exists gt. split; [done|]. split.
  { (* the tables *)
    destruct (group_prob_valid g gt Hinv Hgt) as (_ & Hvalid & Hpos & Hgp).
    split; [done|]. split; [done|]. intros n idxs Hn.
    destruct (Hgp n idxs Hn) as [Hp _].
    destruct (batch_prob_valid g gt n idxs Hinv Hgt Hbs Hn) as (Hbp & Hbv & Hbpos & _).
    assert (GroupReader.rd_nframes (GroupReader.readers g) <$> idxs
            = st_nframes (statics g) <$> idxs) as ->.
    { apply list_fmap_ext. intros _ i _. apply rd_nframes_static. }
    split; [done|]. cbv zeta.
    assert ((λ i, Qfrac (GroupReader.rd_nframes (GroupReader.readers g) i)
                        (GroupReader.rd_batch_size (GroupReader.readers g) i)) <$> idxs
            = batch_weight (statics g) <$> idxs) as ->; [|done].
    apply list_fmap_ext. intros _ i _. unfold batch_weight.
    by rewrite rd_nframes_static, rd_batch_size_static. }
  intros cnatm csys perms. split.
  { intros cgrp Hcgrp Hlen Hdraw. by eapply valid_group_draws_intro. }
  intros Hvalid.
  destruct (sample_train_group_outcome g _ _ _ Hinv Hgb Hvalid)
    as (gt' & cgrp & drawn & g' & samples & Hgt' & Hcgrp & Hdrawn & Hlen & Hdr & Hsf
        & Hsam & Hpmap & Hsame & Hdiff).
  assert (gt' = gt) as -> by congruence.
  exists cgrp, drawn, g', samples. cbv zeta.
  split; [done|]. split; [done|]. split; [done|]. split; [done|]. split; [done|].
  split; [|done].
  intros Hshapes. destruct (Hsame Hshapes) as (b0 & rest & Hret & Hrest & Hfields).
  exists (b0 :: rest). split; [done|].
  split; [destruct rest; [done|simpl; lia]|].
  intros j b Hb. destruct (Hfields j b Hb) as (Hfr & Hfield & Hshape & Hsz).
  assert (shape0 b = Zsum (GroupReader.rd_batch_size (GroupReader.readers g) <$> drawn))
    as Hsum.
  { rewrite Hsz. symmetry. apply Zsum_Forall2.
    apply Forall2_same_length_lookup_2.
    { rewrite (Forall2_length _ _ _ Hsam). by eapply Forall2_length. }
    intros p i x Hi Hx.
    destruct (Forall2_lookup_l _ _ _ _ _ Hsam Hi) as (s & Hs & r & Hr & Hbo).
    destruct (Forall2_lookup_l _ _ _ _ _ Hfield Hs) as (x' & Hx' & Hsx).
    assert (x' = x) as -> by congruence.
    destruct (Forall2_lookup_l _ _ _ _ _ Hbo Hsx) as (sh' & _ & _ & Hn).
    pose proof (statics_lookup _ _ _ Hr) as Hst.
    rewrite rd_batch_size_static. fold (statics g).
    rewrite (st_batch_size_lookup _ _ _ Hst). symmetry. apply Hn.
    destruct (Group_inv_batch_size g i _ Hinv Hst). simpl in *. lia. }
  split; [done|]. split; [done|]. split; [done|].
  rewrite Hsum, <- Hlen.
  assert (Forall (λ i, GroupReader.rd_batch_size (GroupReader.readers g) i
                       ≤ GroupReader.batch_size g
                       ∧ (GroupReader.rd_batch_size (GroupReader.readers g) i
                            = GroupReader.batch_size g
                          ↔ GroupReader.batch_size g
                            ≤ GroupReader.rd_nframes (GroupReader.readers g) i)) drawn)
    as Hmin.
  { eapply Forall_impl; [exact Hdr|]. simpl. intros i (r & Hr & _).
    pose proof (statics_lookup _ _ _ Hr) as Hst.
    rewrite rd_batch_size_static, rd_nframes_static. fold (statics g).
    rewrite (st_batch_size_lookup _ _ _ Hst), (st_nframes_lookup _ _ _ Hst).
    destruct (Group_inv_batch_size g i _ Hinv Hst). lia. }
  destruct (Zsum_bounded (GroupReader.rd_batch_size (GroupReader.readers g))
              (GroupReader.batch_size g) drawn) as [_ Hiff].
  { eapply Forall_impl; [exact Hmin|]. simpl. by intros i [? _]. }
  rewrite Hiff. rewrite !Forall_forall. rewrite Forall_forall in Hmin.
  split; intros H i Hi; destruct (Hmin i Hi) as [_ Hi']; apply Hi'; by apply H.
Qed.
End ClaimsGroupBatch.

(** A directory for the plain class: [system.raw], the labels, a
    descriptor that repeats the label of its frame, and the mask. *)
Definition example_dir_plain (natm nproj : nat) (labels : list Z) (conv : list bool)
    : system_dir Z :=
  let n := length labels in
  SystemDir (Some [natm; nproj])
    (list_to_map
       [("l_e_delta.npy", Npy [n] labels);
        ("dm_eig.npy", Npy [n; natm; nproj]
                         (concat ((λ x, replicate (natm * nproj) x) <$> labels)))])
    (list_to_map [("conv.npy", conv)]).

(** Two systems of five atoms and twenty descriptor channels, two and three
    frames, batch size two, [group_batch] two. *)
Definition example_pair_paths : list (system_dir Z) :=
  [example_dir_plain 5 20 [10; 20] [true; true];
   example_dir_plain 5 20 [1; 2; 3] [true; true; true]].
Definition example_pair : GroupReader.t Z * list (diagnostic Z) :=
  Eval vm_compute in
    match GroupReader.__init__ example_pair_paths 2 2 false false
            GroupReader.default_kwargs with
    | Ok gl => gl
    | Err _ => dummy_group
    end.

Lemma sample_train_group_batch_example :
  let g := example_pair.1 in
  let perms := [[1; 0]; [2; 0; 1]] in
  GroupReader.__init__ example_pair_paths 2 2 false false GroupReader.default_kwargs
    = Ok (g, example_pair.2) ∧
  0 < GroupReader.batch_size g ∧
  GroupReader.group_batch g > 1 ∧
  ∃ gt,
    GroupReader.groups g = Some gt ∧
    group_draw_tables g gt ∧
    GroupReader.valid_group_draws g 5 [0; 1]%nat perms ∧
    group_batch_drawn g gt 5 [0; 1]%nat perms.
Proof.
  intros g perms.
  assert (GroupReader.__init__ example_pair_paths 2 2 false false
            GroupReader.default_kwargs = Ok (g, example_pair.2)) as Hinit
    by (vm_compute; reflexivity).
  assert (0 < GroupReader.batch_size g) as Hbs by (vm_compute; reflexivity).
  assert (GroupReader.group_batch g > 1) as Hgb by (vm_compute; reflexivity).
  destruct (sample_train_group_batch example_pair_paths 2 2 false false
              GroupReader.default_kwargs g example_pair.2 g
              Hinit (GroupReader.reach_init g) Hbs Hgb) as (gt & Hgt & Htab & Hdraws).
  split; [exact Hinit|]. split; [exact Hbs|]. split; [exact Hgb|].
  exists gt. split; [exact Hgt|]. split; [exact Htab|].
  destruct (Hdraws 5%nat [0; 1]%nat perms) as [Hintro Hdrawn].
  assert (GroupReader.valid_group_draws g 5 [0; 1]%nat perms) as Hvalid.
  { assert (Some gt = GroupReader.groups g) as Hgt' by (by rewrite Hgt).
    vm_compute in Hgt'. injection Hgt' as ->.
    apply (Hintro [0; 1]%nat); [vm_compute; reflexivity|reflexivity|].
    repeat first
      [solve [constructor]
      |constructor;
       [eexists _, _; split; [vm_compute; reflexivity|];
        split; [vm_compute; reflexivity|solve_permutation]|]]. }
  split; [exact Hvalid|exact (Hdrawn Hvalid)].
Defined.

(** The values of this draw: four frames, each descriptor frame of shape
    (5, 20); the group of five atoms is the only one, and the two systems
    have the weights 2/2 and 3/2. *)
Example sample_train_group_batch_run :
  ∃ g' batch gt,
    GroupReader.sample_train_group 5 [0; 1]%nat [[1; 0]; [2; 0; 1]] example_pair.1
      = Return g' batch ∧
    (shape0 <$> batch) = [4; 4] ∧
    (t_fshape <$> batch) = [[1]; [5; 20]]%nat ∧
    (t_frames <$> batch) !! 0%nat = Some [[10]; [20]; [1]; [2]] ∧
    GroupReader.groups example_pair.1 = Some gt ∧
    GroupReader.group_prob gt !! 5%nat = Some (Qfrac 5 5) ∧
    GroupReader.batch_prob_raw gt !! 5%nat = Some [Fin (2 # 2); Fin (3 # 2)].
Proof.
  eexists _, _, _. split; [vm_compute; reflexivity|].
  split; [vm_compute; reflexivity|]. split; [vm_compute; reflexivity|].
  split; [vm_compute; reflexivity|]. split; [reflexivity|].
  split; vm_compute; reflexivity.
Qed.

(** A system of one frame, whose batch size is reduced to one, and a system
    of four frames, batch size two, [group_batch] two: the batch has three
    frames, not [batch_size * group_batch]. *)
Definition example_clamped_paths : list (system_dir Z) :=
  [example_dir_plain 1 2 [10] [true];
   example_dir_plain 1 2 [1; 2; 3; 4] [true; true; true; true]].
Definition example_clamped : GroupReader.t Z * list (diagnostic Z) :=
  Eval vm_compute in
    match GroupReader.__init__ example_clamped_paths 2 2 false false
            GroupReader.default_kwargs with
    | Ok gl => gl
    | Err _ => dummy_group
    end.

Lemma group_batch_frames_not_product :
  let g := example_clamped.1 in
  let perms := [[0]; [3; 1; 0; 2]] in
  GroupReader.__init__ example_clamped_paths 2 2 false false GroupReader.default_kwargs
    = Ok (g, example_clamped.2) ∧
  GroupReader.valid_group_draws g 1 [0; 1]%nat perms ∧
  GroupReader.batch_size g = 2 ∧ GroupReader.group_batch g = 2 ∧
  ∃ g' batch,
    GroupReader.sample_train_group 1 [0; 1]%nat perms g = Return g' batch ∧
    (shape0 <$> batch) = [3; 3] ∧
    (t_fshape <$> batch) = [[1]; [1; 2]]%nat.
Proof.
  intros g perms. split; [vm_compute; reflexivity|].
  split; [solve_valid_group_draws|].
  split; [reflexivity|]. split; [reflexivity|].
  eexists _, _. split; [vm_compute; reflexivity|]. split; vm_compute; reflexivity.
Qed.

Section ClaimsGroupMismatch.
Context {F : Type}.
Local Abbreviation reader := (GroupReader.reader F).
Implicit Types (g : GroupReader.t F).

Lemma drawn_elem_of (cgrp csys drawn : list nat) :
  Forall2 (λ k i, cgrp !! k = Some i) csys drawn →
  ∀ i, i ∈ drawn ↔ ∃ k, k ∈ csys ∧ cgrp !! k = Some i.
Proof.
  intros H i. split.
  - intros Hi. apply list_elem_of_lookup in Hi as [p Hp].
    destruct (Forall2_lookup_r _ _ _ _ _ H Hp) as (k & Hk & Hki).
    exists k. split; [by eapply list_elem_of_lookup_2|done].
  - intros (k & Hk & Hki). apply list_elem_of_lookup in Hk as [p Hp].
    destruct (Forall2_lookup_l _ _ _ _ _ H Hp) as (i' & Hi' & Hki').
    assert (i' = i) as -> by congruence. by eapply list_elem_of_lookup_2.
Qed.

(** Readers of different descriptor width have different tensor shapes. *)
Lemma ndesc_shapes g i j ri rj :
  Group_inv g →
  GroupReader.readers g !! i = Some ri → GroupReader.readers g !! j = Some rj →
  GroupReader.r_ndesc ri ≠ GroupReader.r_ndesc rj → r_shapes ri ≠ r_shapes rj.
Proof.
  intros Hinv Hi Hj Hne Heq.
  pose proof (Forall_lookup_1 _ _ _ _ (ginv_shapes g Hinv) (statics_lookup _ _ _ Hi))
    as [_ H1].
  pose proof (Forall_lookup_1 _ _ _ _ (ginv_shapes g Hinv) (statics_lookup _ _ _ Hj))
    as [_ H2].
  simpl in H1, H2. rewrite Heq in H1. congruence.
Qed.

(** C6, as the code has it.  Nothing is validated.  Construction succeeds
    whenever every system loads and one of them has a frame, whatever the
    atom counts and descriptor widths, and [ndesc] is that of the first
    reader kept.  A group holds the readers of one atom count, so atom
    counts never differ in a group; descriptor widths are not compared.
    With a positive batch size, a group batch whose drawn readers have the
    same tensor shapes is returned; one that draws two readers whose shapes
    differ, as they do when the descriptor widths differ, raises the
    [RuntimeError] of the join, which [__next__] lets through. *)
Theorem group_mismatch_raises_at_draw
    (paths : list (system_dir F)) batch_size group_batch wf wo kw g0 log g
    cnatm csys perms :
  GroupReader.__init__ paths batch_size group_batch wf wo kw = Ok (g0, log) →
  GroupReader.reachable g0 g →
  0 < GroupReader.batch_size g →
  GroupReader.group_batch g > 1 →
  GroupReader.valid_group_draws g cnatm csys perms →
  let rs := GroupReader.readers g in
  (∀ paths' bl,
     rmapM (λ ipath, GroupReader.Reader_class wf wo ipath batch_size kw) paths' = Ok bl →
     ∀ r0 kept, included bl = r0 :: kept →
     ∃ g1 log1,
       GroupReader.__init__ paths' batch_size group_batch wf wo kw = Ok (g1, log1) ∧
       GroupReader.readers g1 = r0 :: kept ∧
       GroupReader.ndesc g1 = GroupReader.r_ndesc r0) ∧
  ∃ gt cgrp,
    GroupReader.groups g = Some gt ∧
    GroupReader.group_dict gt !! cnatm = Some cgrp ∧
    Forall (λ i, ∃ r, rs !! i = Some r ∧ GroupReader.r_natm r = cnatm) cgrp ∧
    ((∀ k1 k2 i1 i2 r1 r2,
        k1 ∈ csys → k2 ∈ csys → cgrp !! k1 = Some i1 → cgrp !! k2 = Some i2 →
        rs !! i1 = Some r1 → rs !! i2 = Some r2 → r_shapes r1 = r_shapes r2) →
     ∃ g' batch, GroupReader.sample_train_group cnatm csys perms g = Return g' batch) ∧
    (∀ k1 k2 i1 i2 r1 r2,
       k1 ∈ csys → k2 ∈ csys → cgrp !! k1 = Some i1 → cgrp !! k2 = Some i2 →
       rs !! i1 = Some r1 → rs !! i2 = Some r2 →
       r_shapes r1 ≠ r_shapes r2 ∨ GroupReader.r_ndesc r1 ≠ GroupReader.r_ndesc r2 →
       ∃ g',
         GroupReader.sample_train_group cnatm csys perms g = Raised g' RuntimeError ∧
         ∀ idx perm,
           GroupReader._sample_used g ≤ GroupReader.get_train_size g →
           GroupReader.__next__ (GroupReader.Draws idx perm cnatm csys perms) g
             = Raised g' RuntimeError).
Proof.
  intros Hinit Hreach Hbs Hgb Hvalid rs.
  pose proof (GroupReader_reachable_inv _ _ (GroupReader_init_inv _ _ _ _ _ _ _ _ Hinit)
                Hreach) as Hinv.
  split.
  { intros paths' bl Hbl r0 kept Hkept. rewrite GroupReader_init_spec, Hbl. simpl.
    rewrite Hkept. by eexists _, _. }
  destruct (sample_train_group_outcome g _ _ _ Hinv Hgb Hvalid)
    as (gt & cgrp & drawn & g' & samples & Hgt & Hcgrp & Hdrawn & Hlen & Hdr & Hsf
        & Hsam & Hpmap & Hsame & Hdiff).
  destruct (Group_inv_tables g gt Hinv Hgt) as (_ & Hgd & _).
  pose proof (drawn_elem_of _ _ _ Hdrawn) as Hin.
  exists gt, cgrp. split; [done|]. split; [done|].
  split; [by eapply static_groups_members|]. split.
  - intros Hshapes. destruct Hsame as (b0 & rest & Hret & _); [|by eauto].
    intros i j ri rj Hi Hj Hri Hrj.
    apply Hin in Hi as (k1 & Hk1 & Hi1). apply Hin in Hj as (k2 & Hk2 & Hi2).
    by eapply (Hshapes k1 k2 i j).
  - intros k1 k2 i1 i2 r1 r2 Hk1 Hk2 Hi1 Hi2 Hr1 Hr2 Hne.
    assert (r_shapes r1 ≠ r_shapes r2) as Hne'.
    { destruct Hne as [?|Hnd]; [done|]. by eapply (ndesc_shapes g i1 i2). }
    assert (i1 ∈ drawn) as Hd1 by (apply Hin; eauto).
    assert (i2 ∈ drawn) as Hd2 by (apply Hin; eauto).
    pose proof (Hdiff i1 i2 r1 r2 Hd1 Hd2 Hr1 Hr2 Hne') as Hraise.
    exists g'. split; [done|]. intros idx perm Hle.
    rewrite next_unfold. rewrite decide_False by lia.
    unfold next_sample. rewrite decide_False by (simpl; lia). simpl.
    by rewrite Hraise.
Qed.
End ClaimsGroupMismatch.

(** Two systems of one atom, with descriptor widths two and three. *)
Definition example_mismatch_paths : list (system_dir Z) :=
  [example_dir_plain 1 2 [10; 20; 30] [true; true; true];
   example_dir_plain 1 3 [1; 2; 3] [true; true; true]].
Definition example_mismatch : GroupReader.t Z * list (diagnostic Z) :=
  Eval vm_compute in
    match GroupReader.__init__ example_mismatch_paths 2 2 false false
            GroupReader.default_kwargs with
    | Ok gl => gl
    | Err _ => dummy_group
    end.

(** Construction accepts the two systems, prints nothing, and puts them
    into one group; [ndesc] is the width of the first; a draw of the first
    system twice returns a batch. *)
Lemma group_mismatch_accepted :
  let g := example_mismatch.1 in
  let perms := [[0; 1; 2]; [2; 0; 1]] in
  GroupReader.__init__ example_mismatch_paths 2 2 false false GroupReader.default_kwargs
    = Ok (g, []) ∧
  (∃ gt, GroupReader.groups g = Some gt ∧
         GroupReader.group_dict gt !! 1%nat = Some [0; 1]%nat) ∧
  (GroupReader.r_ndesc <$> GroupReader.readers g) = [2; 3]%nat ∧
  GroupReader.ndesc g = 2%nat ∧
  GroupReader.valid_group_draws g 1 [0; 0]%nat perms ∧
  ∃ g' batch,
    GroupReader.sample_train_group 1 [0; 0]%nat perms g = Return g' batch ∧
    (shape0 <$> batch) = [4; 4].
Proof.
  intros g perms. split; [vm_compute; reflexivity|]. split.
  { eexists. split; [reflexivity|]. vm_compute; reflexivity. }
  split; [reflexivity|]. split; [reflexivity|].
  split; [solve_valid_group_draws|].
  eexists _, _. split; [vm_compute; reflexivity|]. reflexivity.
Qed.

(** A draw of both systems raises [RuntimeError]. *)
Lemma group_mismatch_raises_example :
  let g := example_mismatch.1 in
  let perms := [[0; 1; 2]; [2; 0; 1]] in
  GroupReader.__init__ example_mismatch_paths 2 2 false false GroupReader.default_kwargs
    = Ok (g, example_mismatch.2) ∧
  0 < GroupReader.batch_size g ∧
  GroupReader.group_batch g > 1 ∧
  GroupReader.valid_group_draws g 1 [0; 1]%nat perms ∧
  ∃ g',
    GroupReader.sample_train_group 1 [0; 1]%nat perms g = Raised g' RuntimeError ∧
    GroupReader.__next__ (GroupReader.Draws 0 [0; 1; 2] 1 [0; 1]%nat perms) g
      = Raised g' RuntimeError.
Proof.
  intros g perms.
  assert (GroupReader.__init__ example_mismatch_paths 2 2 false false
            GroupReader.default_kwargs = Ok (g, example_mismatch.2)) as Hinit
    by (vm_compute; reflexivity).
  assert (0 < GroupReader.batch_size g) as Hbs by (vm_compute; reflexivity).
  assert (GroupReader.group_batch g > 1) as Hgb by (vm_compute; reflexivity).
  assert (GroupReader.valid_group_draws g 1 [0; 1]%nat perms) as Hvalid
    by solve_valid_group_draws.
  split; [exact Hinit|]. split; [exact Hbs|]. split; [exact Hgb|].
  split; [exact Hvalid|].
  destruct (group_mismatch_raises_at_draw example_mismatch_paths 2 2 false false
              GroupReader.default_kwargs g example_mismatch.2 g 1 [0; 1]%nat perms
              Hinit (GroupReader.reach_init g) Hbs Hgb Hvalid)
    as (_ & gt & cgrp & Hgt & Hcgrp & _ & _ & Hraise).
  vm_compute in Hgt. injection Hgt as <-.
  vm_compute in Hcgrp. injection Hcgrp as <-.
  edestruct (Hraise 0%nat 1%nat 0%nat 1%nat) as (g' & Hs & Hn);
    [by left|right; by left|reflexivity|reflexivity
    |vm_compute; reflexivity|vm_compute; reflexivity
    |right; vm_compute; discriminate|].
  exists g'. split; [exact Hs|]. apply Hn. vm_compute. discriminate.
Defined.

(** * Further properties of the readers *)


(** ** Statistics *)

Section StatsFacts.
Context {F : Type} `{!Numpy F}.
Local Abbreviation reader := (GroupReader.reader F).
Implicit Types (g : GroupReader.t F) (r : reader).

(** The descriptor of a reader as rows of channels, one row for each atom of
    each frame; and these rows for all the readers. *)
Definition atom_rows r : list (list F) :=
  concat ((λ frame, rows_of (GroupReader.r_ndesc r) frame (GroupReader.r_natm r))
            <$> t_frames (GroupReader.r_data_dm r)).
Definition pooled_rows g : list (list F) :=
  concat (atom_rows <$> GroupReader.readers g).

(** The values of the section that starts at channel [c] and has [s]
    channels, over all rows. *)
Definition section_values (rows : list (list F)) (c s : nat) : list F :=
  concat ((λ row, take s (drop c row)) <$> rows).

Lemma reshape_app_replicate {A} n1 n2 k (l1 l2 : list A) :
  length l1 = (n1 * k)%nat →
  reshape (replicate (n1 + n2) k) (l1 ++ l2)
    = reshape (replicate n1 k) l1 ++ reshape (replicate n2 k) l2.
Proof.
  revert l1. induction n1 as [|n1 IH]; intros l1 Hl; simpl.
  - by destruct l1.
  - rewrite take_app_le by lia. f_equal.
    rewrite drop_app_le by lia. apply IH. rewrite length_drop. lia.
Qed.

Lemma reshape_concat_frames {A} m k (frames : list (list A)) :
  Forall (λ fr, length fr = (m * k)%nat) frames →
  reshape (replicate (length frames * m) k) (concat frames)
    = concat ((λ fr, reshape (replicate m k) fr) <$> frames).
Proof.
  induction 1 as [|fr frames Hfr _ IH]; simpl; [done|].
  rewrite reshape_app_replicate by done. by rewrite IH.
Qed.

Lemma length_concat_uniform {A} c (frames : list (list A)) :
  Forall (λ fr, length fr = c) frames → length (concat frames) = (length frames * c)%nat.
Proof.
  induction 1 as [|fr frames Hfr _ IH]; simpl; [done|]. rewrite length_app. lia.
Qed.

Lemma reshape_rows_atom_rows r :
  r_data_wf r → (0 < GroupReader.r_ndesc r)%nat →
  reshape_rows (GroupReader.r_data_dm r) (GroupReader.r_ndesc r)
    = Ok (Tensor (atom_rows r) [GroupReader.r_ndesc r]).
Proof.
  intros (_ & _ & _ & Hfr) Hd. unfold reshape_rows, atom_rows.
  set (d := GroupReader.r_ndesc r) in *. set (natm := GroupReader.r_natm r) in *.
  set (frames := t_frames (GroupReader.r_data_dm r)) in *.
  assert (length (concat frames) = (length frames * natm * d)%nat) as Hlen.
  { rewrite (length_concat_uniform _ _ Hfr). lia. }
  rewrite decide_False by lia. rewrite Hlen.
  rewrite decide_True by (apply Nat.Div0.mod_mul).
  rewrite Nat.div_mul by lia. f_equal. f_equal.
  by apply reshape_concat_frames.
Qed.

Lemma atom_rows_width r :
  r_data_wf r → Forall (λ row, length row = GroupReader.r_ndesc r) (atom_rows r).
Proof.
  intros (_ & _ & _ & Hfr). unfold atom_rows.
  apply Forall_concat, Forall_fmap. eapply Forall_impl; [done|]. simpl.
  intros fr Hl. unfold rows_of. apply reshape_replicate_lengths. lia.
Qed.

Lemma pooled_rows_width g d :
  Forall r_inv (GroupReader.readers g) →
  Forall (λ r, GroupReader.r_ndesc r = d) (GroupReader.readers g) →
  Forall (λ row, length row = d) (pooled_rows g).
Proof.
  intros Hinv Hd. unfold pooled_rows. apply Forall_concat, Forall_fmap.
  apply Forall_forall. intros r Hr. simpl.
  rewrite Forall_forall in Hinv, Hd. rewrite <- (Hd r Hr).
  apply atom_rows_width. by apply Hinv.
Qed.

(** The array the statistics are taken of. *)
Lemma pooled_descriptor g d :
  Forall r_inv (GroupReader.readers g) → GroupReader.readers g ≠ [] →
  Forall (λ r, GroupReader.r_ndesc r = d) (GroupReader.readers g) → (0 < d)%nat →
  ∃ parts,
    rmapM (λ r, reshape_rows (GroupReader.r_data_dm r) (GroupReader.r_ndesc r))
          (GroupReader.readers g) = Ok parts ∧
    np_concatenate parts = Ok (Tensor (pooled_rows g) [d]).
Proof.
  intros Hinv Hne Hd Hpos.
  exists ((λ r, Tensor (atom_rows r) [d]) <$> GroupReader.readers g). split.
  - rewrite <- (list_fmap_id (GroupReader.readers g)) at 1.
    apply rmapM_fmap_Ok. apply Forall_forall. intros r Hr. simpl.
    rewrite Forall_forall in Hinv, Hd. rewrite <- (Hd r Hr).
    apply reshape_rows_atom_rows; [by apply Hinv|]. rewrite (Hd r Hr). lia.
  - unfold np_concatenate. rewrite (cat_frames_Ok _ _ [d]).
    + unfold pooled_rows. by rewrite <- list_fmap_compose.
    + by destruct (GroupReader.readers g).
    + apply Forall_fmap, Forall_forall. done.
Qed.

(** *** Sections of channels *)

Lemma length_split_cols (rows : list (list F)) start sections :
  length (split_cols rows start sections) = length sections.
Proof.
  revert start. induction sections as [|s ss IH]; intros start; simpl; [done|].
  by rewrite IH.
Qed.

Lemma split_cols_lookup (rows : list (list F)) start sections k s :
  sections !! k = Some s →
  split_cols rows start sections !! k
    = Some ((λ row, take s (drop (start + sum_list (take k sections)) row)) <$> rows).
Proof.
  revert start k. induction sections as [|s0 ss IH]; intros start k Hk; [done|].
  destruct k as [|k]; simpl in *.
  - injection Hk as ->. by rewrite Nat.add_0_r.
  - rewrite (IH _ _ Hk). f_equal. apply list_fmap_ext. intros _ row _.
    do 2 f_equal. lia.
Qed.

(** A value for each section, repeated over the channels of the section. *)
Definition broadcast_sections {A} (vals : list A) (sections : list nat) : list A :=
  concat (zip_with (λ v s, replicate s v) vals sections).

Lemma length_broadcast_sections {A} (vals : list A) sections :
  length vals = length sections →
  length (broadcast_sections vals sections) = sum_list sections.
Proof.
  unfold broadcast_sections. revert vals.
  induction sections as [|s ss IH]; intros [|v vals] Hl; simpl in *; try done.
  rewrite length_app, length_replicate, IH by lia. done.
Qed.

Lemma broadcast_sections_lookup {A} (vals : list A) sections k v s j :
  vals !! k = Some v → sections !! k = Some s → (j < s)%nat →
  broadcast_sections vals sections !! (sum_list (take k sections) + j)%nat = Some v.
Proof.
  unfold broadcast_sections. revert vals k.
  induction sections as [|s0 ss IH]; intros [|v0 vals] k Hv Hs Hj; try done.
  destruct k as [|k]; simpl in *.
  - injection Hv as ->. injection Hs as ->.
    rewrite lookup_app_l by (by rewrite length_replicate).
    by apply lookup_replicate_2.
  - rewrite lookup_app_r by (rewrite length_replicate; lia).
    rewrite length_replicate.
    replace (s0 + sum_list (take k ss) + j - s0)%nat
      with (sum_list (take k ss) + j)%nat by lia.
    by apply IH.
Qed.

Lemma zip_with_broadcast {A B} (f : B → A) (shells : list B) sections :
  concat (zip_with (λ d s, replicate s (f d)) shells sections)
    = broadcast_sections (f <$> shells) sections.
Proof. unfold broadcast_sections. by rewrite zip_with_fmap_l. Qed.

Lemma Group_inv_readers_nonempty g : Group_inv g → GroupReader.readers g ≠ [].
Proof.
  intros Hinv Hnil. apply (ginv_nonempty g Hinv). unfold statics. by rewrite Hnil.
Qed.

(** X1 ([GroupReader.compute_data_stat]). In a state reached from construction, with readers of one descriptor
    width [ndesc > 0]: the descriptors of all readers are pooled as rows of
    [ndesc] channels (one row for each atom of each frame);
    without sections, [compute_data_stat] returns for each channel the mean
    and the standard deviation of its column, vectors of length [ndesc];
    with sections that sum to [ndesc], it returns vectors of length [ndesc]
    in which every channel of a section holds the mean (standard deviation)
    of all the values of the section, over all rows; with sections that do
    not sum to [ndesc] the assertion fails. *)
Theorem compute_data_stat_pooled
    (paths : list (system_dir F)) batch_size group_batch wf wo kw g0 log g :
  GroupReader.__init__ paths batch_size group_batch wf wo kw = Ok (g0, log) →
  GroupReader.reachable g0 g →
  Forall (λ r, GroupReader.r_ndesc r = GroupReader.ndesc g) (GroupReader.readers g) →
  (0 < GroupReader.ndesc g)%nat →
  let ndesc := GroupReader.ndesc g in
  let pooled := pooled_rows g in
  Forall (λ row, length row = ndesc) pooled ∧
  GroupReader.compute_data_stat None g
    = Ok ((λ j, np_mean (column pooled j)) <$> seq 0 ndesc,
          (λ j, np_std (column pooled j)) <$> seq 0 ndesc) ∧
  ∀ sections,
    if decide (sum_list sections = ndesc) then
      ∃ all_mean all_std,
        GroupReader.compute_data_stat (Some sections) g = Ok (all_mean, all_std) ∧
        length all_mean = ndesc ∧ length all_std = ndesc ∧
        ∀ k s j, sections !! k = Some s → (j < s)%nat →
          let c := sum_list (take k sections) in
          all_mean !! (c + j)%nat = Some (np_mean (section_values pooled c s)) ∧
          all_std !! (c + j)%nat = Some (np_std (section_values pooled c s))
    else GroupReader.compute_data_stat (Some sections) g = Err AssertionError.
Proof.
  intros Hinit Hreach Hd Hpos ndesc pooled.
  pose proof (GroupReader_reachable_inv _ _ (GroupReader_init_inv _ _ _ _ _ _ _ _ Hinit)
                Hreach) as Hinv.
  pose proof (ginv_readers g Hinv) as Hrs.
  destruct (pooled_descriptor g ndesc Hrs (Group_inv_readers_nonempty g Hinv) Hd Hpos)
    as (parts & Hparts & Hcat).
  split; [by apply pooled_rows_width|]. split.
  { unfold GroupReader.compute_data_stat. rewrite Hparts. simpl. rewrite Hcat. done. }
  intros sections. unfold GroupReader.compute_data_stat. rewrite Hparts. simpl.
  rewrite Hcat. simpl. fold ndesc pooled.
  destruct (decide (sum_list sections = ndesc)) as [Hsum|Hsum]; [|done].
  assert (sections ≠ []) as Hne by (intros ->; simpl in Hsum; lia).
  assert (∀ (f : list (list F) → F),
            length (f <$> split_cols pooled 0 sections) = length sections) as Hlen.
  { intros f. by rewrite length_fmap, length_split_cols. }
  assert (∀ (f : list (list F) → F),
            np_concatenate1 (zip_with (λ d s, replicate s (f d))
                               (split_cols pooled 0 sections) sections)
            = Ok (broadcast_sections (f <$> split_cols pooled 0 sections) sections))
    as Hcat1.
  { intros f. unfold np_concatenate1. rewrite <- zip_with_broadcast.
    pose proof (length_split_cols pooled 0 sections) as Hl.
    destruct sections as [|s ss]; [done|].
    by destruct (split_cols pooled 0 (s :: ss)). }
  rewrite (Hcat1 (λ d, np_mean (concat d))). simpl.
  rewrite (Hcat1 (λ d, np_std (concat d))). simpl.
  eexists _, _. split; [done|].
  rewrite !length_broadcast_sections by apply Hlen.
  split; [done|]. split; [done|].
  intros k s j Hk Hj.
  assert (∀ (f : list F → F),
            ((λ d, f (concat d)) <$> split_cols pooled 0 sections) !! k
            = Some (f (section_values pooled (sum_list (take k sections)) s))) as Hval.
  { intros f. rewrite list_lookup_fmap, (split_cols_lookup _ _ _ _ _ Hk). done. }
  split; eapply broadcast_sections_lookup; try done; apply Hval.
Qed.
End StatsFacts.

(** ** Rational numbers as an instance of the numbers of numpy

    Used for the concrete runs below: exact rational arithmetic, the square
    root of [np.std] rounded down to three decimals, and a solver for
    systems of one or two unknowns by Cramer's rule. *)

Definition Qmean (l : list Q) : Q :=
  Qdiv (Qsum l) (inject_Z (Z.of_nat (length l))).
Definition Qsqrt_approx (q : Q) : Q :=
  Qmake (Z.sqrt (Qnum q * 1000000 / Z.pos (Qden q))) 1000.
Definition Qstd (l : list Q) : Q :=
  Qsqrt_approx (Qmean ((λ x, Qmult (Qminus x (Qmean l)) (Qminus x (Qmean l))) <$> l)).
Definition Qsolve (a : list (list Q)) (b : list Q) : result (list Q) :=
  match a, b with
  | [[a11]], [b1] =>
      if Qeq_bool a11 0 then Err ValueError else Ok [Qred (Qdiv b1 a11)]
  | [[a11; a12]; [a21; a22]], [b1; b2] =>
      let det := Qminus (Qmult a11 a22) (Qmult a12 a21) in
      if Qeq_bool det 0 then Err ValueError
      else Ok [Qred (Qdiv (Qminus (Qmult b1 a22) (Qmult a12 b2)) det);
               Qred (Qdiv (Qminus (Qmult a11 b2) (Qmult b1 a21)) det)]
  | _, _ => Err ValueError
  end.

#[global] Instance Numpy_Q : Numpy Q := {|
  f_zero := 0%Q;
  f_one := 1%Q;
  f_of_nat := λ n, inject_Z (Z.of_nat n);
  f_add := λ x y, Qred (Qplus x y);
  f_sub := λ x y, Qred (Qminus x y);
  f_mul := λ x y, Qred (Qmult x y);
  f_div := λ x y, Qred (Qdiv x y);
  np_sum := λ l, Qred (Qsum l);
  np_mean := λ l, Qred (Qmean l);
  np_std := λ l, Qred (Qstd l);
  np_linalg_solve := Qsolve
|}.

(** A directory with [system.raw], the labels and the descriptor given in
    full, and no convergence mask. *)
Definition example_dir_Q (natm nproj : nat) (labels descriptor : list Q)
    : system_dir Q :=
  let n := length labels in
  SystemDir (Some [natm; nproj])
    (list_to_map
       [("l_e_delta.npy", Npy [n] labels);
        ("dm_eig.npy", Npy [n; natm; nproj] descriptor)])
    ∅.
Definition kwargs_no_filter : GroupReader.kwargs :=
  GroupReader.Kwargs "l_e_delta" (GroupReader.DName "dm_eig") "l_f_delta" "grad_vx"
    "l_o_delta" "orbital_precalc" false "conv".

(** Two systems with three descriptor channels: one atom and two frames, two
    atoms and one frame. *)
Definition example_stat_paths : list (system_dir Q) :=
  [example_dir_Q 1 3 [1; 2] [1; 2; 3; 3; 4; 5];
   example_dir_Q 2 3 [5] [5; 6; 7; 7; 8; 9]]%Q.
Definition example_stat : GroupReader.t Q * list (diagnostic Q) :=
  Eval vm_compute in
    match GroupReader.__init__ example_stat_paths 2 1 false false kwargs_no_filter with
    | Ok gl => gl
    | Err _ => (GroupReader.Mk [] 0 [] [] 0 0 [] 0 None 0, [])
    end.

Lemma compute_data_stat_pooled_example :
  let g := example_stat.1 in
  GroupReader.__init__ example_stat_paths 2 1 false false kwargs_no_filter
    = Ok (g, example_stat.2) ∧
  Forall (λ r, GroupReader.r_ndesc r = GroupReader.ndesc g) (GroupReader.readers g) ∧
  (0 < GroupReader.ndesc g)%nat ∧
  pooled_rows g = [[1; 2; 3]; [3; 4; 5]; [5; 6; 7]; [7; 8; 9]]%Q ∧
  GroupReader.compute_data_stat None g
    = Ok ((λ j, np_mean (column (pooled_rows g) j)) <$> seq 0 3,
          (λ j, np_std (column (pooled_rows g) j)) <$> seq 0 3) ∧
  GroupReader.compute_data_stat (Some [1; 1]%nat) g = Err AssertionError.
Proof.
  intros g.
  assert (GroupReader.__init__ example_stat_paths 2 1 false false kwargs_no_filter
          = Ok (g, example_stat.2)) as Hinit by (vm_compute; reflexivity).
  assert (Forall (λ r, GroupReader.r_ndesc r = GroupReader.ndesc g)
                 (GroupReader.readers g)) as Hd by (repeat constructor).
  assert (0 < GroupReader.ndesc g)%nat as Hpos by (vm_compute; lia).
  destruct (compute_data_stat_pooled example_stat_paths 2 1 false false kwargs_no_filter
              g example_stat.2 g Hinit (GroupReader.reach_init g) Hd Hpos)
    as (_ & Hnone & Hsec).
  split; [exact Hinit|]. split; [exact Hd|]. split; [exact Hpos|].
  split; [vm_compute; reflexivity|]. split; [exact Hnone|].
  exact (Hsec [1; 1]%nat).
Defined.

(** The values: the means of the three channels over the four rows, and with
    the sections [2; 1] the mean of the first two channels repeated twice. *)
Example compute_data_stat_run :
  (st <~ GroupReader.compute_data_stat None example_stat.1 ;; Ok st.1)
    = Ok [4; 5; 6]%Q ∧
  (st <~ GroupReader.compute_data_stat (Some [2; 1]%nat) example_stat.1 ;; Ok st.1)
    = Ok [9 # 2; 9 # 2; 6]%Q.
Proof. split; vm_compute; reflexivity. Qed.

(** ** [GroupReader]: what iteration leaves as constructed *)

Section GroupConfigFacts.
Context {F : Type}.
Local Abbreviation reader := (GroupReader.reader F).
Implicit Types (g : GroupReader.t F) (r : reader).

(** The attributes set in [__init__] that no method assigns again. *)
Record config := Config {
  c_path_list : list (system_dir F);
  c_batch_size : Z;
  c_nframes : list Z;
  c_nsystems : nat;
  c_ndesc : nat;
  c_sys_prob : list Q;
  c_group_batch : Z;
  c_groups : option GroupReader.group_tables
}.
Definition config_of g : config :=
  Config (GroupReader.path_list g) (GroupReader.batch_size g) (GroupReader.nframes g)
         (GroupReader.nsystems g) (GroupReader.ndesc g) (GroupReader.sys_prob g)
         (GroupReader.group_batch g) (GroupReader.groups g).

Lemma sampled_from_config g g' : sampled_from g g' → config_of g' = config_of g.
Proof. intros [Hfr _ _]. rewrite Hfr. done. Qed.

Lemma next_config d g :
  Group_inv g → GroupReader.valid_draws g d →
  match GroupReader.__next__ d g with
  | Return g' _ | Raised g' _ => config_of g' = config_of g ∧ statics g' = statics g
  end.
Proof.
  intros Hinv Hvalid. rewrite next_unfold.
  destruct (decide _); [done|].
  pose proof (next_sample_sampled d g Hinv Hvalid) as Hsf.
  destruct (next_sample d g) as [g' sample|g' e].
  - pose proof (sampled_from_config _ _ Hsf) as Hc. destruct Hsf as [_ Hst _].
    by destruct sample.
  - split; [by apply sampled_from_config|by destruct Hsf].
Qed.

Lemma reachable_config g0 g :
  Group_inv g0 → GroupReader.reachable g0 g →
  config_of g = config_of g0 ∧ statics g = statics g0.
Proof.
  intros H0. induction 1 as [|g d g' b Hr IH Hv Hn|g d g' e Hr IH Hv Hn]; [done| |].
  - pose proof (next_config d g (GroupReader_reachable_inv _ _ H0 Hr) Hv) as H.
    rewrite Hn in H. destruct H as [-> ->]. done.
  - pose proof (next_config d g (GroupReader_reachable_inv _ _ H0 Hr) Hv) as H.
    rewrite Hn in H. destruct H as [-> ->]. done.
Qed.

Lemma init_sys_prob (paths : list (system_dir F)) bs gb wf wo kw g log :
  GroupReader.__init__ paths bs gb wf wo kw = Ok (g, log) →
  GroupReader.sys_prob g
    = (λ ii, Qfrac ii (Zsum (GroupReader.nframes g))) <$> GroupReader.nframes g ∧
  GroupReader.path_list g = paths ∧ GroupReader.batch_size g = bs ∧
  GroupReader.group_batch g = Z.max gb 1 ∧ GroupReader._sample_used g = 0.
Proof.
  rewrite GroupReader_init_spec. intros H. inv_rbind H.
  destruct (included a) as [|r0 l]; [done|]. by injection H as <- _.
Qed.
End GroupConfigFacts.

Section SysProbFacts.
Context {F : Type}.
Implicit Types (g : GroupReader.t F).

(** X2 ([GroupReader.__init__], [sample_idx]). In every state reached from
    construction, [sys_prob] is a probability vector over the readers kept:
    one entry per reader, the entry of a reader is its frame count over the
    total frame count, which is positive, and the entries sum to one; so the
    draw of [sample_idx] is well defined and every system has a chance. *)
Theorem sys_prob_distribution
    (paths : list (system_dir F)) batch_size group_batch wf wo kw g0 log g :
  GroupReader.__init__ paths batch_size group_batch wf wo kw = Ok (g0, log) →
  GroupReader.reachable g0 g →
  GroupReader.nsystems g = length (GroupReader.readers g) ∧
  (0 < GroupReader.nsystems g)%nat ∧
  valid_prob (GroupReader.nsystems g) (GroupReader.sys_prob g) ∧
  ∀ i r, GroupReader.readers g !! i = Some r →
    GroupReader.sys_prob g !! i
      = Some (Qfrac (GroupReader.r_nframes r) (GroupReader.get_train_size g)) ∧
    Qlt 0 (Qfrac (GroupReader.r_nframes r) (GroupReader.get_train_size g)).
Proof.
  intros Hinit Hreach.
  pose proof (GroupReader_init_inv _ _ _ _ _ _ _ _ Hinit) as Hinv0.
  pose proof (GroupReader_reachable_inv _ _ Hinv0 Hreach) as Hinv.
  destruct (reachable_config _ _ Hinv0 Hreach) as [Hc Hst].
  destruct (init_sys_prob _ _ _ _ _ _ _ _ Hinit) as (Hp0 & _).
  assert (GroupReader.sys_prob g
          = (λ ii, Qfrac ii (Zsum (GroupReader.nframes g))) <$> GroupReader.nframes g)
    as Hp.
  { injection Hc as _ _ -> _ _ -> _ _. done. }
  pose proof (Group_inv_total_pos g Hinv) as Htot.
  pose proof (ginv_nframes g Hinv) as Hnf.
  pose proof (ginv_nsystems g Hinv) as Hns.
  pose proof (ginv_nonempty g Hinv) as Hne.
  pose proof (ginv_nonzero g Hinv) as Hnz.
  assert (length (statics g) = length (GroupReader.readers g)) as Hlen.
  { unfold statics. by rewrite length_fmap. }
  split; [lia|]. split.
  { rewrite Hns. destruct (statics g); [done|simpl; lia]. }
  split.
  - unfold valid_prob. rewrite Hp. split_and!.
    + rewrite length_fmap, Hnf, length_fmap. lia.
    + apply Forall_fmap. rewrite Hnf. apply Forall_fmap.
      eapply Forall_impl; [exact Hnz|]. simpl. intros st Hpos.
      apply Qfrac_nonneg; [lia|]. unfold GroupReader.get_train_size in Htot.
      rewrite Hnf in Htot. lia.
    + rewrite Qsum_Qfrac. apply Qfrac_self.
      unfold GroupReader.get_train_size in Htot. lia.
  - intros i r Hr. split.
    + unfold GroupReader.get_train_size.
      rewrite Hp, list_lookup_fmap, Hnf, list_lookup_fmap.
      rewrite (statics_lookup _ _ _ Hr). done.
    + apply Qfrac_pos; [|done].
      pose proof (statics_lookup _ _ _ Hr) as Hs.
      exact (Forall_lookup_1 _ _ _ _ Hnz Hs).
Qed.

(** X3 ([GroupReader.__next__] and the sampling methods). Iteration assigns
    nothing but [_sample_used] and the sampling state of the readers: in
    every state reached from construction the path list, the batch size,
    the frame counts, the number of systems, the descriptor width, the
    system probabilities, the group batch and the group tables are those of
    construction, and so are the readers' frame count, batch size, atom
    count, descriptor width and tensor shapes. *)
Theorem iteration_keeps_configuration
    (paths : list (system_dir F)) batch_size group_batch wf wo kw g0 log g :
  GroupReader.__init__ paths batch_size group_batch wf wo kw = Ok (g0, log) →
  GroupReader.reachable g0 g →
  config_of g = config_of g0 ∧
  r_static <$> GroupReader.readers g = r_static <$> GroupReader.readers g0 ∧
  GroupReader.path_list g = paths ∧
  GroupReader.batch_size g = batch_size ∧
  GroupReader.group_batch g = Z.max group_batch 1.
Proof.
  intros Hinit Hreach.
  pose proof (GroupReader_init_inv _ _ _ _ _ _ _ _ Hinit) as Hinv0.
  destruct (reachable_config _ _ Hinv0 Hreach) as [Hc Hst].
  destruct (init_sys_prob _ _ _ _ _ _ _ _ Hinit) as (_ & H1 & H2 & H3 & _).
  split; [done|]. split; [done|].
  injection Hc as -> -> _ _ _ _ -> _. done.
Qed.
End SysProbFacts.

(** A state of [example_stat] after one call of [__next__], which drew the
    first system. *)
Definition example_stat_draws : GroupReader.draws :=
  GroupReader.Draws 0 [1; 0] 0 [] [].
Definition example_stat_step : GroupReader.t Q :=
  Eval vm_compute in
    match GroupReader.__next__ example_stat_draws example_stat.1 with
    | Return g _ | Raised g _ => g
    end.

Lemma example_stat_init :
  GroupReader.__init__ example_stat_paths 2 1 false false kwargs_no_filter
    = Ok (example_stat.1, example_stat.2).
Proof. vm_compute; reflexivity. Qed.

Lemma example_stat_valid_draws : GroupReader.valid_draws example_stat.1 example_stat_draws.
Proof.
  split.
  - eexists. split; [vm_compute; reflexivity|]. solve_permutation.
  - intros gt Hgt. vm_compute in Hgt. discriminate.
Qed.

Lemma example_stat_reachable : GroupReader.reachable example_stat.1 example_stat_step.
Proof.
  eapply (GroupReader.reach_next _ example_stat.1 example_stat_draws).
  - apply GroupReader.reach_init.
  - apply example_stat_valid_draws.
  - vm_compute; reflexivity.
Qed.

(** The two systems of [example_stat_paths] have two frames and one frame. *)
Lemma sys_prob_distribution_example :
  GroupReader.sys_prob example_stat_step = [Qfrac 2 3; Qfrac 1 3] ∧
  valid_prob 2 (GroupReader.sys_prob example_stat_step).
Proof.
  destruct (sys_prob_distribution example_stat_paths 2 1 false false kwargs_no_filter
              example_stat.1 example_stat.2 example_stat_step
              example_stat_init example_stat_reachable)
    as (_ & _ & Hvalid & _).
  split; [reflexivity|exact Hvalid].
Defined.

Lemma iteration_keeps_configuration_example :
  GroupReader._sample_used example_stat_step = 2 ∧
  GroupReader.batch_size example_stat_step = 2 ∧
  GroupReader.group_batch example_stat_step = 1 ∧
  config_of example_stat_step = config_of example_stat.1.
Proof.
  destruct (iteration_keeps_configuration example_stat_paths 2 1 false false
              kwargs_no_filter example_stat.1 example_stat.2 example_stat_step
              example_stat_init example_stat_reachable)
    as (Hc & _ & _ & Hb & Hg).
  split; [reflexivity|]. split; [exact Hb|]. split; [exact Hg|exact Hc].
Defined.

(** ** [GroupReader]: the groups partition the readers *)

Section GroupPartitionTheorem.
Context {F : Type}.
Local Abbreviation reader := (GroupReader.reader F).
Implicit Types (g : GroupReader.t F) (r : reader) (rs : list reader)
  (gd : gmap nat (list nat)).

Lemma init_groups (paths : list (system_dir F)) bs gb wf wo kw g log :
  GroupReader.__init__ paths bs gb wf wo kw = Ok (g, log) →
  GroupReader.groups g
    = if decide (Z.max gb 1 > 1)
      then Some (GroupReader.build_groups (GroupReader.readers g) (GroupReader.nframes g))
      else None.
Proof.
  rewrite GroupReader_init_spec. intros H. inv_rbind H.
  destruct (included a) as [|r0 l]; [done|]. by injection H as <- _.
Qed.

Lemma statics_natm g g' i r :
  statics g' = statics g → GroupReader.readers g' !! i = Some r →
  ∃ r0, GroupReader.readers g !! i = Some r0 ∧
        GroupReader.r_natm r0 = GroupReader.r_natm r ∧
        GroupReader.r_nframes r0 = GroupReader.r_nframes r ∧
        GroupReader.r_batch_size r0 = GroupReader.r_batch_size r.
Proof.
  intros Hst Hr. pose proof (statics_lookup _ _ _ Hr) as Hs. rewrite Hst in Hs.
  destruct (statics_lookup_inv _ _ _ Hs) as (r0 & Hr0 & Heq).
  exists r0. split; [done|]. by injection Heq as -> -> -> _ _.
Qed.

(** X4 ([GroupReader.__init__], the loop filling [group_dict]). With
    [group_batch > 1], in every state reached from construction the groups
    partition the readers by atom count: every position of [readers] occurs
    in exactly one group and once in it, every reader's atom count is a key,
    no group is empty, and the group of the key [n] holds exactly the
    positions of the readers whose atom count is [n]. *)
Theorem group_dict_partition
    (paths : list (system_dir F)) batch_size group_batch wf wo kw g0 log g :
  GroupReader.__init__ paths batch_size group_batch wf wo kw = Ok (g0, log) →
  GroupReader.reachable g0 g →
  group_batch > 1 →
  ∃ gt, GroupReader.groups g = Some gt ∧
    members (GroupReader.group_dict gt) ≡ₚ seq 0 (length (GroupReader.readers g)) ∧
    (∀ i r, GroupReader.readers g !! i = Some r →
       is_Some (GroupReader.group_dict gt !! GroupReader.r_natm r)) ∧
    ∀ n idxs, GroupReader.group_dict gt !! n = Some idxs →
      idxs ≠ [] ∧ NoDup idxs ∧
      ∀ i, i ∈ idxs ↔
           ∃ r, GroupReader.readers g !! i = Some r ∧ GroupReader.r_natm r = n.
Proof.
  intros Hinit Hreach Hgb.
  pose proof (GroupReader_init_inv _ _ _ _ _ _ _ _ Hinit) as Hinv0.
  destruct (reachable_config _ _ Hinv0 Hreach) as [Hc Hst].
  pose proof (init_groups _ _ _ _ _ _ _ _ Hinit) as Hg0.
  rewrite decide_True in Hg0 by lia.
  assert (GroupReader.groups g = GroupReader.groups g0) as Hg by (by injection Hc).
  destruct (build_group_dict_partition (GroupReader.readers g0)) as (Hm & Hkey & Hgrp).
  assert (length (GroupReader.readers g) = length (GroupReader.readers g0)) as Hlen.
  { apply (f_equal length) in Hst. unfold statics in Hst.
    by rewrite !length_fmap in Hst. }
  eexists. split; [by rewrite Hg, Hg0|]. simpl. split; [by rewrite Hlen|]. split.
  - intros i r Hr. destruct (statics_natm _ _ _ _ Hst Hr) as (r0 & Hr0 & <- & _).
    by eapply Hkey.
  - intros n idxs Hn. destruct (Hgrp n idxs Hn) as (Hne & Hnd & Hiff).
    split; [done|]. split; [done|]. intros i. rewrite Hiff. split.
    + intros (r0 & Hr0 & Hnat).
      destruct (statics_natm g g0 i r0 (eq_sym Hst) Hr0) as (r & Hr & Hn' & _).
      exists r. split; [done|congruence].
    + intros (r & Hr & Hnat).
      destruct (statics_natm _ _ _ _ Hst Hr) as (r0 & Hr0 & Hn' & _).
      exists r0. split; [done|congruence].
Qed.
End GroupPartitionTheorem.

(** Three systems with three descriptor channels, of one, two and one
    atoms and of two, one and one frames; batch size one, group batch two. *)
Definition example_grouped_paths : list (system_dir Q) :=
  [example_dir_Q 1 3 [1; 2] [1; 2; 3; 3; 4; 5];
   example_dir_Q 2 3 [5] [5; 6; 7; 7; 8; 9];
   example_dir_Q 1 3 [7] [2; 4; 6]]%Q.
Definition example_grouped : GroupReader.t Q * list (diagnostic Q) :=
  Eval vm_compute in
    match GroupReader.__init__ example_grouped_paths 1 2 false false kwargs_no_filter with
    | Ok gl => gl
    | Err _ => (GroupReader.Mk [] 0 [] [] 0 0 [] 0 None 0, [])
    end.

Lemma example_grouped_init :
  GroupReader.__init__ example_grouped_paths 1 2 false false kwargs_no_filter
    = Ok (example_grouped.1, example_grouped.2).
Proof. vm_compute; reflexivity. Qed.

(** The first and the third system form the group of one atom. *)
Lemma group_dict_partition_example :
  ∃ gt, GroupReader.groups example_grouped.1 = Some gt ∧
    GroupReader.group_dict gt !! 1%nat = Some [0; 2]%nat ∧
    GroupReader.group_dict gt !! 2%nat = Some [1]%nat ∧
    members (GroupReader.group_dict gt) ≡ₚ [0; 1; 2]%nat.
Proof.
  destruct (group_dict_partition example_grouped_paths 1 2 false false kwargs_no_filter
              example_grouped.1 example_grouped.2 example_grouped.1
              example_grouped_init (GroupReader.reach_init _) ltac:(lia))
    as (gt & Hgt & Hm & _).
  exists gt. split; [exact Hgt|].
  assert (Some gt = GroupReader.groups example_grouped.1) as Hgt' by (by rewrite Hgt).
  vm_compute in Hgt'. injection Hgt' as ->.
  split; [vm_compute; reflexivity|]. split; [vm_compute; reflexivity|]. exact Hm.
Defined.
